(** * The enrichment engine of [src/lib/utils/enricher.ts]

    A shallow embedding of the enricher module: the duck-typed value
    trees walked by [stripEnrichment] and [injectEnrichment], the
    amount formatter, the token-account classifier, the metadata batch
    fetch and the enrichment-map builder [fetchEnrichmentMap], followed
    by the properties established about them. *)

From Stdlib Require Import ZArith NArith Ascii.
From Stdlib.Strings Require Import Byte.
From stdpp Require Import base gmap strings list fin_maps.

Set Warnings "-register-all".

Local Open Scope Z_scope.

(** ** JavaScript values *)

(** A decoded account is an arbitrary JSON-like JavaScript value.  An
    object is the ordered list of its own enumerable properties, in the
    order in which [for (const key in data)] visits them; inherited
    properties and the special property name [__proto__] are left out of
    the model.  Strings are sequences of 8-bit code units. *)
Inductive Value : Type :=
  | VUndefined
  | VNull
  | VBool (b : bool)
  | VNum (n : Z)
  | VStr (s : string)
  | VArr (items : list Value)
  | VObj (props : list (string * Value)).

(** Keys of a JavaScript [Map] in this module are strings, or
    [undefined] when an array was indexed past its end ([None]). *)
Abbreviation JsKey := (option string).

(** [data[key]] / [key in data] on an object. *)
Fixpoint lookupProp (key : string) (props : list (string * Value)) : option Value :=
  match props with
  | [] => None
  | (k, v) :: rest => if decide (k = key) then Some v else lookupProp key rest
  end.

Definition getProp (key : string) (data : Value) : Value :=
  match data with
  | VObj props => default VUndefined (lookupProp key props)
  | _ => VUndefined
  end.

(** [data[key] = v] on an object: an existing property keeps its place. *)
Fixpoint assignProp (key : string) (v : Value) (props : list (string * Value))
  : list (string * Value) :=
  match props with
  | [] => [(key, v)]
  | (k, w) :: rest =>
      if decide (k = key) then (k, v) :: rest else (k, w) :: assignProp key v rest
  end.

Definition setProp (key : string) (v : Value) (data : Value) : Value :=
  match data with
  | VObj props => VObj (assignProp key v props)
  | _ => data
  end.

(** The test of [stripEnrichment]: [__isEnriched in data], with
    [data.__isEnriched === true], and [pubkey in data]. *)
Definition isEnrichedProps (props : list (string * Value)) : bool :=
  match lookupProp "__isEnriched" props with
  | Some (VBool true) => bool_decide (is_Some (lookupProp "pubkey" props))
  | _ => false
  end.

(** ** stripEnrichment *)

Fixpoint stripEnrichment (data : Value) : Value :=
  match data with
  | VNull | VUndefined => data
  | VObj props =>
      if isEnrichedProps props then default VUndefined (lookupProp "pubkey" props)
      else VObj (map (λ kv, (kv.1, stripEnrichment kv.2)) props)
  | VArr items => VArr (map stripEnrichment items)
  | _ => data
  end.

(** ** injectEnrichment *)

(** Characters that [.] refuses in a regular expression. *)
Definition isLineTerminator (c : ascii) : bool :=
  bool_decide (c = "010"%char) || bool_decide (c = "013"%char).

(** The tail of the pattern (any run of characters, a closing
    parenthesis, end of input) tried on the text that follows an opening
    parenthesis: the capture is everything up to the final closing
    parenthesis, none of it a line terminator. *)
Fixpoint captureToClose (s : string) : option string :=
  match s with
  | EmptyString => None
  | String c EmptyString => if bool_decide (c = ")"%char) then Some EmptyString else None
  | String c rest =>
      if isLineTerminator c then None else String c <$> captureToClose rest
  end.

(** [data.match] with the parenthesised-suffix pattern, giving
    [match[1]]: the capture from the leftmost opening parenthesis at
    which the pattern succeeds. *)
Fixpoint matchWrapped (s : string) : option string :=
  match s with
  | EmptyString => None
  | String c rest =>
      if bool_decide (c = "("%char) then
        match captureToClose rest with
        | Some inner => Some inner
        | None => matchWrapped rest
        end
      else matchWrapped rest
  end.

Definition injectString (s : string) (map : gmap JsKey Value) : Value :=
  match map !! Some s with
  | Some enriched => enriched
  | None =>
      match matchWrapped s with
      | Some inner =>
          match map !! Some inner with
          | Some enriched => enriched
          | None => VStr s
          end
      | None => VStr s
      end
  end.

Fixpoint injectEnrichment (data : Value) (map : gmap JsKey Value) : Value :=
  match data with
  | VStr s => injectString s map
  | VArr items => VArr (List.map (λ item, injectEnrichment item map) items)
  | VObj props => VObj (List.map (λ kv, (kv.1, injectEnrichment kv.2 map)) props)
  | _ => data
  end.

(** ** Amount formatting *)

(** [BN.prototype.toString()]: the decimal digits of a non-negative
    big number, most significant first. *)
Definition digitChar (d : N) : ascii := ascii_of_N (48 + d).

Fixpoint digitsOf (fuel : nat) (n : N) (acc : string) : string :=
  match fuel with
  | O => acc
  | S fuel' =>
      let acc' := String (digitChar (n mod 10)) acc in
      if (n / 10 =? 0)%N then acc' else digitsOf fuel' (n / 10)%N acc'
  end.

Definition BN_toString (n : N) : string :=
  digitsOf (S (N.to_nat (N.log2 n))) n EmptyString.

Fixpoint repeatChar (n : nat) (c : ascii) : string :=
  match n with
  | O => EmptyString
  | S n' => String c (repeatChar n' c)
  end.

(** [s.padStart(targetLength, c)] for a one-character filler. *)
Definition padStart (targetLength : nat) (c : ascii) (s : string) : string :=
  repeatChar (targetLength - String.length s) c +:+ s.

(** [s.replace(/0+$/, EMPTY)]: the trailing run of zeros is dropped. *)
Fixpoint stripTrailingZeros (s : string) : string :=
  match s with
  | EmptyString => EmptyString
  | String c rest =>
      let rest' := stripTrailingZeros rest in
      if bool_decide (c = "0"%char) && bool_decide (rest' = EmptyString)
      then EmptyString
      else String c rest'
  end.

Definition formatAmount (amount : N) (decimals : nat) : string :=
  if decide (decimals = 0%nat) then BN_toString amount
  else
    let divisor := (10 ^ N.of_nat decimals)%N in
    let integerPart := (amount / divisor)%N in
    let fractionalPart := (amount mod divisor)%N in
    let fracStr := padStart decimals "0" (BN_toString fractionalPart) in
    let fracStr := stripTrailingZeros fracStr in
    if decide (0 < String.length fracStr)%nat
    then BN_toString integerPart +:+ "." +:+ fracStr
    else BN_toString integerPart.

(** [s.indexOf(c)] for a one-character needle; [None] stands for -1. *)
Fixpoint indexOfChar (c : ascii) (s : string) : option nat :=
  match s with
  | EmptyString => None
  | String d rest => if bool_decide (d = c) then Some O else S <$> indexOfChar c rest
  end.

Definition isDigit (c : ascii) : bool :=
  (48 <=? nat_of_ascii c)%nat && (nat_of_ascii c <=? 57)%nat.

(** The class of word characters: letters, digits and the underscore. *)
Definition isWordChar (c : ascii) : bool :=
  let n := nat_of_ascii c in
  isDigit c || ((65 <=? n)%nat && (n <=? 90)%nat)
  || ((97 <=? n)%nat && (n <=? 122)%nat) || (n =? 95)%nat.

Definition startsWithDigit (s : string) : bool :=
  match s with
  | String c _ => isDigit c
  | EmptyString => false
  end.

(** The lookahead of the grouping pattern: one or more groups of three
    digits, after which no digit follows. *)
Fixpoint tripletsThenNoDigit (s : string) : bool :=
  match s with
  | String a (String b (String c rest)) =>
      isDigit a && isDigit b && isDigit c
      && (negb (startsWithDigit rest) || tripletsThenNoDigit rest)
  | _ => false
  end.

(** The assertion that a position is not a word boundary: the characters
    on both sides are word characters, or neither is. *)
Definition notWordBoundary (prev : option ascii) (s : string) : bool :=
  let before := from_option isWordChar false prev in
  let after := match s with String c _ => isWordChar c | EmptyString => false end in
  bool_decide (before = after).

(** [s.replace(pattern, COMMA)] with the global flag, for the grouping
    pattern (not a word boundary, followed by groups of three digits and
    then no digit): a comma goes in at every position where the
    zero-width pattern holds. *)
Fixpoint insertCommas (prev : option ascii) (s : string) : string :=
  let here := notWordBoundary prev s && tripletsThenNoDigit s in
  let tail :=
    match s with
    | EmptyString => EmptyString
    | String c rest => String c (insertCommas (Some c) rest)
    end in
  if here then String ","%char tail else tail.

(** The balance text of a token account, as computed in
    [fetchEnrichmentMap] from the result of [formatAmount]. *)
Definition finalAmt (amountStr : string) : string :=
  let s := amountStr in
  let dotIndex := indexOfChar "."%char s in
  let '(intPart, fracPart) :=
    match dotIndex with
    | Some i =>
        (String.substring 0 i s,
         String.substring (i + 1) (String.length s - (i + 1)) s)
    | None => (s, EmptyString)
    end in
  let intWithCommas := insertCommas None intPart in
  if decide (fracPart = EmptyString) then intWithCommas
  else intWithCommas +:+ "." +:+ fracPart.

Definition formatBalance (amount : N) (decimals : nat) : string :=
  finalAmt (formatAmount amount decimals).

(** *** The formatter as the specification words it *)

(** Digits, least significant first, with a comma after every complete
    group of three that has more digits above it. *)
Fixpoint groupFromRight (rdigits : list ascii) : list ascii :=
  match rdigits with
  | a :: b :: c :: higher =>
      a :: b :: c ::
        match higher with
        | [] => []
        | _ :: _ => ","%char :: groupFromRight higher
        end
  | _ => rdigits
  end.

Definition groupThousands (digits : string) : string :=
  String.string_of_list_ascii
    (List.rev (groupFromRight (List.rev (String.list_ascii_of_string digits)))).

Definition specFormat (rawAmount : N) (decimals : nat) : string :=
  if decide (decimals = 0%nat) then groupThousands (BN_toString rawAmount)
  else
    let quotient := (rawAmount / 10 ^ N.of_nat decimals)%N in
    let remainder := (rawAmount mod 10 ^ N.of_nat decimals)%N in
    let fraction :=
      stripTrailingZeros (padStart decimals "0" (BN_toString remainder)) in
    if decide (fraction = EmptyString) then groupThousands (BN_toString quotient)
    else groupThousands (BN_toString quotient) +:+ "." +:+ fraction.


(** ** Account classification *)

Definition TOKEN_PROGRAM_ID : string := "TokenkegQfeZyiNwAJbNbGKPFXCWuBvf9Ss623VQ5DA".
Definition TOKEN_2022_PROGRAM_ID : string := "TokenzQdBNbLqP5VEhdkAS6EPFLC1PHnBqCXEpPxuEb".
Definition SUPABASE_TOKEN_ICON_URL : string :=
  "https://xcdlwgvabmruuularsvn.supabase.co/storage/v1/object/public/p0-tokens".

(** JavaScript's bitwise operators work on signed 32-bit integers. *)
Definition toInt32 (z : Z) : Z := (z + 2 ^ 31) mod 2 ^ 32 - 2 ^ 31.
Definition jsShl (a n : Z) : Z := toInt32 (Z.shiftl (toInt32 a) n).
Definition jsOr (a b : Z) : Z := Z.lor (toInt32 a) (toInt32 b).

(** [dataBuf[i]] used as a number; reading past the end gives
    [undefined], which the bitwise operators take as 0. *)
Definition byteNum (dataBuf : list byte) (i : nat) : Z :=
  from_option (λ b, Z.of_N (Byte.to_N b)) 0 (dataBuf !! i).

(** [dataBuf[i] === 0]. *)
Definition byteIsZero (dataBuf : list byte) (i : nat) : bool :=
  match dataBuf !! i with
  | Some b => (Byte.to_N b =? 0)%N
  | None => false
  end.

(** The integer [opt] read at offset 0. *)
Definition readOpt (dataBuf : list byte) : Z :=
  jsOr (jsOr (jsOr (byteNum dataBuf 0) (jsShl (byteNum dataBuf 1) 8))
             (jsShl (byteNum dataBuf 2) 16))
       (jsShl (byteNum dataBuf 3) 24).

Definition isMintOption (dataBuf : list byte) : bool :=
  let opt := readOpt dataBuf in
  (bool_decide (opt = 0) || bool_decide (opt = 1))
  && byteIsZero dataBuf 1 && byteIsZero dataBuf 2 && byteIsZero dataBuf 3.

(** The outcome of the two flags [isTokenAccount] and [isMint], of which
    at most one is raised. *)
Inductive AccountKind : Type :=
  | TokenHolding   (* isTokenAccount *)
  | MintRecord     (* isMint *)
  | Unclassified.  (* neither *)

Global Instance AccountKind_eq_dec : EqDecision AccountKind.
Proof. solve_decision. Defined.

(** The length tests made once the owner is one of the two token
    programs. *)
Definition classifyBuffer (owner : string) (dataBuf : list byte) : AccountKind :=
  let len := length dataBuf in
  if decide (len = 165%nat) then TokenHolding
  else if decide (len = 82%nat) then MintRecord
  else if decide (owner = TOKEN_2022_PROGRAM_ID) then
    if decide (82 ≤ len ∧ len < 165)%nat then MintRecord
    else if decide (165 < len)%nat then
      if isMintOption dataBuf then MintRecord else TokenHolding
    else Unclassified
  else Unclassified.

Definition classify (owner : string) (dataBuf : list byte) : AccountKind :=
  if decide (owner = TOKEN_PROGRAM_ID ∨ owner = TOKEN_2022_PROGRAM_ID)
  then classifyBuffer owner dataBuf
  else Unclassified.

(** [buf.subarray(begin, end)] for indices that are not negative. *)
Definition subarray (from to : nat) (buf : list byte) : list byte :=
  take (to - from) (drop from buf).

(** [new BN(bytes, LE)]: the little-endian value of a byte array. *)
Fixpoint BN_le (bytes : list byte) : N :=
  match bytes with
  | [] => 0%N
  | b :: rest => (Byte.to_N b + 256 * BN_le rest)%N
  end.

(** ** Chunking loops *)

(** [for (let i = start; i < l.length; i += size) out.push(l.slice(i, i + size))]. *)
Fixpoint sliceLoop {A} (fuel : nat) (i size : nat) (l : list A) : list (list A) :=
  match fuel with
  | O => []
  | S fuel' =>
      if decide (i < length l)%nat
      then take size (drop i l) :: sliceLoop fuel' (i + size) size l
      else []
  end.

Definition chunkBy {A} (size : nat) (l : list A) : list (list A) :=
  sliceLoop (length l) 0 size l.

(** ** Records of the builder *)

(** An entry of the account-info response. *)
Record AccountInfo : Type := {
  info_data : string * string;
  info_owner : string;
}.

Record TokenAccountData : Type := {
  ta_pubkey : JsKey;
  ta_mint : string;
  ta_amount : N;
}.

(** A value of [mintInfoMap]. *)
Record MintInfo : Type := {
  mi_symbol : string;
  mi_decimals : nat;
  mi_logoURI : option string;
  mi_name : option string;
}.

(** An entry [json.data[mint]] of the metadata response. *)
Record TokenMeta : Type := {
  meta_symbol : option string;
  meta_decimals : option nat;
  meta_name : option string;
}.

Record MetadataJson : Type := {
  json_success : bool;
  json_data : option (gmap string TokenMeta);
}.

(** What [await fetch(url)] and [await res.json()] can do: the request
    is rejected, or a response arrives with its [ok] flag and a body
    that parses or not. *)
Inductive FetchResult : Type :=
  | FetchRejected
  | FetchResponse (ok : bool) (json : option MetadataJson).

(** What the first loop over a chunk collects. *)
Record ChunkScan : Type := {
  tokenAccounts : list TokenAccountData;
  mintAccounts : list JsKey;
  uniqueMints : list JsKey;
}.

(** [set.add(x)] on a [Set] kept in insertion order. *)
Definition setAdd (x : JsKey) (s : list JsKey) : list JsKey :=
  if decide (x ∈ s) then s else s ++ [x].

(** A key rendered into a template literal or used as a property name. *)
Definition keyText (k : JsKey) : string := default "undefined" k.

(** A key rendered by [Array.prototype.join]. *)
Definition joinText (k : JsKey) : string := default EmptyString k.

Definition metadataUrl (apiChunk : list JsKey) : string :=
  "/api/token-metadata?list=" +:+ String.concat "," (joinText <$> apiChunk).

Definition iconUrl (mint : JsKey) : string :=
  SUPABASE_TOKEN_ICON_URL +:+ "/" +:+ keyText mint +:+ ".png".

Definition keyValue (k : JsKey) : Value := from_option VStr VUndefined k.

(** Truthiness of a value, and of an optional string. *)
Definition truthy (v : Value) : bool :=
  match v with
  | VUndefined | VNull => false
  | VBool b => b
  | VNum n => negb (n =? 0)
  | VStr s => negb (bool_decide (s = EmptyString))
  | VArr _ | VObj _ => true
  end.

Definition truthyStr (o : option string) : bool :=
  match o with
  | Some s => negb (bool_decide (s = EmptyString))
  | None => false
  end.

(** [meta.symbol || fallback] and [meta.decimals || 0]. *)
Definition orString (o : option string) (fallback : string) : string :=
  if truthyStr o then default fallback o else fallback.

Definition orZero (o : option nat) : nat := default 0%nat o.

Definition metaInfo (mint : JsKey) (meta : TokenMeta) : MintInfo :=
  {| mi_symbol := orString (meta_symbol meta) "Unknown";
     mi_decimals := orZero (meta_decimals meta);
     mi_logoURI := Some (iconUrl mint);
     mi_name := meta_name meta |}.

Definition defaultInfo (mint : JsKey) : MintInfo :=
  {| mi_symbol := "Unknown";
     mi_decimals := 0;
     mi_logoURI := Some (iconUrl mint);
     mi_name := None |}.

(** [mintInfoMap.get(mint)], replaced by the default when absent. *)
Definition resolveInfo (mintInfoMap : gmap JsKey MintInfo) (mint : JsKey) : MintInfo :=
  default (defaultInfo mint) (mintInfoMap !! mint).

(** The loop over one API chunk after a successful response. *)
Definition mergeBatch (apiChunk : list JsKey) (data : gmap string TokenMeta)
    (mintInfoMap : gmap JsKey MintInfo) : gmap JsKey MintInfo :=
  foldl (λ acc mint,
           match data !! keyText mint with
           | Some meta => <[mint := metaInfo mint meta]> acc
           | None => acc
           end) mintInfoMap apiChunk.

(** The data a response contributes: none unless the request went
    through, [res.ok] holds, the body parses and carries [success] and
    [data]. *)
Definition responseData (res : FetchResult) : option (gmap string TokenMeta) :=
  match res with
  | FetchResponse true (Some json) =>
      if json_success json then json_data json else None
  | _ => None
  end.

(** The effect of one response on [mintInfoMap]. *)
Definition applyResponse (apiChunk : list JsKey) (res : FetchResult)
    (mintInfoMap : gmap JsKey MintInfo) : gmap JsKey MintInfo :=
  match responseData res with
  | Some data => mergeBatch apiChunk data mintInfoMap
  | None => mintInfoMap
  end.

(** The entry of the response for one mint, if the response carries any. *)
Definition responseMeta (res : FetchResult) (mint : JsKey) : option TokenMeta :=
  data ← responseData res; data !! keyText mint.

Definition optStr (o : option string) : Value := from_option VStr VUndefined o.

Definition tokenAccountEntry (ta : TokenAccountData) (info : MintInfo)
    (balance : string) (label : option string) : Value :=
  VObj [("__isEnriched", VBool true); ("__type", VStr "token");
        ("mint", VStr (ta_mint ta)); ("pubkey", keyValue (ta_pubkey ta));
        ("symbol", VStr (mi_symbol info));
        ("decimals", VNum (Z.of_nat (mi_decimals info)));
        ("balance", VStr balance); ("logoURI", optStr (mi_logoURI info));
        ("name", optStr (mi_name info)); ("label", optStr label)].

Definition mintAccountEntry (mintPubkey : JsKey) (info : MintInfo)
    (label : option string) : Value :=
  VObj [("__isEnriched", VBool true); ("__type", VStr "token");
        ("mint", keyValue mintPubkey); ("pubkey", keyValue mintPubkey);
        ("symbol", VStr (mi_symbol info));
        ("decimals", VNum (Z.of_nat (mi_decimals info)));
        ("logoURI", optStr (mi_logoURI info));
        ("name", optStr (mi_name info)); ("label", optStr label)].

Definition labeledEntry (pubkey label : string) : Value :=
  VObj [("__isEnriched", VBool true); ("__type", VStr "labeled");
        ("pubkey", VStr pubkey); ("label", VStr label)].

(** The account-info answer that the loop over a chunk works on: the
    value of the response, or as many nulls as the chunk has keys when
    the request failed. *)
Definition chunkInfosOf (chunk : list string)
    (r : option (list (option AccountInfo))) : list (option AccountInfo) :=
  default (replicate (length chunk) None) r.

(** ** The builder and its collaborators *)

(** The builder talks to three collaborators: the account-info service,
    the metadata endpoint and the caller's label lookup.  Each is a
    function of an abstract [World] that it may change, so that two
    calls with the same argument may answer differently; the builder
    threads the world through its calls in program order and records
    every call with its answer. *)
Inductive Event : Type :=
  | EvAccountInfo (chunk : list string) (result : option (list (option AccountInfo)))
  | EvFetch (url : string) (result : FetchResult)
  | EvLabel (pubkey : JsKey) (result : option string).

Section Builder.
Context {World : Type}.

(** [atob]: the binary string, or [None] when it throws. *)
Variable atob : string → option string.
(** [utils.bytes.bs58.encode]. *)
Variable bs58_encode : list byte → string.
(** [DataService.fetchAccountInfo]: [None] when the promise rejects. *)
Variable fetchAccountInfo :
  list string → World → option (list (option AccountInfo)) * World.
(** [fetch(url)] followed by [res.json()]. *)
Variable fetch : string → World → FetchResult * World.

Record Env : Type := {
  world : World;
  trace : list Event;
}.

Definition Eff (A : Type) : Type := Env → A * Env.

#[local] Instance Eff_ret : MRet Eff := λ A x env, (x, env).
#[local] Instance Eff_bind : MBind Eff :=
  λ A B f m env, let '(x, env') := m env in f x env'.

Definition callFetchAccountInfo (chunk : list string)
  : Eff (option (list (option AccountInfo))) :=
  λ env,
    let '(r, w) := fetchAccountInfo chunk (world env) in
    (r, {| world := w; trace := trace env ++ [EvAccountInfo chunk r] |}).

Definition callFetch (url : string) : Eff FetchResult :=
  λ env,
    let '(r, w) := fetch url (world env) in
    (r, {| world := w; trace := trace env ++ [EvFetch url r] |}).

Definition callGetLabel (getLabel : JsKey → World → option string * World)
    (pubkey : JsKey) : Eff (option string) :=
  λ env,
    let '(r, w) := getLabel pubkey (world env) in
    (r, {| world := w; trace := trace env ++ [EvLabel pubkey r] |}).

(** [for (const x of l) s = body(x, s)]. *)
Fixpoint forEach {A S} (body : A → S → Eff S) (l : list A) (s : S) : Eff S :=
  match l with
  | [] => mret s
  | x :: rest => s' ← body x s; forEach body rest s'
  end.

Definition base64ToBytes (base64 : string) : list byte :=
  match atob base64 with
  | Some binaryString =>
      byte_of_ascii <$> String.list_ascii_of_string binaryString
  | None => []
  end.

(** One turn of the loop that tells token accounts from mint accounts. *)
Definition scanAccount (chunk : list string) (j : nat)
    (info : option AccountInfo) (acc : ChunkScan) : ChunkScan :=
  let pubkeyStr := chunk !! j in
  match info with
  | None => acc
  | Some info =>
      let owner := info_owner info in
      if decide (owner = TOKEN_PROGRAM_ID ∨ owner = TOKEN_2022_PROGRAM_ID) then
        let dataBase64 := (info_data info).1 in
        let dataBuf := base64ToBytes dataBase64 in
        match classifyBuffer owner dataBuf with
        | TokenHolding =>
            let mintBuf := subarray 0 32 dataBuf in
            let mint := bs58_encode mintBuf in
            let amountBuf := subarray 64 72 dataBuf in
            let amount := BN_le amountBuf in
            {| tokenAccounts :=
                 tokenAccounts acc ++
                   [{| ta_pubkey := pubkeyStr; ta_mint := mint; ta_amount := amount |}];
               mintAccounts := mintAccounts acc;
               uniqueMints := setAdd (Some mint) (uniqueMints acc) |}
        | MintRecord =>
            {| tokenAccounts := tokenAccounts acc;
               mintAccounts := mintAccounts acc ++ [pubkeyStr];
               uniqueMints := setAdd pubkeyStr (uniqueMints acc) |}
        | Unclassified => acc
        end
      else acc
  end.

Fixpoint scanFrom (chunk : list string) (j : nat)
    (chunkInfos : list (option AccountInfo)) (acc : ChunkScan) : ChunkScan :=
  match chunkInfos with
  | [] => acc
  | info :: rest => scanFrom chunk (S j) rest (scanAccount chunk j info acc)
  end.

Definition scanChunk (chunk : list string)
    (chunkInfos : list (option AccountInfo)) : ChunkScan :=
  scanFrom chunk 0 chunkInfos
    {| tokenAccounts := []; mintAccounts := []; uniqueMints := [] |}.

(** One metadata request; a failure of any kind leaves the map as it is. *)
Definition fetchBatch (apiChunk : list JsKey)
    (mintInfoMap : gmap JsKey MintInfo) : Eff (gmap JsKey MintInfo) :=
  res ← callFetch (metadataUrl apiChunk);
  mret (applyResponse apiChunk res mintInfoMap).

Definition fetchMetadata (mintsList : list JsKey) : Eff (gmap JsKey MintInfo) :=
  let apiChunks := chunkBy 50 mintsList in
  forEach fetchBatch apiChunks ∅.

Section WithLabels.
(** The optional second argument of [fetchEnrichmentMap]. *)
Variable getLabel : option (JsKey → World → option string * World).

(** [getLabel ? getLabel(pubkey) : undefined]. *)
Definition labelOf (pubkey : JsKey) : Eff (option string) :=
  match getLabel with
  | Some g => callGetLabel g pubkey
  | None => mret None
  end.

Definition enrichTokenAccount (mintInfoMap : gmap JsKey MintInfo)
    (ta : TokenAccountData) (enrichmentMap : gmap JsKey Value)
  : Eff (gmap JsKey Value) :=
  let info := resolveInfo mintInfoMap (Some (ta_mint ta)) in
  let amountStr := formatAmount (ta_amount ta) (mi_decimals info) in
  label ← labelOf (ta_pubkey ta);
  mret (<[ta_pubkey ta := tokenAccountEntry ta info (finalAmt amountStr) label]>
          enrichmentMap).

Definition enrichMintAccount (mintInfoMap : gmap JsKey MintInfo)
    (mintPubkey : JsKey) (enrichmentMap : gmap JsKey Value)
  : Eff (gmap JsKey Value) :=
  let info := resolveInfo mintInfoMap mintPubkey in
  label ← labelOf mintPubkey;
  mret (<[mintPubkey := mintAccountEntry mintPubkey info label]> enrichmentMap).

(** The body of the loop over chunks of 100 keys. *)
Definition processChunk (chunk : list string)
    (enrichmentMap : gmap JsKey Value) : Eff (gmap JsKey Value) :=
  r ← callFetchAccountInfo chunk;
  let chunkInfos := chunkInfosOf chunk r in
  let scan := scanChunk chunk chunkInfos in
  if decide (length (uniqueMints scan) = 0%nat) then mret enrichmentMap
  else
    mintInfoMap ← fetchMetadata (uniqueMints scan);
    enrichmentMap ← forEach (enrichTokenAccount mintInfoMap)
                      (tokenAccounts scan) enrichmentMap;
    forEach (enrichMintAccount mintInfoMap) (mintAccounts scan) enrichmentMap.

(** The body of the closing loop over all pubkeys. *)
Definition labelPubkey (g : JsKey → World → option string * World)
    (pubkey : string) (enrichmentMap : gmap JsKey Value)
  : Eff (gmap JsKey Value) :=
  match enrichmentMap !! Some pubkey with
  | None =>
      label ← callGetLabel g (Some pubkey);
      mret (if truthyStr label
            then <[Some pubkey := labeledEntry pubkey (default EmptyString label)]>
                   enrichmentMap
            else enrichmentMap)
  | Some existing =>
      if truthy existing then
        label ← callGetLabel g (Some pubkey);
        mret (if truthyStr label
              then <[Some pubkey := setProp "label" (optStr label) existing]>
                     enrichmentMap
              else enrichmentMap)
      else mret enrichmentMap
  end.

(** The [Set] of pubkeys is the list of its elements in insertion
    order, which is the order of [Array.from(pubkeys)] and of the
    closing loop. *)
Definition fetchEnrichmentMap (pubkeys : list string) : Eff (gmap JsKey Value) :=
  let keys := pubkeys in
  if decide (length keys = 0%nat) then mret ∅
  else
    enrichmentMap ← forEach processChunk (chunkBy 100 keys) ∅;
    match getLabel with
    | Some g => forEach (labelPubkey g) pubkeys enrichmentMap
    | None => mret enrichmentMap
    end.
End WithLabels.
End Builder.


(** ** Round trip of inject and strip: definitions *)

(** No object anywhere in the tree passes the test of [stripEnrichment]. *)
Fixpoint annotationFree (data : Value) : bool :=
  match data with
  | VArr items => forallb annotationFree items
  | VObj props =>
      negb (isEnrichedProps props) && forallb (λ kv, annotationFree kv.2) props
  | _ => true
  end.

(** Every value of the map is an enriched object that carries, in
    [pubkey], the key it is stored under. *)
Definition carriesOwnKey (map : gmap JsKey Value) : Prop :=
  ∀ k a, map !! Some k = Some a →
    ∃ props, a = VObj props
      ∧ lookupProp "__isEnriched" props = Some (VBool true)
      ∧ lookupProp "pubkey" props = Some (VStr k).

(** The address that a string leaf stands for under [map]: itself when
    it is a key or when nothing matches, the parenthesised suffix when
    that is a key. *)
Definition resolveLeaf (map : gmap JsKey Value) (s : string) : string :=
  match map !! Some s with
  | Some _ => s
  | None =>
      match matchWrapped s with
      | Some inner => if decide (is_Some (map !! Some inner)) then inner else s
      | None => s
      end
  end.

Fixpoint mapStrings (f : string → string) (data : Value) : Value :=
  match data with
  | VStr s => VStr (f s)
  | VArr items => VArr (List.map (mapStrings f) items)
  | VObj props => VObj (List.map (λ kv, (kv.1, mapStrings f kv.2)) props)
  | _ => data
  end.

(** No string leaf is a legacy wrapped reference to a key: a string
    that is not a key does not end in a parenthesised key either. *)
Definition isLegacyLeaf (map : gmap JsKey Value) (s : string) : bool :=
  bool_decide (map !! Some s = None)
  && from_option (λ inner, bool_decide (is_Some (map !! Some inner))) false
       (matchWrapped s).

Fixpoint legacyFree (map : gmap JsKey Value) (data : Value) : bool :=
  match data with
  | VStr s => negb (isLegacyLeaf map s)
  | VArr items => forallb (legacyFree map) items
  | VObj props => forallb (λ kv, legacyFree map kv.2) props
  | _ => true
  end.

(** ** The classifier as the specification words it *)

(** The first four bytes as an unsigned little-endian integer. *)
Definition readU32LE (b : list byte) : Z :=
  byteNum b 0 + 256 * byteNum b 1 + 65536 * byteNum b 2 + 16777216 * byteNum b 3.

(** Eight bytes from [offset] as an unsigned little-endian integer. *)
Definition readU64LE (b : list byte) (offset : nat) : N :=
  let byteAt i := from_option Byte.to_N 0%N (b !! (offset + i)%nat) in
  (byteAt 0%nat + 256 ^ 1 * byteAt 1%nat + 256 ^ 2 * byteAt 2%nat
   + 256 ^ 3 * byteAt 3%nat + 256 ^ 4 * byteAt 4%nat + 256 ^ 5 * byteAt 5%nat
   + 256 ^ 6 * byteAt 6%nat + 256 ^ 7 * byteAt 7%nat)%N.

(** The discriminant test of the decision table. *)
Definition mintDiscriminant (b : list byte) : Prop :=
  (readU32LE b = 0 ∨ readU32LE b = 1)
  ∧ byteNum b 1 = 0 ∧ byteNum b 2 = 0 ∧ byteNum b 3 = 0.

Global Instance mintDiscriminant_dec b : Decision (mintDiscriminant b).
Proof. unfold mintDiscriminant. apply _. Defined.

(** The decision table, row by row. *)
Definition decisionTable (owner : string) (b : list byte) : AccountKind :=
  let len := length b in
  if decide (owner = TOKEN_PROGRAM_ID) then
    if decide (len = 165%nat) then TokenHolding
    else if decide (len = 82%nat) then MintRecord
    else Unclassified
  else if decide (owner = TOKEN_2022_PROGRAM_ID) then
    if decide (len = 165%nat) then TokenHolding
    else if decide (len = 82%nat) then MintRecord
    else if decide (82 ≤ len ∧ len < 165)%nat then MintRecord
    else if decide (len < 82)%nat then Unclassified
    else if decide (mintDiscriminant b) then MintRecord
    else TokenHolding
  else Unclassified.

(** ** Digit strings *)

Fixpoint allDigits (s : string) : bool :=
  match s with
  | EmptyString => true
  | String c rest => isDigit c && allDigits rest
  end.

(** The number a string of decimal digits denotes, given the value of
    the digits read so far. *)
Fixpoint parseDecimal (acc : N) (s : string) : N :=
  match s with
  | EmptyString => acc
  | String c rest => parseDecimal (10 * acc + (N_of_ascii c - 48))%N rest
  end.

(** ** Batch sizes *)


(** Whether a comma precedes a run of [n] remaining digits. *)
Definition commaBefore (n : nat) : bool := (0 <? n)%nat && (n mod 3 =? 0)%nat.

(** ** Vocabulary for the properties of the builder *)

(** A string or [undefined] rendered into a template literal. *)
Definition valueText (v : Value) : string :=
  match v with
  | VStr s => s
  | _ => "undefined"
  end.

(** The icon of a token entry is derived from its [mint] field. *)
Definition iconDerived (v : Value) : Prop :=
  getProp "__type" v = VStr "token" →
  getProp "logoURI" v
  = VStr (SUPABASE_TOKEN_ICON_URL +:+ "/" +:+ valueText (getProp "mint" v) +:+ ".png").

Definition isObject (v : Value) : Prop := ∃ props, v = VObj props.

(** Position [i] of the answer holds a blob of the given kind for the
    key [chunk[i]]. *)
Definition scanned (atob : string → option string) (chunk : list string)
    (chunkInfos : list (option AccountInfo)) (k : JsKey) (kind : AccountKind) : Prop :=
  ∃ i info,
    chunkInfos !! i = Some (Some info) ∧ k = chunk !! i
    ∧ classify (info_owner info) (base64ToBytes atob (info_data info).1) = kind.

(** An account-info service keeps to its interface when it answers with
    at most one entry per address asked for. *)
Definition alignedService {World : Type}
    (fetchAccountInfo : list string → World → option (list (option AccountInfo)) * World)
  : Prop :=
  ∀ chunk w infos,
    (fetchAccountInfo chunk w).1 = Some infos → (length infos ≤ length chunk)%nat.

(** An invariant of the enrichment map is kept by the entries of a
    chunk when it survives the insertion of a token entry or a mint
    entry for every account the scan of the chunk found. *)
Definition keepsEntries (atob : string → option string)
    (bs58_encode : list byte → string) (I : gmap JsKey Value → Prop)
    (chunk : list string) (chunkInfos : list (option AccountInfo)) : Prop :=
  let scan := scanChunk atob bs58_encode chunk chunkInfos in
  (∀ m ta info label,
     I m → ta ∈ tokenAccounts scan →
     mi_logoURI info = Some (iconUrl (Some (ta_mint ta))) →
     I (<[ta_pubkey ta :=
            tokenAccountEntry ta info
              (formatBalance (ta_amount ta) (mi_decimals info)) label]> m))
  ∧ (∀ m k info label,
       I m → k ∈ mintAccounts scan → mi_logoURI info = Some (iconUrl k) →
       I (<[k := mintAccountEntry k info label]> m)).

(** The effect of the closing loop on one pubkey, given the label that
    the lookup answers. *)
Definition labelEffect (pubkey : string) (label : option string)
    (enrichmentMap : gmap JsKey Value) : gmap JsKey Value :=
  match enrichmentMap !! Some pubkey with
  | None =>
      if truthyStr label
      then <[Some pubkey := labeledEntry pubkey (default EmptyString label)]> enrichmentMap
      else enrichmentMap
  | Some existing =>
      if truthy existing && truthyStr label
      then <[Some pubkey := setProp "label" (optStr label) existing]> enrichmentMap
      else enrichmentMap
  end.

(** The entry that the closing loop leaves for an address with a
    non-empty label, given the entry it had before. *)
Definition labelTarget (a l : string) (before : option Value) : Value :=
  match before with
  | None => labeledEntry a l
  | Some existing => setProp "label" (VStr l) existing
  end.

(** ** extractPubkeys *)

(** The character class of [BASE58_REGEX]: the digits 1 to 9 and the
    letters without I, O and l. *)
Definition isBase58Char (c : ascii) : bool :=
  let n := nat_of_ascii c in
  ((49 <=? n) && (n <=? 57) || (65 <=? n) && (n <=? 72)
   || (74 <=? n) && (n <=? 78) || (80 <=? n) && (n <=? 90)
   || (97 <=? n) && (n <=? 107) || (109 <=? n) && (n <=? 122))%nat.

Fixpoint allBase58 (s : string) : bool :=
  match s with
  | EmptyString => true
  | String c rest => isBase58Char c && allBase58 rest
  end.

(** [BASE58_REGEX.test(s)]: the whole string is 32 to 44 characters of
    the class. *)
Definition BASE58_REGEX_test (s : string) : bool :=
  (32 <=? String.length s)%nat && (String.length s <=? 44)%nat && allBase58 s.

(** [pubkeys.add(x)] on the [Set] of strings, kept in insertion order. *)
Definition addToSet (x : string) (s : list string) : list string :=
  if decide (x ∈ s) then s else s ++ [x].

(** The inner function [traverse], with the set it fills passed along. *)
Fixpoint traverse (obj : Value) (pubkeys : list string) : list string :=
  match obj with
  | VStr s => if BASE58_REGEX_test s then addToSet s pubkeys else pubkeys
  | VArr items => fold_left (λ acc item, traverse item acc) items pubkeys
  | VObj props => fold_left (λ acc kv, traverse kv.2 acc) props pubkeys
  | _ => pubkeys
  end.

Definition extractPubkeys (data : Value) : list string := traverse data [].

(** The string leaves of a tree, in the order of the traversal. *)
Fixpoint stringLeaves (data : Value) : list string :=
  match data with
  | VStr s => [s]
  | VArr items => concat (List.map stringLeaves items)
  | VObj props => concat (List.map (λ kv, stringLeaves kv.2) props)
  | _ => []
  end.

(** What a pass of the traversal adds to the set it is given. *)
Definition collects {A} (f : A → list string → list string)
    (leaves : A → list string) (x : A) : Prop :=
  ∀ acc, NoDup acc →
    NoDup (f x acc)
    ∧ ∀ s, s ∈ f x acc ↔ s ∈ acc ∨ (s ∈ leaves x ∧ BASE58_REGEX_test s = true).

(** Whether the last character of a string is a closing parenthesis. *)
Fixpoint endsWithClose (s : string) : bool :=
  match s with
  | EmptyString => false
  | String c EmptyString => bool_decide (c = ")"%char)
  | String _ rest => endsWithClose rest
  end.

(** ** The enrichment step of [useAccountData] *)

Section EnrichRaw.
Context {World : Type}.
Variable atob : string → option string.
Variable bs58_encode : list byte → string.
Variable fetchAccountInfo :
  list string → World → option (list (option AccountInfo)) * World.
Variable fetch : string → World → FetchResult * World.
Variable getLabel : option (JsKey → World → option string * World).

#[local] Existing Instance Eff_ret.
#[local] Existing Instance Eff_bind.

(** What [fetchAccountData] does with the decoded tree [raw]: extract
    the pubkeys, build the enrichment map, inject it.  The result is the
    map kept in the state of the hook and the [enriched] tree. *)
Definition enrichRaw (raw : Value) : Eff (gmap JsKey Value * Value) :=
  let pubkeys := extractPubkeys raw in
  enrichMap ← fetchEnrichmentMap atob bs58_encode fetchAccountInfo fetch getLabel pubkeys;
  let enriched := injectEnrichment raw enrichMap in
  mret (enrichMap, enriched).
End EnrichRaw.

(** ** Vocabulary for the calls of the builder *)

(** The chunks asked of the account-info service, in the order of the
    calls. *)
Definition accountInfoCalls (events : list Event) : list (list string) :=
  omap (λ e, match e with EvAccountInfo chunk _ => Some chunk | _ => None end) events.

(** The addresses requested from the metadata endpoint. *)
Definition fetchCalls (events : list Event) : list string :=
  omap (λ e, match e with EvFetch url _ => Some url | _ => None end) events.

(** The keys passed to the label lookup. *)
Definition labelCalls (events : list Event) : list JsKey :=
  omap (λ e, match e with EvLabel pubkey _ => Some pubkey | _ => None end) events.

(** A computation that appends to the record of calls only events of
    one sort. *)
Definition addsOnly {World A : Type} (P : Event → Prop) (m : @Eff World A) : Prop :=
  ∀ env, ∃ ext, trace (m env).2 = trace env ++ ext ∧ Forall P ext.

(** The set of mints agrees with the accounts collected so far. *)
Definition mintsCollected (scan : ChunkScan) : Prop :=
  NoDup (uniqueMints scan)
  ∧ (∀ k, k ∈ uniqueMints scan ↔
          (∃ ta, ta ∈ tokenAccounts scan ∧ k = Some (ta_mint ta))
          ∨ k ∈ mintAccounts scan)
  ∧ (length (uniqueMints scan)
     ≤ length (tokenAccounts scan) + length (mintAccounts scan))%nat.

(** ** Reading an amount text back *)

(** The text without its commas. *)
Fixpoint removeCommas (s : string) : string :=
  match s with
  | EmptyString => EmptyString
  | String c rest =>
      if bool_decide (c = ","%char) then removeCommas rest
      else String c (removeCommas rest)
  end.

(** The amount in base units that a text without commas denotes at a
    given number of decimals: the digits before the point, then the
    digits after it filled up with zeros. *)
Definition readAmount (decimals : nat) (text : string) : N :=
  match indexOfChar "."%char text with
  | Some i =>
      let intPart := String.substring 0 i text in
      let fracPart := String.substring (i + 1) (String.length text - (i + 1)) text in
      (parseDecimal 0 intPart * 10 ^ N.of_nat decimals
       + parseDecimal 0
           (fracPart +:+ repeatChar (decimals - String.length fracPart) "0"))%N
  | None => (parseDecimal 0 text * 10 ^ N.of_nat decimals)%N
  end.

(** ** The viewer of enriched trees *)

(** [typeof value === OBJECT]. *)
Definition typeofObject (value : Value) : bool :=
  match value with
  | VNull | VArr _ | VObj _ => true
  | _ => false
  end.

(** [key in value] for a value whose type is object and that is not
    null; an array has no property of that name. *)
Definition hasProp (key : string) (value : Value) : bool :=
  match value with
  | VObj props => bool_decide (is_Some (lookupProp key props))
  | _ => false
  end.

(** The test [is] of [enrichedPubkeyDataType]: the values that the
    viewer renders as a badge. *)
Definition enrichedPubkeyDataType_is (value : Value) : bool :=
  truthy value && typeofObject value && hasProp "__isEnriched" value
  && match getProp "__isEnriched" value with
     | VBool true => true
     | _ => false
     end.

(** [handleCopy]: the value handed to [copy].  [safeStringify] is the
    viewer's own rendering of a value as text. *)
Definition handleCopy (safeStringify : Value → string) (value : Value) : Value :=
  if truthy value && typeofObject value && hasProp "__isEnriched" value
     && truthy (getProp "__isEnriched" value)
  then getProp "pubkey" value
  else VStr (safeStringify value).

(** ** Pages of the account list *)

Definition ITEMS_PER_PAGE : Z := 50.

(** A relative index of [Array.prototype.slice] brought into the bounds
    of the array: a negative index counts from the end. *)
Definition sliceIndex (len : nat) (i : Z) : nat :=
  if decide (i < 0) then Z.to_nat (Z.max (Z.of_nat len + i) 0)
  else Nat.min (Z.to_nat i) len.

(** [l.slice(start, stop)] for integer arguments. *)
Definition jsSlice {A} (l : list A) (start stop : Z) : list A :=
  let from := sliceIndex (length l) start in
  let to := sliceIndex (length l) stop in
  take (to - from) (drop from l).

(** [l.slice(start)]: the end is the length of the array. *)
Definition jsSliceFrom {A} (l : list A) (start : Z) : list A :=
  jsSlice l start (Z.of_nat (length l)).

(** [Math.ceil(n / d)] for integers with a positive [d]. *)
Definition ceilDiv (n d : Z) : Z := - ((- n) / d).

(** [Math.ceil(sortedAccounts.length / ITEMS_PER_PAGE) || 1]. *)
Definition totalPages {A} (sortedAccounts : list A) : Z :=
  let pages := ceilDiv (Z.of_nat (length sortedAccounts)) ITEMS_PER_PAGE in
  if decide (pages = 0) then 1 else pages.

Definition paginatedAccounts {A} (sortedAccounts : list A) (currentPage : Z) : list A :=
  let start := (currentPage - 1) * ITEMS_PER_PAGE in
  jsSlice sortedAccounts start (start + ITEMS_PER_PAGE).

(** [handlePageChange]: the value of [currentPage] after the call. *)
Definition handlePageChange (totalPages page currentPage : Z) : Z :=
  if decide (page >= 1 ∧ page <= totalPages) then page else currentPage.

Record AccountMeta : Type := {
  am_pubkey : string;
  am_label : option string;
  am_isFavorite : bool;
  am_isLabelDefault : option bool;
}.

(** The comparator handed to [sort].  [toLowerCase] and [localeCompare]
    are the platform's. *)
Definition compareAccounts (toLowerCase : string → string)
    (localeCompare : string → string → Z) (a b : AccountMeta) : Z :=
  if am_isFavorite a && negb (am_isFavorite b) then -1
  else if negb (am_isFavorite a) && am_isFavorite b then 1
  else
    let aKey := toLowerCase (orString (am_label a) (am_pubkey a)) in
    let bKey := toLowerCase (orString (am_label b) (am_pubkey b)) in
    localeCompare aKey bKey.

(** What [sort] leaves behind: no element is placed before one that
    the comparator puts strictly first. *)
Definition orderedBy {A} (compare : A → A → Z) (l : list A) : Prop :=
  ∀ i j a b, (i < j)%nat → l !! i = Some a → l !! j = Some b → compare a b <= 0.

(** [l.findIndex(p)]; [None] stands for -1. *)
Fixpoint findIndex {A} (p : A → bool) (l : list A) : option nat :=
  match l with
  | [] => None
  | x :: rest => if p x then Some O else S <$> findIndex p rest
  end.

Definition favoritesEndIndex (page : list AccountMeta) : Z :=
  let pageHasFavoritesAtStart :=
    (0 <? length page)%nat && from_option am_isFavorite false (page !! 0%nat) in
  if negb pageHasFavoritesAtStart then -1
  else
    match findIndex (λ a, negb (am_isFavorite a)) page with
    | None => Z.of_nat (length page)
    | Some idx => Z.of_nat idx
    end.

(** The two sections [favs] and [rest] that the account list renders. *)
Definition favoritesSplit (accounts : list AccountMeta) (favoritesEndIndex : Z)
  : list AccountMeta * list AccountMeta :=
  let hasFavoritesSection := bool_decide (favoritesEndIndex > 0) in
  let favs := if hasFavoritesSection then jsSlice accounts 0 favoritesEndIndex else [] in
  let rest := if hasFavoritesSection then jsSliceFrom accounts favoritesEndIndex
              else accounts in
  (favs, rest).

(** No favorite comes after an account that is not one. *)
Definition favoritesFirst (l : list AccountMeta) : Prop :=
  ∀ i j a b, (i < j)%nat → l !! i = Some a → l !! j = Some b →
    am_isFavorite a = false → am_isFavorite b = false.

(** The record that the scan files for a token account found at
    position [j] of a chunk. *)
Definition tokenAccountAt (atob : string → option string)
    (bs58_encode : list byte → string) (chunk : list string) (j : nat)
    (info : AccountInfo) : TokenAccountData :=
  let dataBuf := base64ToBytes atob (info_data info).1 in
  {| ta_pubkey := chunk !! j;
     ta_mint := bs58_encode (subarray 0 32 dataBuf);
     ta_amount := BN_le (subarray 64 72 dataBuf) |}.

(** The map holds for an address a token entry with a given mint and
    the balance text of a given amount. *)
Definition holdsTokenEntry (a mint : string) (amount : N)
    (m : gmap JsKey Value) : Prop :=
  ∃ v decimals,
    m !! Some a = Some v
    ∧ getProp "__type" v = VStr "token"
    ∧ getProp "pubkey" v = VStr a
    ∧ getProp "mint" v = VStr mint
    ∧ getProp "decimals" v = VNum (Z.of_nat decimals)
    ∧ getProp "balance" v = VStr (formatBalance amount decimals).

(** The map holds for an address a mint entry: a token entry whose mint
    is the address itself and that shows no balance. *)
Definition holdsMintEntry (a : string) (m : gmap JsKey Value) : Prop :=
  ∃ v,
    m !! Some a = Some v
    ∧ getProp "__type" v = VStr "token"
    ∧ getProp "pubkey" v = VStr a
    ∧ getProp "mint" v = VStr a
    ∧ getProp "balance" v = VUndefined.

(** The account-info service has answered an address, in a chunk of
    the input, with a blob that classifies as a token holding or as a
    mint record. *)
Definition answeredAsToken {World : Type} (atob : string → option string)
    (fetchAccountInfo : list string → World → option (list (option AccountInfo)) * World)
    (pubkeys : list string) (a : string) : Prop :=
  ∃ chunk w j info,
    chunk ∈ chunkBy 100 pubkeys ∧ chunk !! j = Some a
    ∧ chunkInfosOf chunk (fetchAccountInfo chunk w).1 !! j = Some (Some info)
    ∧ (classify (info_owner info) (base64ToBytes atob (info_data info).1)
         = TokenHolding
       ∨ classify (info_owner info) (base64ToBytes atob (info_data info).1)
         = MintRecord).

(** ** The sign-in gate *)

Definition ALLOWED_DOMAINS : list string := ["mrgn.group"; "0.xyz"].
Definition ALLOWED_EMAILS : list string := ["REDACTED_EMAIL_1"; "REDACTED_EMAIL_2"].

(** [s.split(sep)] for a one-character separator. *)
Fixpoint splitChar (sep : ascii) (s : string) : list string :=
  match s with
  | EmptyString => [EmptyString]
  | String c rest =>
      if bool_decide (c = sep) then EmptyString :: splitChar sep rest
      else
        match splitChar sep rest with
        | piece :: more => String c piece :: more
        | [] => [String c EmptyString]
        end
  end.

(** The test on the lower-cased email: the callback lets the user in
    exactly when this holds. *)
Definition emailAllowed (email : string) : bool :=
  let domain := splitChar "@" email !! 1%nat in
  let isAllowedDomain :=
    truthyStr domain && bool_decide (default EmptyString domain ∈ ALLOWED_DOMAINS) in
  let isAllowedEmail := bool_decide (email ∈ ALLOWED_EMAILS) in
  negb (negb isAllowedDomain && negb isAllowedEmail).

(** The whole test, from [user.email]; [toLowerCase] is the platform's. *)
Definition userAllowed (toLowerCase : string → string) (userEmail : option string)
  : bool :=
  emailAllowed (toLowerCase (orString userEmail EmptyString)).

(** ** The wrapped form of a leaf, by the shape of the string *)

(** No character of the string satisfies [p]. *)
Fixpoint noneOf (p : ascii → bool) (s : string) : bool :=
  match s with
  | EmptyString => true
  | String c rest => negb (p c) && noneOf p rest
  end.

(** The last character of the string satisfies [p]. *)
Fixpoint endsWith (p : ascii → bool) (s : string) : bool :=
  match s with
  | EmptyString => false
  | String c EmptyString => p c
  | String _ rest => endsWith p rest
  end.

Definition isOpenParen (c : ascii) : bool := bool_decide (c = "("%char).

(** The string ends in a closing parenthesis, and [inner] is the text
    between that parenthesis and the first opening parenthesis of the
    last line of the string.  [head] is the text up to and including
    the last line terminator, [before] what the last line has in front
    of its first opening parenthesis. *)
Definition wrapsKey (s inner : string) : Prop :=
  ∃ head before,
    s = head +:+ before +:+ "(" +:+ inner +:+ ")"
    ∧ (head = EmptyString ∨ endsWith isLineTerminator head = true)
    ∧ noneOf isLineTerminator before = true
    ∧ noneOf isOpenParen before = true
    ∧ noneOf isLineTerminator inner = true.

(** ** The answers of the metadata endpoint *)

(** What the endpoint itself answers to a list of requests made one
    after the other from a given world, and the world they leave. *)
Fixpoint fetchAnswers {World : Type} (fetch : string → World → FetchResult * World)
    (urls : list string) (w : World) : list FetchResult * World :=
  match urls with
  | [] => ([], w)
  | url :: rest =>
      let '(r, w') := fetch url w in
      let '(rs, w'') := fetchAnswers fetch rest w' in
      (r :: rs, w'')
  end.

(** ** The metadata that an annotation shows *)

(** What an annotation shows for its mint, given the entry that the
    endpoint has for the mint, if it has one. *)
Definition expectedInfo (mint : string) (om : option TokenMeta) : MintInfo :=
  match om with
  | Some meta => metaInfo (Some mint) meta
  | None => defaultInfo (Some mint)
  end.

(** The map holds for an address a token entry with a given mint that
    shows the fields of [info]. *)
Definition holdsAnnotation (a mint : string) (info : MintInfo)
    (m : gmap JsKey Value) : Prop :=
  ∃ v,
    m !! Some a = Some v
    ∧ getProp "__type" v = VStr "token"
    ∧ getProp "mint" v = VStr mint
    ∧ getProp "symbol" v = VStr (mi_symbol info)
    ∧ getProp "decimals" v = VNum (Z.of_nat (mi_decimals info))
    ∧ getProp "name" v = optStr (mi_name info)
    ∧ getProp "logoURI" v = optStr (mi_logoURI info).

(** ** Sample data *)

(** *** Stand-ins for the platform in the examples *)

(** Base-64 alphabet value of a character. *)
Definition base64Value (c : ascii) : option N :=
  let n := N_of_ascii c in
  if ((65 <=? n) && (n <=? 90))%N then Some (n - 65)%N
  else if ((97 <=? n) && (n <=? 122))%N then Some (n - 71)%N
  else if ((48 <=? n) && (n <=? 57))%N then Some (n + 4)%N
  else if (n =? 43)%N then Some 62%N
  else if (n =? 47)%N then Some 63%N
  else None.

Definition isAsciiWhitespace (c : ascii) : bool :=
  let n := N_of_ascii c in
  ((n =? 9) || (n =? 10) || (n =? 12) || (n =? 13) || (n =? 32))%N.

Fixpoint decodeSextets (l : list N) : list ascii :=
  match l with
  | a :: b :: c :: d :: rest =>
      let n := (a * 262144 + b * 4096 + c * 64 + d)%N in
      ascii_of_N (n / 65536) :: ascii_of_N ((n / 256) mod 256)
        :: ascii_of_N (n mod 256) :: decodeSextets rest
  | [a; b; c] =>
      let n := (a * 4096 + b * 64 + c)%N in
      [ascii_of_N (n / 1024); ascii_of_N ((n / 4) mod 256)]
  | [a; b] => [ascii_of_N ((a * 64 + b) / 16)]
  | _ => []
  end.

Definition stripPadding (chars : list ascii) : list ascii :=
  if decide (length chars mod 4 = 0)%nat then
    match List.rev chars with
    | "="%char :: "="%char :: rest => List.rev rest
    | "="%char :: rest => List.rev rest
    | _ => chars
    end
  else chars.

(** A forgiving base-64 decoder in the manner of [atob]: [None] where
    [atob] throws. *)
Definition sampleAtob (s : string) : option string :=
  let chars :=
    List.filter (λ c, negb (isAsciiWhitespace c)) (String.list_ascii_of_string s) in
  let chars := stripPadding chars in
  if decide (length chars mod 4 = 1)%nat then None
  else
    sextets ← mapM base64Value chars;
    Some (String.string_of_list_ascii (decodeSextets sextets)).

Definition base58Alphabet : string :=
  "123456789ABCDEFGHJKLMNPQRSTUVWXYZabcdefghijkmnopqrstuvwxyz".

Fixpoint base58Digits (fuel : nat) (n : N) (acc : string) : string :=
  match fuel with
  | O => acc
  | S fuel' =>
      if (n =? 0)%N then acc
      else
        let c := default "1"%char (String.get (N.to_nat (n mod 58)) base58Alphabet) in
        base58Digits fuel' (n / 58)%N (String c acc)
  end.

Fixpoint leadingZeros (bytes : list byte) : nat :=
  match bytes with
  | b :: rest => if (Byte.to_N b =? 0)%N then S (leadingZeros rest) else O
  | [] => O
  end.

(** A base-58 encoder in the manner of [bs58.encode]. *)
Definition sampleBs58 (bytes : list byte) : string :=
  let n := foldl (λ acc b, (256 * acc + Byte.to_N b)%N) 0%N bytes in
  repeatChar (leadingZeros bytes) "1" +:+ base58Digits (8 * length bytes) n EmptyString.

(** *** A sample world *)

Definition wsolMint : string := "So11111111111111111111111111111111111111112".
Definition holderAddress : string := "4wBqpZM9xaSheZzJSMawUKKwhdpChKbZ5eu5ky4Vigw".
Definition brokenAddress : string := "Broken1111111111111111111111111111111111111".
Definition treasuryAddress : string := "Treasury11111111111111111111111111111111111".

(** A 165-byte holding of 250000000 units of [wsolMint]. *)
Definition holdingBlob : string :=
  "BpuIV/6rgYT7aH9jRhjANdrEOdwa6ztVmKDwAAAAAAEBAgMEBQYHCAkKCwwNDg8QERITFBUWFxgZGhscHR4fIICy5g4AAAAAAAAAAAAAAAAAAAAAAAAAAAAAAAAAAAAAAAAAAAAAAAAAAAAAAAAAAAAAAAAAAAAAAAAAAAAAAAAAAAAAAAAAAAAAAAAAAAAAAAAAAAAAAAAAAAAAAAAAAAAAAAAA".

(** An 82-byte mint record. *)
Definition mintBlob : string :=
  "AQAAAAAAAAAAAAAAAAAAAAAAAAAAAAAAAAAAAAAAAAAAAAAAAAAAAAAAAAAAAAAAAAAAAAAAAAAAAAAAAAAAAAAAAAAAAAAAAAAAAAAAAAAAAA==".

Definition sampleAccounts : list (string * AccountInfo) :=
  [(holderAddress,
    {| info_data := (holdingBlob, "base64"); info_owner := TOKEN_PROGRAM_ID |});
   (wsolMint,
    {| info_data := (mintBlob, "base64"); info_owner := TOKEN_PROGRAM_ID |});
   (brokenAddress,
    {| info_data := ("!!!", "base64"); info_owner := TOKEN_2022_PROGRAM_ID |})].

Definition accountOf (accounts : list (string * AccountInfo)) (address : string)
  : option AccountInfo :=
  snd <$> List.find (λ entry, bool_decide (entry.1 = address)) accounts.

(** The sample collaborators do not change the world, which is [unit]. *)
Definition sampleFetchAccountInfo (chunk : list string) (w : unit)
  : option (list (option AccountInfo)) * unit :=
  (Some (accountOf sampleAccounts <$> chunk), w).

Definition sampleJson (symbol : string) : MetadataJson :=
  {| json_success := true;
     json_data :=
       Some {[ wsolMint := {| meta_symbol := Some symbol;
                              meta_decimals := Some 9%nat;
                              meta_name := Some "Wrapped SOL" |} ]} |}.

Definition sampleFetch (url : string) (w : unit) : FetchResult * unit :=
  (FetchResponse true (Some (sampleJson "SOL")), w).

Definition sampleGetLabel (pubkey : JsKey) (w : unit) : option string * unit :=
  (if decide (pubkey = Some treasuryAddress) then Some "Treasury" else None, w).

Definition sampleEnv : @Env unit := {| world := (); trace := [] |}.

Definition samplePubkeys : list string :=
  [holderAddress; wsolMint; brokenAddress; treasuryAddress].

(** The sample run of the builder. *)
Definition sampleRun : gmap JsKey Value * @Env unit :=
  fetchEnrichmentMap sampleAtob sampleBs58 sampleFetchAccountInfo sampleFetch
    (Some sampleGetLabel) samplePubkeys sampleEnv.

(** A metadata service that answers with an empty symbol. *)
Definition blankSymbolFetch (url : string) (w : unit) : FetchResult * unit :=
  (FetchResponse true (Some (sampleJson EmptyString)), w).

(** A label lookup that answers every address with the empty string. *)
Definition blankGetLabel (pubkey : JsKey) (w : unit) : option string * unit :=
  (Some EmptyString, w).

(** An account-info service that answers with one entry more than it
    was asked for. *)
Definition overlongFetchAccountInfo (chunk : list string) (w : unit)
  : option (list (option AccountInfo)) * unit :=
  (Some ((accountOf sampleAccounts <$> chunk) ++ [accountOf sampleAccounts wsolMint]), w).

(** A map with one labeled address. *)
Definition sampleMap : gmap JsKey Value :=
  {[ Some wsolMint := labeledEntry wsolMint "Treasury" ]}.

Definition sampleTree : Value :=
  VObj [("owner", VStr wsolMint); ("amount", VNum 5);
        ("tags", VArr [VStr "plain"; VNull; VBool true])].

(** A string in the pre-formatted form, the address in parentheses at
    its end. *)
Definition legacyLeaf : Value :=
  VStr "Vault (So11111111111111111111111111111111111111112)".

(** A decoded account as the hook receives it: three addresses among
    other fields. *)
Definition sampleRaw : Value :=
  VObj [("vault", VStr holderAddress); ("mint", VStr wsolMint);
        ("admin", VStr treasuryAddress); ("fee", VNum 30);
        ("tags", VArr [VStr "plain"; VNull; VStr wsolMint])].

(** An older snapshot of the same account. *)
Definition sampleHistoric : Value :=
  VObj [("vault", VStr holderAddress); ("mint", VStr wsolMint);
        ("admin", VStr brokenAddress); ("fee", VNum 25);
        ("tags", VArr [])].

(** The sample run of the enrichment step of the hook. *)
Definition sampleEnrichRaw : (gmap JsKey Value * Value) * @Env unit :=
  enrichRaw sampleAtob sampleBs58 sampleFetchAccountInfo sampleFetch
    (Some sampleGetLabel) sampleRaw sampleEnv.

(** An account-info service whose every request is rejected. *)
Definition failingFetchAccountInfo (chunk : list string) (w : unit)
  : option (list (option AccountInfo)) * unit :=
  (None, w).

(** The run with the account-info service that rejects. *)
Definition failingRun : gmap JsKey Value * @Env unit :=
  fetchEnrichmentMap sampleAtob sampleBs58 failingFetchAccountInfo sampleFetch
    (Some sampleGetLabel) samplePubkeys sampleEnv.

(** A comparison of strings by code units, standing in for
    [localeCompare] in the examples. *)
Definition sampleLocaleCompare (a b : string) : Z :=
  match String.compare a b with
  | Lt => -1
  | Eq => 0
  | Gt => 1
  end.

(** Three accounts in the order of the page: two favorites, then one
    account that is not. *)
Definition sampleSortedAccounts : list AccountMeta :=
  [{| am_pubkey := wsolMint; am_label := None;
      am_isFavorite := true; am_isLabelDefault := None |};
   {| am_pubkey := treasuryAddress; am_label := Some "treasury";
      am_isFavorite := true; am_isLabelDefault := Some false |};
   {| am_pubkey := holderAddress; am_label := Some "holder";
      am_isFavorite := false; am_isLabelDefault := Some true |}].

(** The blob of the sample mint, as the account-info service answers it. *)
Definition mintRecordInfo : AccountInfo :=
  {| info_data := (mintBlob, "base64"); info_owner := TOKEN_PROGRAM_ID |}.

(** *** A world that counts the label lookups *)

(** The sample services over a world that is a counter. *)
Definition countingFetchAccountInfo (chunk : list string) (w : nat)
  : option (list (option AccountInfo)) * nat :=
  (Some (accountOf sampleAccounts <$> chunk), w).

Definition countingFetch (url : string) (w : nat) : FetchResult * nat :=
  (FetchResponse true (Some (sampleJson "SOL")), w).

(** A label lookup that answers its first call with one label and
    every later call with another. *)
Definition countingGetLabel (pubkey : JsKey) (w : nat) : option string * nat :=
  (Some (if (w =? 0)%nat then "early" else "late"), S w).

(** The run in which the label of the holder changes between the
    creation of its entry and the closing pass. *)
Definition relabelRun : gmap JsKey Value * @Env nat :=
  fetchEnrichmentMap sampleAtob sampleBs58 countingFetchAccountInfo countingFetch
    (Some countingGetLabel) [holderAddress] {| world := 0%nat; trace := [] |}.

(** The run with the label lookup that answers the empty string, on an
    address that holds a token account. *)
Definition blankLabelTokenRun : gmap JsKey Value * @Env unit :=
  fetchEnrichmentMap sampleAtob sampleBs58 sampleFetchAccountInfo sampleFetch
    (Some blankGetLabel) [holderAddress] sampleEnv.

(** ** Induction over value trees *)

Section ValueInduction.
Variable P : Value → Prop.
Hypothesis Hundef : P VUndefined.
Hypothesis Hnull : P VNull.
Hypothesis Hbool : ∀ b, P (VBool b).
Hypothesis Hnum : ∀ n, P (VNum n).
Hypothesis Hstr : ∀ s, P (VStr s).
Hypothesis Harr : ∀ items, Forall P items → P (VArr items).
Hypothesis Hobj : ∀ props, Forall (λ kv, P kv.2) props → P (VObj props).

Fixpoint Value_tree_ind (data : Value) : P data :=
  match data with
  | VUndefined => Hundef
  | VNull => Hnull
  | VBool b => Hbool b
  | VNum n => Hnum n
  | VStr s => Hstr s
  | VArr items =>
      Harr items
        ((fix go (l : list Value) : Forall P l :=
            match l with
            | [] => @List.Forall_nil _ P
            | x :: r => @List.Forall_cons _ P x r (Value_tree_ind x) (go r)
            end) items)
  | VObj props =>
      Hobj props
        ((fix go (l : list (string * Value)) : Forall (λ kv, P kv.2) l :=
            match l with
            | [] => @List.Forall_nil _ _
            | kv :: r => @List.Forall_cons _ (λ kv, P kv.2) kv r (Value_tree_ind kv.2) (go r)
            end) props)
  end.
End ValueInduction.

Definition holdingInfo : AccountInfo :=
  {| info_data := (holdingBlob, "base64"); info_owner := TOKEN_PROGRAM_ID |}.

Definition emptyScan : ChunkScan :=
  {| tokenAccounts := []; mintAccounts := []; uniqueMints := [] |}.


(** The run with the metadata service that answers an empty symbol. *)
Definition blankSymbolRun : gmap JsKey Value * @Env unit :=
  fetchEnrichmentMap sampleAtob sampleBs58 sampleFetchAccountInfo blankSymbolFetch
    None [wsolMint] sampleEnv.

(** The run with the label lookup that answers the empty string. *)
Definition blankLabelRun : gmap JsKey Value * @Env unit :=
  fetchEnrichmentMap sampleAtob sampleBs58 sampleFetchAccountInfo sampleFetch
    (Some blankGetLabel) [treasuryAddress] sampleEnv.

(** The run with the account-info service that answers one entry too
    many. *)
Definition overlongRun : gmap JsKey Value * @Env unit :=
  fetchEnrichmentMap sampleAtob sampleBs58 overlongFetchAccountInfo sampleFetch
    None [holderAddress] sampleEnv.


(** * Properties *)

(** ** Worked examples *)

Example formatBalance_two_decimals : formatBalance 1234567 2 = "12,345.67".
Proof. by vm_compute. Qed.

Example formatBalance_no_decimals : formatBalance 1000000 0 = "1,000,000".
Proof. by vm_compute. Qed.

Example formatBalance_small : formatBalance 100 3 = "0.1".
Proof. by vm_compute. Qed.

Example formatBalance_whole : formatBalance 5000000 6 = "5".
Proof. by vm_compute. Qed.

Example formatBalance_u64_max :
  formatBalance 18446744073709551615 0 = "18,446,744,073,709,551,615".
Proof. by vm_compute. Qed.

Example specFormat_u64_max :
  specFormat 18446744073709551615 9 = "18,446,744,073.709551615".
Proof. by vm_compute. Qed.

Example insertCommas_mixed :
  insertCommas None "ab1234 5678901x 1234_" = "ab1,234 5,678,901x 1,234_".
Proof. by vm_compute. Qed.

Example matchWrapped_suffix : matchWrapped "Vault (abc)" = Some "abc".
Proof. reflexivity. Qed.

Example matchWrapped_leftmost : matchWrapped "a (b) (c)" = Some "b) (c".
Proof. reflexivity. Qed.

Example matchWrapped_not_at_end : matchWrapped "(abc) tail" = None.
Proof. reflexivity. Qed.

Example stripEnrichment_labeled :
  stripEnrichment (labeledEntry "K" "L") = VStr "K".
Proof. reflexivity. Qed.

Example sampleAtob_padded : sampleAtob "aGVsbG8=" = Some "hello".
Proof. by vm_compute. Qed.

Example sampleAtob_invalid : sampleAtob "!!!" = None.
Proof. by vm_compute. Qed.

Example sampleBlobs_lengths :
  length (base64ToBytes sampleAtob holdingBlob) = 165%nat
  ∧ length (base64ToBytes sampleAtob mintBlob) = 82%nat.
Proof. by vm_compute. Qed.

Example sampleBs58_mint :
  sampleBs58 (take 32 (base64ToBytes sampleAtob holdingBlob)) = wsolMint.
Proof. by vm_compute. Qed.

(** The sample run: the holder of 250000000 units of a mint with nine
    decimals shows a balance of 0.25; the address without an account but
    with a label gets a labeled entry; the address whose blob does not
    decode gets nothing. *)
Example sampleRun_entries :
  getProp "balance" <$> sampleRun.1 !! Some holderAddress = Some (VStr "0.25")
  ∧ getProp "symbol" <$> sampleRun.1 !! Some wsolMint = Some (VStr "SOL")
  ∧ sampleRun.1 !! Some treasuryAddress
    = Some (labeledEntry treasuryAddress "Treasury")
  ∧ sampleRun.1 !! Some brokenAddress = None.
Proof. by vm_compute. Qed.

(** ** Inject and strip *)

Lemma lookupProp_map (f : Value → Value) key props :
  lookupProp key (List.map (λ kv, (kv.1, f kv.2)) props) = f <$> lookupProp key props.
Proof.
  induction props as [|[k v] props IH]; simpl; [done|].
  destruct (decide (k = key)); simpl; done.
Qed.

Lemma strip_entry map k a :
  carriesOwnKey map → map !! Some k = Some a → stripEnrichment a = VStr k.
Proof.
  intros Hwf Hk. destruct (Hwf k a Hk) as (props & -> & He & Hp).
  simpl. unfold isEnrichedProps. rewrite He, Hp.
  rewrite bool_decide_eq_true_2 by eauto. done.
Qed.

Lemma injectString_cases map s :
  injectString s map = VStr s
  ∨ ∃ k a, map !! Some k = Some a ∧ injectString s map = a ∧ resolveLeaf map s = k.
Proof.
  unfold injectString, resolveLeaf.
  destruct (map !! Some s) as [a|] eqn:Hs; [right; eauto|].
  destruct (matchWrapped s) as [inner|]; [|by left].
  destruct (map !! Some inner) as [a|] eqn:Hi; [|by left].
  right. exists inner, a. rewrite decide_True by eauto. done.
Qed.

Lemma injectString_unmatched map s :
  injectString s map = VStr s → carriesOwnKey map → resolveLeaf map s = s.
Proof.
  intros Heq Hwf. unfold injectString, resolveLeaf in *.
  destruct (map !! Some s) as [a|] eqn:Hs; [done|].
  destruct (matchWrapped s) as [inner|]; [|done].
  destruct (map !! Some inner) as [a|] eqn:Hi.
  - destruct (Hwf _ _ Hi) as (props & -> & _). done.
  - rewrite decide_False; [done|]. by intros [? ?].
Qed.

Lemma inject_is_true map data :
  carriesOwnKey map →
  injectEnrichment data map = VBool true → data = VBool true.
Proof.
  intros Hwf. destruct data; simpl; try done.
  destruct (injectString_cases map s) as [->|(k & a & Hk & -> & _)]; [done|].
  destruct (Hwf _ _ Hk) as (props & -> & _). done.
Qed.

Lemma isEnrichedProps_inject map props :
  carriesOwnKey map →
  isEnrichedProps (List.map (λ kv, (kv.1, injectEnrichment kv.2 map)) props)
  = isEnrichedProps props.
Proof.
  intros Hwf. unfold isEnrichedProps.
  rewrite !(lookupProp_map (λ v, injectEnrichment v map)).
  destruct (lookupProp "__isEnriched" props) as [v|] eqn:He; simpl; [|done].
  assert (Hsome : bool_decide (is_Some ((λ v, injectEnrichment v map) <$> lookupProp "pubkey" props))
                  = bool_decide (is_Some (lookupProp "pubkey" props))).
  { apply bool_decide_ext. rewrite fmap_is_Some. done. }
  destruct (injectEnrichment v map) as [| |[]| | | |] eqn:Hv.
  all: try (destruct v as [| |[]| | | |]; try done;
            apply (inject_is_true _ _ Hwf) in Hv; done).
Qed.

Lemma forallb_true_Forall {A} (f : A → bool) (l : list A) :
  forallb f l = true → Forall (λ x, f x = true) l.
Proof.
  induction l as [|x l IH]; simpl; [constructor|].
  intros [Hx Hl]%andb_prop. constructor; auto.
Qed.

(** Two maps over a list agree when they agree on every element that
    satisfies a guard which holds throughout the list. *)
Lemma map_agree_guarded {A B} (f g : A → B) (guard : A → bool) (l : list A) :
  Forall (λ x, guard x = true → f x = g x) l →
  forallb guard l = true →
  List.map f l = List.map g l.
Proof.
  intros HF Hg. apply forallb_true_Forall in Hg.
  induction HF as [|x l Hx _ IH]; simpl; [done|].
  apply Forall_cons in Hg as [Hgx Hgl]. f_equal; auto.
Qed.

Lemma strip_inject_resolve map data :
  carriesOwnKey map → annotationFree data = true →
  stripEnrichment (injectEnrichment data map) = mapStrings (resolveLeaf map) data.
Proof.
  intros Hwf. induction data as [| | | |s|items IH|props IH] using Value_tree_ind;
    simpl; intros Hfree; try done.
  - destruct (injectString_cases map s) as [Heq|(k & a & Hk & -> & ->)].
    + rewrite Heq. simpl. by rewrite (injectString_unmatched map s).
    + by apply strip_entry with map.
  - f_equal. rewrite List.map_map.
    by apply map_agree_guarded with annotationFree.
  - apply andb_prop in Hfree as [Hne Hfree]. apply negb_true_iff in Hne.
    rewrite isEnrichedProps_inject, Hne by done.
    f_equal. rewrite List.map_map.
    apply map_agree_guarded with (λ kv, annotationFree kv.2); [|done].
    eapply Forall_impl; [exact IH|]. simpl. intros [k v] Hv Hg. f_equal. auto.
Qed.

Lemma resolveLeaf_not_legacy map s :
  isLegacyLeaf map s = false → resolveLeaf map s = s.
Proof.
  unfold isLegacyLeaf, resolveLeaf.
  destruct (map !! Some s) as [a|] eqn:Hs; [done|].
  rewrite bool_decide_eq_true_2 by done. simpl.
  destruct (matchWrapped s) as [inner|]; simpl; [|done].
  intros Hb. apply bool_decide_eq_false in Hb. by rewrite decide_False.
Qed.

Lemma mapStrings_legacyFree map data :
  legacyFree map data = true → mapStrings (resolveLeaf map) data = data.
Proof.
  induction data as [| | | |s|items IH|props IH] using Value_tree_ind;
    simpl; intros Hfree; try done.
  - apply negb_true_iff in Hfree. by rewrite resolveLeaf_not_legacy.
  - f_equal. rewrite <- (List.map_id items) at 2.
    by apply map_agree_guarded with (legacyFree map).
  - f_equal. rewrite <- (List.map_id props) at 2.
    apply map_agree_guarded with (λ kv, legacyFree map kv.2); [|done].
    eapply Forall_impl; [exact IH|]. simpl. intros [k v] Hv Hg. f_equal. auto.
Qed.

Lemma inject_resolved map data :
  injectEnrichment (mapStrings (resolveLeaf map) data) map = injectEnrichment data map.
Proof.
  induction data as [| | | |s|items IH|props IH] using Value_tree_ind; simpl; try done.
  - unfold resolveLeaf, injectString.
    destruct (map !! Some s) as [a|] eqn:Hs; [by rewrite Hs|].
    destruct (matchWrapped s) as [inner|] eqn:Hw; [|by rewrite Hs, Hw].
    destruct (map !! Some inner) as [a|] eqn:Hi.
    + rewrite decide_True by eauto. by rewrite Hi.
    + rewrite decide_False by (by intros [? ?]). by rewrite Hs, Hw, Hi.
  - f_equal. rewrite List.map_map. apply List.map_ext_Forall. exact IH.
  - f_equal. rewrite List.map_map. apply List.map_ext_Forall.
    eapply Forall_impl; [exact IH|]. simpl. intros [k v] Hv. by f_equal.
Qed.

(** Injecting into an entry of the map changes it: the address in its
    [pubkey] field is itself replaced. *)
Lemma inject_entry_changes map k a :
  carriesOwnKey map → map !! Some k = Some a → injectEnrichment a map ≠ a.
Proof.
  intros Hwf Hk Heq. destruct (Hwf _ _ Hk) as (props & -> & _ & Hp).
  simpl in Heq. injection Heq as Heq.
  apply (f_equal (lookupProp "pubkey")) in Heq.
  rewrite (lookupProp_map (λ v, injectEnrichment v map)), Hp in Heq.
  simpl in Heq. unfold injectString in Heq. rewrite Hk in Heq. done.
Qed.

Lemma inject_stable_unchanged map data :
  carriesOwnKey map →
  injectEnrichment (injectEnrichment data map) map = injectEnrichment data map →
  injectEnrichment data map = data.
Proof.
  intros Hwf. induction data as [| | | |s|items IH|props IH] using Value_tree_ind;
    simpl; try done.
  - destruct (injectString_cases map s) as [Heq|(k & a & Hk & Ha & _)]; [done|].
    rewrite Ha. intros Hfix. by apply (inject_entry_changes map k a) in Hfix.
  - intros [= Hfix]. f_equal. rewrite List.map_map in Hfix.
    rewrite <- (List.map_id items) at 2. apply List.map_ext_Forall.
    clear -IH Hfix. induction IH as [|x l Hx _ IHl]; simpl in *; [constructor|].
    injection Hfix as Hfx Hfl. constructor; auto.
  - intros [= Hfix]. f_equal. rewrite List.map_map in Hfix.
    rewrite <- (List.map_id props) at 2. apply List.map_ext_Forall.
    clear -IH Hfix. induction IH as [|[k v] l Hx _ IHl]; simpl in *; [constructor|].
    injection Hfix as Hfx Hfl. constructor; auto. simpl. f_equal. auto.
Qed.

Lemma sampleMap_carriesOwnKey : carriesOwnKey sampleMap.
Proof.
  intros k a Hk. unfold sampleMap in Hk.
  apply lookup_singleton_Some in Hk as [[= <-] <-].
  eexists. split; [reflexivity|]. split; reflexivity.
Qed.

(** C1 fails as stated: a leaf that is not a key of the map, in a tree
    without annotation-shaped objects, does not come back unchanged. *)
Lemma strip_inject_legacy_leaf_lost :
  carriesOwnKey sampleMap
  ∧ annotationFree legacyLeaf = true
  ∧ sampleMap !! Some "Vault (So11111111111111111111111111111111111111112)" = None
  ∧ stripEnrichment (injectEnrichment legacyLeaf sampleMap) = VStr wsolMint
  ∧ stripEnrichment (injectEnrichment legacyLeaf sampleMap) ≠ legacyLeaf.
Proof.
  split; [apply sampleMap_carriesOwnKey|].
  split; [reflexivity|]. split; [by vm_compute|].
  split; [by vm_compute|]. vm_compute. discriminate.
Qed.

(** C3 (as amended).  A second inject leaves the result of the first
    alone exactly when the first changed nothing; once an address has
    been replaced, the second pass descends into the annotation and
    replaces the address held in its [pubkey] field.  What is stable is
    injection after stripping: for a tree without annotation-shaped
    objects, stripping the enriched tree and injecting again gives the
    enriched tree back. *)
Theorem inject_twice (map : gmap JsKey Value) (data : Value) :
  carriesOwnKey map →
  (injectEnrichment (injectEnrichment data map) map = injectEnrichment data map
     ↔ injectEnrichment data map = data)
  ∧ (annotationFree data = true →
       injectEnrichment (stripEnrichment (injectEnrichment data map)) map
       = injectEnrichment data map).
Proof.
  intros Hwf. split.
  - split; [by apply inject_stable_unchanged|]. intros Heq. by rewrite !Heq.
  - intros Hfree. rewrite strip_inject_resolve by done. apply inject_resolved.
Qed.

Lemma inject_twice_sample :
  injectEnrichment (stripEnrichment (injectEnrichment sampleTree sampleMap)) sampleMap
  = injectEnrichment sampleTree sampleMap.
Proof.
  destruct (inject_twice sampleMap sampleTree sampleMap_carriesOwnKey) as [_ Hstable].
  apply Hstable. by vm_compute.
Defined.

(** C3 fails as stated: injecting twice into a bare address differs
    from injecting once. *)
Lemma inject_not_idempotent :
  injectEnrichment (injectEnrichment (VStr wsolMint) sampleMap) sampleMap
  ≠ injectEnrichment (VStr wsolMint) sampleMap.
Proof. vm_compute. discriminate. Qed.

(** ** The classifier *)

Lemma byteNum_range b i : 0 ≤ byteNum b i < 256.
Proof.
  unfold byteNum. destruct (b !! i) as [x|]; simpl; [|lia].
  pose proof (Byte.to_N_bounded x). lia.
Qed.

Lemma toInt32_small z : - 2 ^ 31 ≤ z < 2 ^ 31 → toInt32 z = z.
Proof. intros Hz. unfold toInt32. rewrite Z.mod_small; lia. Qed.

(** Bits that do not overlap add up. *)
Lemma lor_disjoint k x h :
  0 ≤ k → 0 ≤ x < 2 ^ k → Z.lor x (h * 2 ^ k) = x + h * 2 ^ k.
Proof.
  intros Hk Hx.
  assert (Hland : Z.land x (h * 2 ^ k) = 0).
  { apply Z.bits_inj'. intros n Hn. rewrite Z.land_spec, Z.bits_0.
    destruct (Z.lt_ge_cases n k) as [Hlt|Hge].
    - rewrite Z.mul_pow2_bits_low by lia. apply andb_false_r.
    - rewrite <- (Z.mod_small x (2 ^ k)) by lia.
      rewrite Z.mod_pow2_bits_high by lia. done. }
  rewrite <- Z.lxor_lor by done. symmetry. by apply Z.add_nocarry_lxor.
Qed.

(** The bit operations of the source read the same word as the
    arithmetic little-endian reading, taken as a signed 32-bit value. *)
Lemma readOpt_toInt32 b : readOpt b = toInt32 (readU32LE b).
Proof.
  unfold readOpt, readU32LE.
  pose proof (byteNum_range b 0) as H0. pose proof (byteNum_range b 1) as H1.
  pose proof (byteNum_range b 2) as H2. pose proof (byteNum_range b 3) as H3.
  set (b0 := byteNum b 0) in *. set (b1 := byteNum b 1) in *.
  set (b2 := byteNum b 2) in *. set (b3 := byteNum b 3) in *.
  unfold jsOr, jsShl. rewrite !Z.shiftl_mul_pow2 by lia.
  rewrite (toInt32_small b0), (toInt32_small b1), (toInt32_small b2),
    (toInt32_small b3) by lia.
  rewrite (toInt32_small (b1 * 2 ^ 8)), (toInt32_small (b2 * 2 ^ 16)) by lia.
  rewrite (toInt32_small (b1 * 2 ^ 8)) by lia.
  rewrite (lor_disjoint 8 b0 b1) by lia.
  rewrite (toInt32_small (b0 + b1 * 2 ^ 8)) by lia.
  rewrite (toInt32_small (b2 * 2 ^ 16)) by lia.
  rewrite (lor_disjoint 16 (b0 + b1 * 2 ^ 8) b2) by lia.
  rewrite (toInt32_small (b0 + b1 * 2 ^ 8 + b2 * 2 ^ 16)) by lia.
  assert (Hhi : ∃ h, toInt32 (toInt32 (b3 * 2 ^ 24)) = h * 2 ^ 24
                     ∧ (b3 < 128 ∧ h = b3 ∨ 128 ≤ b3 ∧ h = b3 - 256)).
  { destruct (Z.lt_ge_cases b3 128).
    - exists b3. rewrite (toInt32_small (b3 * 2 ^ 24)) by lia.
      rewrite (toInt32_small (b3 * 2 ^ 24)) by lia. lia.
    - exists (b3 - 256).
      assert (toInt32 (b3 * 2 ^ 24) = (b3 - 256) * 2 ^ 24) as ->.
      { unfold toInt32. Z.div_mod_to_equations. lia. }
      rewrite toInt32_small by lia. lia. }
  destruct Hhi as (h & -> & Hh).
  rewrite (lor_disjoint 24 _ h) by lia.
  unfold toInt32. Z.div_mod_to_equations. lia.
Qed.

Lemma byteIsZero_spec b i : byteIsZero b i = true → byteNum b i = 0.
Proof.
  unfold byteIsZero, byteNum. destruct (b !! i) as [x|]; simpl; [|done].
  intros Hx%N.eqb_eq. lia.
Qed.

Lemma byteIsZero_in_range b i :
  (i < length b)%nat → byteNum b i = 0 → byteIsZero b i = true.
Proof.
  unfold byteIsZero, byteNum. intros Hi.
  destruct (b !! i) as [x|] eqn:Hx; simpl.
  - intros Hz. apply N.eqb_eq. lia.
  - apply lookup_ge_None in Hx. lia.
Qed.

Lemma isMintOption_spec b :
  (3 < length b)%nat → (isMintOption b = true ↔ mintDiscriminant b).
Proof.
  intros Hlen. unfold isMintOption, mintDiscriminant.
  rewrite readOpt_toInt32.
  pose proof (byteNum_range b 0) as H0. pose proof (byteNum_range b 1) as H1.
  pose proof (byteNum_range b 2) as H2. pose proof (byteNum_range b 3) as H3.
  assert (Hu : 0 ≤ readU32LE b < 2 ^ 32) by (unfold readU32LE; lia).
  assert (H01 : toInt32 (readU32LE b) = 0 ∨ toInt32 (readU32LE b) = 1
                ↔ readU32LE b = 0 ∨ readU32LE b = 1).
  { unfold toInt32. Z.div_mod_to_equations. lia. }
  rewrite !andb_true_iff, orb_true_iff, !bool_decide_eq_true, H01.
  split.
  - intros [[[Hopt Hb1] Hb2] Hb3]. auto using byteIsZero_spec.
  - intros (Hopt & Hb1 & Hb2 & Hb3).
    repeat split; try done; apply byteIsZero_in_range; (lia || done).
Qed.

(** C2.  The classifier follows the decision table: an owner that is
    neither token program gives Unclassified; for either program 165
    bytes give TokenHolding and 82 bytes MintRecord; the fixed-layout
    program gives Unclassified at every other length; the
    extension-capable program gives MintRecord from 82 up to 164 bytes,
    Unclassified below 82, and above 165 MintRecord exactly when the
    first four bytes read little-endian are 0 or 1 with bytes 1, 2 and 3
    zero, TokenHolding otherwise.  An empty buffer is Unclassified. *)
Theorem classify_decision_table (owner : string) (b : list byte) :
  classify owner b = decisionTable owner b
  ∧ (owner ≠ TOKEN_PROGRAM_ID → owner ≠ TOKEN_2022_PROGRAM_ID →
       classify owner b = Unclassified)
  ∧ (owner = TOKEN_PROGRAM_ID ∨ owner = TOKEN_2022_PROGRAM_ID →
       length b = 165%nat → classify owner b = TokenHolding)
  ∧ (owner = TOKEN_PROGRAM_ID ∨ owner = TOKEN_2022_PROGRAM_ID →
       length b = 82%nat → classify owner b = MintRecord)
  ∧ (length b = 0%nat → classify owner b = Unclassified).
Proof.
  assert (Hmain : classify owner b = decisionTable owner b).
  { unfold classify, classifyBuffer, decisionTable.
    destruct (decide (owner = TOKEN_PROGRAM_ID)) as [->|Hne1].
    - rewrite decide_True by auto.
      rewrite (decide_False (P := (TOKEN_PROGRAM_ID = TOKEN_2022_PROGRAM_ID))) by done.
      done.
    - destruct (decide (owner = TOKEN_2022_PROGRAM_ID)) as [->|Hne2].
      + rewrite decide_True by auto.
        destruct (decide (length b = 165%nat)); [done|].
        destruct (decide (length b = 82%nat)); [done|].
        destruct (decide (82 ≤ length b ∧ length b < 165)%nat); [done|].
        destruct (decide (165 < length b)%nat), (decide (length b < 82)%nat);
          try done; try lia.
        pose proof (isMintOption_spec b ltac:(lia)) as Hspec.
        destruct (isMintOption b), (decide (mintDiscriminant b)) as [Hd|Hd];
          try done.
        * by destruct Hd; apply Hspec.
        * by apply Hspec in Hd.
      + rewrite decide_False by tauto. done. }
  split; [done|]. rewrite Hmain. unfold decisionTable.
  repeat split.
  - intros H1 H2. by rewrite !decide_False.
  - intros Ho Hlen. rewrite !(decide_True (P := length b = 165%nat)) by done.
    destruct Ho as [->| ->]; repeat case_decide; done.
  - intros Ho Hlen.
    rewrite !(decide_False (P := length b = 165%nat)) by lia.
    rewrite !(decide_True (P := length b = 82%nat)) by done.
    destruct Ho as [->| ->]; repeat case_decide; done.
  - intros Hlen. repeat case_decide; try done; lia.
Qed.

Lemma classify_decision_table_sample :
  classify TOKEN_2022_PROGRAM_ID (replicate 165 x00) = TokenHolding
  ∧ classify TOKEN_PROGRAM_ID (replicate 82 x00) = MintRecord
  ∧ classify TOKEN_2022_PROGRAM_ID [] = Unclassified
  ∧ classify "11111111111111111111111111111111" (replicate 165 x00) = Unclassified.
Proof.
  split; [|split; [|split]].
  - destruct (classify_decision_table TOKEN_2022_PROGRAM_ID (replicate 165 x00))
      as (_ & _ & H & _).
    apply H; [by right | reflexivity].
  - destruct (classify_decision_table TOKEN_PROGRAM_ID (replicate 82 x00))
      as (_ & _ & _ & H & _).
    apply H; [by left | reflexivity].
  - destruct (classify_decision_table TOKEN_2022_PROGRAM_ID [])
      as (_ & _ & _ & _ & H).
    apply H. reflexivity.
  - destruct (classify_decision_table "11111111111111111111111111111111"
                (replicate 165 x00)) as (_ & H & _).
    apply H; unfold TOKEN_PROGRAM_ID, TOKEN_2022_PROGRAM_ID; discriminate.
Defined.

Lemma classify_TokenHolding owner b :
  classify owner b = TokenHolding →
  (owner = TOKEN_PROGRAM_ID ∨ owner = TOKEN_2022_PROGRAM_ID)
  ∧ classifyBuffer owner b = TokenHolding ∧ (165 ≤ length b)%nat.
Proof.
  unfold classify. case_decide as Ho; [|done]. intros Hc.
  split; [done|]. split; [done|]. revert Hc. unfold classifyBuffer.
  repeat case_decide; try done; lia.
Qed.

(** A little-endian big number read from an eight-byte window that lies
    inside the buffer. *)
Lemma BN_le_window b offset :
  (offset + 8 ≤ length b)%nat →
  BN_le (subarray offset (offset + 8) b) = readU64LE b offset
  ∧ (readU64LE b offset < 2 ^ 64)%N.
Proof.
  intros Hlen. unfold subarray, readU64LE.
  replace (offset + 8 - offset)%nat with 8%nat by lia.
  rewrite <- !lookup_drop.
  assert (Hl : (8 ≤ length (drop offset b))%nat) by (rewrite length_drop; lia).
  destruct (drop offset b) as [|x0 [|x1 [|x2 [|x3 [|x4 [|x5 [|x6 [|x7 l]]]]]]]];
    simpl in Hl; try lia.
  simpl.
  pose proof (Byte.to_N_bounded x0). pose proof (Byte.to_N_bounded x1).
  pose proof (Byte.to_N_bounded x2). pose proof (Byte.to_N_bounded x3).
  pose proof (Byte.to_N_bounded x4). pose proof (Byte.to_N_bounded x5).
  pose proof (Byte.to_N_bounded x6). pose proof (Byte.to_N_bounded x7).
  lia.
Qed.

(** C5.  For a buffer classified as a token holding, the scan records
    the address with [mint] the base-58 encoding of bytes 0 to 32 of the
    buffer (exactly 32 bytes) and [amount] the unsigned little-endian
    reading of bytes 64 to 72, an unbounded natural number below 2^64. *)
Theorem token_account_fields (atob : string → option string)
    (bs58_encode : list byte → string) (chunk : list string) (j : nat)
    (info : AccountInfo) (acc : ChunkScan) :
  let dataBuf := base64ToBytes atob (info_data info).1 in
  classify (info_owner info) dataBuf = TokenHolding →
  scanAccount atob bs58_encode chunk j (Some info) acc
  = {| tokenAccounts :=
         tokenAccounts acc ++
           [{| ta_pubkey := chunk !! j;
               ta_mint := bs58_encode (take 32 dataBuf);
               ta_amount := readU64LE dataBuf 64 |}];
       mintAccounts := mintAccounts acc;
       uniqueMints := setAdd (Some (bs58_encode (take 32 dataBuf))) (uniqueMints acc) |}
  ∧ length (take 32 dataBuf) = 32%nat
  ∧ (readU64LE dataBuf 64 < 2 ^ 64)%N.
Proof.
  intros dataBuf Hc. apply classify_TokenHolding in Hc as (Ho & Hb & Hlen).
  destruct (BN_le_window dataBuf 64 ltac:(lia)) as [Hle Hlt].
  change (64 + 8)%nat with 72%nat in Hle.
  split; [|split; [rewrite length_take; lia | done]].
  unfold scanAccount. rewrite decide_True by done. fold dataBuf. rewrite Hb.
  unfold subarray at 1. rewrite drop_0. rewrite Hle. done.
Qed.

(** ** The formatter *)

Lemma digitChar_spec d :
  (d < 10)%N → isDigit (digitChar d) = true ∧ (N_of_ascii (digitChar d) - 48 = d)%N
               ∧ digitChar d ≠ "."%char.
Proof.
  intros Hd.
  assert (d = 0 ∨ d = 1 ∨ d = 2 ∨ d = 3 ∨ d = 4 ∨ d = 5 ∨ d = 6 ∨ d = 7
          ∨ d = 8 ∨ d = 9)%N as Hcases by lia.
  repeat (destruct Hcases as [->|Hcases]); try subst d; by vm_compute.
Qed.

Lemma digitsOf_allDigits fuel n acc :
  allDigits acc = true → allDigits (digitsOf fuel n acc) = true.
Proof.
  revert n acc. induction fuel as [|fuel IH]; simpl; intros n acc Hacc; [done|].
  assert (Hd : allDigits (String (digitChar (n mod 10)) acc) = true).
  { simpl. rewrite Hacc. apply andb_true_iff. split; [|done].
    apply digitChar_spec. apply N.mod_lt. done. }
  destruct (n / 10 =? 0)%N; [done|]. by apply IH.
Qed.

Lemma BN_toString_allDigits n : allDigits (BN_toString n) = true.
Proof. by apply digitsOf_allDigits. Qed.

Lemma parseDecimal_shift v s :
  parseDecimal v s = (v * 10 ^ N.of_nat (String.length s) + parseDecimal 0 s)%N.
Proof.
  revert v. induction s as [|c s IH]; intros v.
  - simpl. lia.
  - cbn [parseDecimal String.length]. rewrite IH, (IH (10 * 0 + _)%N).
    rewrite Nat2N.inj_succ, N.pow_succ_r'. lia.
Qed.

(** With enough fuel the digits written denote the number. *)
Lemma parseDecimal_digitsOf fuel n acc :
  (n < 2 ^ N.of_nat fuel)%N →
  parseDecimal 0 (digitsOf fuel n acc)
  = (n * 10 ^ N.of_nat (String.length acc) + parseDecimal 0 acc)%N.
Proof.
  revert n acc. induction fuel as [|fuel IH]; intros n acc Hn.
  - simpl in *. assert (n = 0%N) as -> by lia. lia.
  - cbn [digitsOf]. pose proof (N.mod_lt n 10 ltac:(done)) as Hmod.
    destruct (digitChar_spec (n mod 10) Hmod) as (_ & Hval & _).
    assert (Hcons : parseDecimal 0 (String (digitChar (n mod 10)) acc)
                    = ((n mod 10) * 10 ^ N.of_nat (String.length acc)
                       + parseDecimal 0 acc)%N).
    { cbn [parseDecimal]. rewrite parseDecimal_shift, Hval. lia. }
    pose proof (N.div_mod n 10 ltac:(done)) as Hdm.
    destruct (n / 10 =? 0)%N eqn:Hq.
    + apply N.eqb_eq in Hq. rewrite Hcons. rewrite Hq in Hdm. f_equal. f_equal. lia.
    + rewrite IH.
      * rewrite Hcons. cbn [String.length].
        rewrite Nat2N.inj_succ, N.pow_succ_r'. lia.
      * rewrite Nat2N.inj_succ, N.pow_succ_r' in Hn. lia.
Qed.

(** [BN_toString] writes the decimal digits of its argument. *)
Lemma parseDecimal_BN_toString n : parseDecimal 0 (BN_toString n) = n.
Proof.
  unfold BN_toString. rewrite parseDecimal_digitsOf; [simpl; lia|].
  rewrite Nat2N.inj_succ, N2Nat.id.
  destruct (decide (n = 0%N)) as [->|Hn]; [done|].
  apply N.log2_spec. lia.
Qed.

Lemma digitsOf_length fuel n acc d :
  (0 < d)%nat → (n < 10 ^ N.of_nat d)%N →
  (String.length (digitsOf fuel n acc) ≤ d + String.length acc)%nat.
Proof.
  revert n acc d. induction fuel as [|fuel IH]; intros n acc d Hd Hn.
  - simpl. lia.
  - cbn [digitsOf]. destruct (n / 10 =? 0)%N eqn:Hq.
    + simpl. lia.
    + apply N.eqb_neq in Hq.
      pose proof (N.div_mod n 10 ltac:(done)) as Hdm.
      destruct d as [|[|d]]; [lia| |].
      * simpl in Hn. exfalso. apply Hq. apply N.div_small. lia.
      * etrans; [apply (IH _ _ (S d)); [lia|]|simpl; lia].
        rewrite Nat2N.inj_succ, N.pow_succ_r' in Hn.
        apply N.Div0.div_lt_upper_bound. lia.
Qed.

Lemma repeatChar_length n c : String.length (repeatChar n c) = n.
Proof. induction n; simpl; auto. Qed.

Lemma string_length_app (a b : string) :
  String.length (a +:+ b) = (String.length a + String.length b)%nat.
Proof. induction a; simpl; auto. Qed.

(** The remainder padded with zeros has exactly [decimals] digits. *)
Lemma padded_fraction_length amount decimals :
  decimals ≠ 0%nat →
  String.length
    (padStart decimals "0" (BN_toString (amount mod 10 ^ N.of_nat decimals)%N))
  = decimals.
Proof.
  intros Hd. unfold padStart. rewrite string_length_app, repeatChar_length.
  assert (String.length (BN_toString (amount mod 10 ^ N.of_nat decimals)%N)
          ≤ decimals)%nat; [|lia].
  unfold BN_toString.
  etrans; [apply (digitsOf_length _ _ _ decimals); [lia|]|simpl; lia].
  apply N.mod_lt. apply N.pow_nonzero. done.
Qed.

(** *** Grouping by the pattern and grouping from the right *)

Lemma string_length_list s :
  length (String.list_ascii_of_string s) = String.length s.
Proof. induction s; simpl; auto. Qed.

Lemma allDigits_startsWithDigit s :
  allDigits s = true → startsWithDigit s = negb (bool_decide (s = EmptyString)).
Proof. destruct s; simpl; [done|]. by intros [-> _]%andb_prop. Qed.

Lemma tripletsThenNoDigit_digits s :
  allDigits s = true → tripletsThenNoDigit s = commaBefore (String.length s).
Proof.
  remember (String.length s) as n eqn:Hn. revert s Hn.
  induction n as [n IH] using lt_wf_ind. intros s Hn Hs.
  destruct s as [|a [|b [|c rest]]]; simpl in Hn; subst n; try done.
  cbn [tripletsThenNoDigit]. simpl in Hs.
  apply andb_prop in Hs as [-> Hs]. apply andb_prop in Hs as [-> Hs].
  apply andb_prop in Hs as [-> Hs]. simpl.
  rewrite (allDigits_startsWithDigit rest Hs).
  destruct rest as [|d rest]; [done|].
  rewrite bool_decide_eq_false_2 by done. simpl negb. rewrite orb_false_l.
  rewrite (IH (String.length (String d rest))); [|simpl; lia|done|done].
  unfold commaBefore. simpl String.length.
  replace (S (S (S (S (String.length rest))))) with (S (String.length rest) + 1 * 3)%nat by lia.
  rewrite Nat.Div0.mod_add. done.
Qed.

Lemma isDigit_isWordChar c : isDigit c = true → isWordChar c = true.
Proof. unfold isWordChar. by intros ->. Qed.

(** Inside a run of digits the pattern puts a comma exactly before the
    runs whose length is a positive multiple of three. *)
Lemma insertCommas_inside d s :
  isDigit d = true → allDigits s = true →
  insertCommas (Some d) s
  = match s with
    | EmptyString => EmptyString
    | String c rest =>
        if commaBefore (String.length s)
        then String ","%char (String c (insertCommas (Some c) rest))
        else String c (insertCommas (Some c) rest)
    end.
Proof.
  intros Hd Hs. destruct s as [|c rest].
  - simpl. unfold notWordBoundary. simpl. rewrite (isDigit_isWordChar d Hd). done.
  - cbn [insertCommas]. rewrite tripletsThenNoDigit_digits by done.
    simpl in Hs. apply andb_prop in Hs as [Hc Hs].
    unfold notWordBoundary. simpl from_option.
    rewrite (isDigit_isWordChar d Hd), (isDigit_isWordChar c Hc).
    rewrite bool_decide_eq_true_2 by done. done.
Qed.

Lemma insertCommas_start s :
  allDigits s = true →
  insertCommas None s
  = match s with
    | EmptyString => EmptyString
    | String c rest => String c (insertCommas (Some c) rest)
    end.
Proof.
  intros Hs. destruct s as [|c rest]; [done|].
  cbn [insertCommas]. simpl in Hs. apply andb_prop in Hs as [Hc Hs].
  unfold notWordBoundary. simpl from_option.
  rewrite (isDigit_isWordChar c Hc). rewrite bool_decide_eq_false_2 by done. done.
Qed.

Lemma groupFromRight_snoc x c :
  groupFromRight (x ++ [c])
  = groupFromRight x ++ (if commaBefore (length x) then [","%char; c] else [c]).
Proof.
  remember (length x) as n eqn:Hn. revert x Hn.
  induction n as [n IH] using lt_wf_ind. intros x Hn.
  destruct x as [|a [|b [|c' rest]]]; simpl in Hn; subst n; try done.
  cbn [app groupFromRight].
  destruct rest as [|d rest].
  - done.
  - cbn [app]. change (d :: rest ++ [c]) with ((d :: rest) ++ [c]).
    rewrite (IH (length (d :: rest))); [|simpl; lia|done].
    unfold commaBefore. simpl length.
    replace (S (S (S (S (length rest))))) with (S (length rest) + 1 * 3)%nat by lia.
    rewrite Nat.Div0.mod_add. done.
Qed.

Lemma groupThousands_cons c rest :
  groupThousands (String c rest)
  = String c (if commaBefore (String.length rest)
              then String ","%char (groupThousands rest)
              else groupThousands rest).
Proof.
  unfold groupThousands. cbn [String.list_ascii_of_string List.rev].
  rewrite groupFromRight_snoc, List.length_rev, string_length_list.
  rewrite List.rev_app_distr.
  destruct (commaBefore (String.length rest)); done.
Qed.

Lemma insertCommas_groupThousands d s :
  isDigit d = true → allDigits s = true →
  insertCommas (Some d) s
  = if commaBefore (String.length s)
    then String ","%char (groupThousands s)
    else groupThousands s.
Proof.
  revert d. induction s as [|c rest IH]; intros d Hd Hs.
  - rewrite insertCommas_inside by done. done.
  - rewrite insertCommas_inside by done.
    simpl in Hs. apply andb_prop in Hs as [Hc Hs].
    rewrite (IH c Hc Hs), groupThousands_cons. done.
Qed.

Lemma insertCommas_digits s :
  allDigits s = true → insertCommas None s = groupThousands s.
Proof.
  intros Hs. rewrite insertCommas_start by done.
  destruct s as [|c rest]; [done|].
  simpl in Hs. apply andb_prop in Hs as [Hc Hs].
  by rewrite (insertCommas_groupThousands c rest), groupThousands_cons.
Qed.

(** *** Splitting at the decimal point *)

Lemma isDigit_not_dot c : isDigit c = true → c ≠ "."%char.
Proof. intros Hc ->. done. Qed.

Lemma indexOfChar_digits s : allDigits s = true → indexOfChar "."%char s = None.
Proof.
  induction s as [|c s IH]; simpl; [done|].
  intros [Hc Hs]%andb_prop.
  rewrite bool_decide_eq_false_2 by by apply isDigit_not_dot.
  by rewrite IH.
Qed.

Lemma indexOfChar_dot a b :
  allDigits a = true →
  indexOfChar "."%char (a +:+ "." +:+ b) = Some (String.length a).
Proof.
  induction a as [|c a IH]; simpl; [done|].
  intros [Hc Ha]%andb_prop.
  rewrite bool_decide_eq_false_2 by by apply isDigit_not_dot.
  by rewrite IH.
Qed.

Lemma substring_whole s : String.substring 0 (String.length s) s = s.
Proof. induction s; simpl; by f_equal. Qed.

Lemma substring_prefix a b :
  String.substring 0 (String.length a) (a +:+ b) = a.
Proof.
  induction a as [|c a IH]; simpl; [by destruct b|]. by f_equal.
Qed.

Lemma substring_after a b :
  String.substring (String.length a + 1)
    (String.length (a +:+ "." +:+ b) - (String.length a + 1)) (a +:+ "." +:+ b)
  = b.
Proof.
  induction a as [|c a IH]; simpl.
  - rewrite Nat.sub_0_r. apply substring_whole.
  - exact IH.
Qed.

Lemma finalAmt_digits s :
  allDigits s = true → finalAmt s = groupThousands s.
Proof.
  intros Hs. unfold finalAmt. rewrite indexOfChar_digits by done.
  rewrite decide_True by done. by apply insertCommas_digits.
Qed.

Lemma finalAmt_fraction a b :
  allDigits a = true → b ≠ EmptyString →
  finalAmt (a +:+ "." +:+ b) = groupThousands a +:+ "." +:+ b.
Proof.
  intros Ha Hb. unfold finalAmt. rewrite indexOfChar_dot by done.
  rewrite substring_prefix, substring_after.
  rewrite decide_False by done. by rewrite insertCommas_digits.
Qed.

(** C4.  The balance text is the formatter of the specification: for
    zero decimals the decimal string of the amount grouped by commas;
    otherwise the quotient by 10^decimals grouped by commas, followed,
    when the remainder padded to exactly [decimals] digits and stripped
    of trailing zeros is not empty, by a point and that fraction. *)
Theorem formatBalance_spec (rawAmount : N) (decimals : nat) :
  formatBalance rawAmount decimals = specFormat rawAmount decimals
  ∧ (decimals ≠ 0%nat →
       String.length
         (padStart decimals "0"
            (BN_toString (rawAmount mod 10 ^ N.of_nat decimals)%N)) = decimals)
  ∧ parseDecimal 0 (BN_toString rawAmount) = rawAmount
  ∧ formatBalance 1234567 2 = "12,345.67"
  ∧ formatBalance 1000000 0 = "1,000,000"
  ∧ formatBalance 100 3 = "0.1".
Proof.
  split; [|split; [apply padded_fraction_length|split;
    [apply parseDecimal_BN_toString|by vm_compute]]].
  unfold formatBalance, formatAmount, specFormat.
  destruct (decide (decimals = 0%nat)) as [Hd|Hd].
  - apply finalAmt_digits, BN_toString_allDigits.
  - set (fraction := stripTrailingZeros _).
    destruct (decide (fraction = EmptyString)) as [Hf|Hf].
    + rewrite Hf. simpl.
      apply finalAmt_digits, BN_toString_allDigits.
    + rewrite decide_True by (destruct fraction; [done|simpl; lia]).
      apply finalAmt_fraction; [apply BN_toString_allDigits|done].
Qed.

Lemma formatBalance_spec_sample :
  String.length (padStart 6 "0" (BN_toString (250000 mod 10 ^ N.of_nat 6)%N)) = 6%nat.
Proof. apply (formatBalance_spec 250000 6). discriminate. Defined.

(** ** Chunking *)

Lemma sliceLoop_concat {A} fuel i size (l : list A) :
  (0 < size)%nat → (length l ≤ fuel + i)%nat →
  concat (sliceLoop fuel i size l) = drop i l.
Proof.
  intros Hsize. revert i. induction fuel as [|fuel IH]; intros i Hfuel; simpl.
  - by rewrite drop_ge by lia.
  - case_decide as Hi.
    + simpl. rewrite IH by lia.
      rewrite <- drop_drop. apply take_drop.
    + by rewrite drop_ge by lia.
Qed.

Lemma sliceLoop_bounds {A} fuel i size (l : list A) :
  (0 < size)%nat →
  Forall (λ c, 0 < length c ≤ size)%nat (sliceLoop fuel i size l).
Proof.
  intros Hsize. revert i. induction fuel as [|fuel IH]; intros i; simpl.
  - constructor.
  - case_decide as Hi; constructor; [|apply IH].
    rewrite length_take, length_drop. lia.
Qed.


Lemma chunkBy_concat {A} size (l : list A) :
  (0 < size)%nat → concat (chunkBy size l) = l.
Proof. intros. unfold chunkBy. rewrite sliceLoop_concat by lia. apply drop_0. Qed.

Lemma chunkBy_bounds {A} size (l : list A) :
  (0 < size)%nat → Forall (λ c, 0 < length c ≤ size)%nat (chunkBy size l).
Proof. apply sliceLoop_bounds. Qed.

Lemma elem_of_concat {A} (x : A) (ls : list (list A)) :
  x ∈ concat ls ↔ ∃ l, l ∈ ls ∧ x ∈ l.
Proof.
  induction ls as [|l ls IH]; simpl.
  - split; [by intros ?%elem_of_nil|]. by intros (l & ?%elem_of_nil & _).
  - rewrite elem_of_app, IH. split.
    + intros [Hx|(l' & Hl' & Hx)]; [exists l|exists l']; split; auto;
        [by left|by right].
    + intros (l' & [->|Hl']%elem_of_cons & Hx); [by left|right; eauto].
Qed.

Lemma chunkBy_elem {A} size (l c : list A) x :
  (0 < size)%nat → c ∈ chunkBy size l → x ∈ c → x ∈ l.
Proof.
  intros Hsize Hc Hx. rewrite <- (chunkBy_concat size l Hsize).
  apply elem_of_concat. eauto.
Qed.


(** ** Running the builder *)

Section BuilderFacts.
Context {World : Type}.
Variable atob : string → option string.
Variable bs58_encode : list byte → string.
Variable fetchAccountInfo :
  list string → World → option (list (option AccountInfo)) * World.
Variable fetch : string → World → FetchResult * World.

Abbreviation Env := (@Env World).
Abbreviation Eff := (@Eff World).

Lemma bind_run {A B} (m : Eff A) (f : A → Eff B) (env : Env) :
  Eff_bind A B f m env = f (m env).1 (m env).2.
Proof. unfold Eff_bind. by destruct (m env). Qed.

Lemma forEach_cons {A S} (body : A → S → Eff S) x l s (env : Env) :
  forEach body (x :: l) s env
  = forEach body l (body x s env).1 (body x s env).2.
Proof. simpl. unfold mbind. by rewrite bind_run. Qed.

(** A property of the loop state kept by every turn holds at the end. *)
Lemma forEach_invariant {A S} (I : S → Prop) (body : A → S → Eff S) l :
  (∀ x s env, x ∈ l → I s → I (body x s env).1) →
  ∀ s env, I s → I (forEach body l s env).1.
Proof.
  induction l as [|x l IH]; intros Hbody s env Hs; [done|].
  rewrite forEach_cons. apply IH.
  - intros y s' env' Hy. apply Hbody. by right.
  - apply Hbody; [by left|done].
Qed.

(** *** The metadata fetch *)

Lemma mergeBatch_lookup apiChunk data mintInfoMap k :
  mergeBatch apiChunk data mintInfoMap !! k
  = if decide (k ∈ apiChunk)
    then match data !! keyText k with
         | Some meta => Some (metaInfo k meta)
         | None => mintInfoMap !! k
         end
    else mintInfoMap !! k.
Proof.
  unfold mergeBatch. revert mintInfoMap.
  induction apiChunk as [|x l IH]; intros m.
  - done.
  - cbn [foldl]. rewrite IH. clear IH.
    destruct (decide (x = k)) as [->|Hne].
    + rewrite (decide_True (P := k ∈ k :: l)) by by left.
      destruct (data !! keyText k) as [meta|] eqn:Hd.
      * rewrite lookup_insert_eq. by case_decide.
      * by case_decide.
    + assert (Hm : (match data !! keyText x with
                    | Some meta => <[x:=metaInfo x meta]> m
                    | None => m
                    end) !! k = m !! k).
      { destruct (data !! keyText x); [by rewrite lookup_insert_ne|done]. }
      rewrite Hm. destruct (decide (k ∈ l)) as [Hin|Hnin].
      * by rewrite decide_True by by right.
      * rewrite decide_False; [done|]. intros [?|?]%elem_of_cons; congruence.
Qed.

Lemma applyResponse_lookup apiChunk res mintInfoMap k :
  applyResponse apiChunk res mintInfoMap !! k
  = if decide (k ∈ apiChunk)
    then match responseMeta res k with
         | Some meta => Some (metaInfo k meta)
         | None => mintInfoMap !! k
         end
    else mintInfoMap !! k.
Proof.
  unfold applyResponse, responseMeta.
  destruct (responseData res) as [data|]; simpl.
  - apply mergeBatch_lookup.
  - by case_decide.
Qed.

Lemma fetchBatch_run apiChunk mintInfoMap (env : Env) :
  let res := (fetch (metadataUrl apiChunk) (world env)).1 in
  (fetchBatch fetch apiChunk mintInfoMap env).1
    = applyResponse apiChunk res mintInfoMap
  ∧ trace (fetchBatch fetch apiChunk mintInfoMap env).2
    = trace env ++ [EvFetch (metadataUrl apiChunk) res].
Proof.
  unfold fetchBatch, mbind, mret, Eff_ret, callFetch. rewrite bind_run.
  by destruct (fetch (metadataUrl apiChunk) (world env)).
Qed.

(** The loop over the API chunks makes one request per chunk, in
    order, and folds the answers into the map. *)
Lemma forEach_fetchBatch_run apiChunks mintInfoMap (env : Env) :
  ∃ outcomes,
    length outcomes = length apiChunks
    ∧ trace (forEach (fetchBatch fetch) apiChunks mintInfoMap env).2
      = trace env ++ zip_with (λ c r, EvFetch (metadataUrl c) r) apiChunks outcomes
    ∧ (forEach (fetchBatch fetch) apiChunks mintInfoMap env).1
      = foldl (λ acc cr, applyResponse cr.1 cr.2 acc) mintInfoMap
          (zip apiChunks outcomes).
Proof.
  revert mintInfoMap env.
  induction apiChunks as [|c l IH]; intros m env.
  - exists []. simpl. by rewrite app_nil_r.
  - rewrite forEach_cons.
    destruct (fetchBatch_run c m env) as [Hval Htr].
    destruct (IH (fetchBatch fetch c m env).1 (fetchBatch fetch c m env).2)
      as (outs & Hlen & Htr' & Hval').
    exists ((fetch (metadataUrl c) (world env)).1 :: outs).
    split; [simpl; lia|]. split.
    + rewrite Htr', Htr. simpl. by rewrite <- app_assoc.
    + rewrite Hval', Hval. done.
Qed.

Lemma foldl_applyResponse_other (pairs : list (list JsKey * FetchResult)) m k :
  (∀ cr, cr ∈ pairs → k ∉ cr.1) →
  foldl (λ acc cr, applyResponse cr.1 cr.2 acc) m pairs !! k = m !! k.
Proof.
  revert m. induction pairs as [|cr l IH]; intros m Hk; simpl; [done|].
  rewrite IH by (intros; apply Hk; by right).
  rewrite applyResponse_lookup.
  rewrite decide_False; [done|]. apply Hk. by left.
Qed.

Lemma foldl_applyResponse_lookup apiChunks outcomes m i apiChunk res k :
  NoDup (concat apiChunks) →
  length outcomes = length apiChunks →
  apiChunks !! i = Some apiChunk → outcomes !! i = Some res →
  k ∈ apiChunk → m !! k = None →
  foldl (λ acc cr, applyResponse cr.1 cr.2 acc) m (zip apiChunks outcomes) !! k
  = metaInfo k <$> responseMeta res k.
Proof.
  revert outcomes m i.
  induction apiChunks as [|c l IH]; intros outs m i Hnd Hlen Hc Hr Hk Hm;
    [done|].
  destruct outs as [|r outs]; [done|]. simpl in Hnd, Hlen.
  apply NoDup_app in Hnd as (Hndc & Hdisj & Hndl).
  destruct i as [|i]; simpl in Hc, Hr.
  - injection Hc as ->. injection Hr as ->. simpl.
    rewrite foldl_applyResponse_other.
    + rewrite applyResponse_lookup, decide_True by done.
      destruct (responseMeta res k); simpl; done.
    + intros [c' r'] Hin Hk'. simpl in Hk'.
      apply (Hdisj k Hk). apply elem_of_concat. exists c'. split; [|done].
      apply elem_of_zip_l in Hin. done.
  - simpl. apply (IH outs _ i); try done; [lia|].
    rewrite applyResponse_lookup. rewrite decide_False; [done|].
    intros Hkc. apply (Hdisj k Hkc). apply elem_of_concat. exists apiChunk.
    split; [|done]. by apply list_elem_of_lookup_2 with i.
Qed.

Lemma foldl_applyResponse_logo (pairs : list (list JsKey * FetchResult)) m :
  (∀ k info, m !! k = Some info → mi_logoURI info = Some (iconUrl k)) →
  ∀ k info,
    foldl (λ acc cr, applyResponse cr.1 cr.2 acc) m pairs !! k = Some info →
    mi_logoURI info = Some (iconUrl k).
Proof.
  revert m. induction pairs as [|cr l IH]; intros m Hm; simpl; [done|].
  apply IH. intros k info. rewrite applyResponse_lookup.
  case_decide; [|apply Hm].
  destruct (responseMeta cr.2 k); [|apply Hm]. by intros [= <-].
Qed.

Lemma fetchMetadata_run mintsList (env : Env) :
  NoDup mintsList →
  ∃ outcomes,
    length outcomes = length (chunkBy 50 mintsList)
    ∧ trace (fetchMetadata fetch mintsList env).2
      = trace env
        ++ zip_with (λ c r, EvFetch (metadataUrl c) r) (chunkBy 50 mintsList) outcomes
    ∧ ∀ i apiChunk res mint,
        chunkBy 50 mintsList !! i = Some apiChunk → outcomes !! i = Some res →
        mint ∈ apiChunk →
        (fetchMetadata fetch mintsList env).1 !! mint
        = metaInfo mint <$> responseMeta res mint.
Proof.
  intros Hnd. unfold fetchMetadata.
  destruct (forEach_fetchBatch_run (chunkBy 50 mintsList) ∅ env)
    as (outs & Hlen & Htr & Hval).
  exists outs. split; [done|]. split; [done|].
  intros i c r k Hc Hr Hk. rewrite Hval.
  apply foldl_applyResponse_lookup with i c; try done.
  by rewrite chunkBy_concat by lia.
Qed.

Lemma fetchMetadata_logo mintsList (env : Env) k info :
  (fetchMetadata fetch mintsList env).1 !! k = Some info →
  mi_logoURI info = Some (iconUrl k).
Proof.
  unfold fetchMetadata.
  destruct (forEach_fetchBatch_run (chunkBy 50 mintsList) ∅ env)
    as (outs & _ & _ & ->).
  apply foldl_applyResponse_logo. intros k' info'. by rewrite lookup_empty.
Qed.

(** *** Properties of objects *)

Lemma lookupProp_assignProp_eq key v props :
  lookupProp key (assignProp key v props) = Some v.
Proof.
  induction props as [|[k w] props IH]; simpl.
  - by rewrite decide_True.
  - destruct (decide (k = key)) as [->|Hne]; simpl.
    + by rewrite decide_True.
    + by rewrite decide_False.
Qed.

Lemma lookupProp_assignProp_ne key key' v props :
  key ≠ key' →
  lookupProp key' (assignProp key v props) = lookupProp key' props.
Proof.
  intros Hne. induction props as [|[k w] props IH]; simpl.
  - by rewrite decide_False.
  - destruct (decide (k = key)) as [->|Hk]; simpl.
    + by rewrite !decide_False.
    + by rewrite IH.
Qed.

Lemma getProp_setProp_ne key key' v data :
  key ≠ key' → getProp key' (setProp key v data) = getProp key' data.
Proof.
  intros Hne. destruct data; simpl; try done.
  by rewrite lookupProp_assignProp_ne.
Qed.

Lemma getProp_setProp_eq key v props :
  getProp key (setProp key v (VObj props)) = v.
Proof. simpl. by rewrite lookupProp_assignProp_eq. Qed.

Lemma setProp_idemp key v data :
  setProp key v (setProp key v data) = setProp key v data.
Proof.
  destruct data; simpl; try done. f_equal.
  induction props as [|[k w] props IH]; simpl.
  - by rewrite decide_True.
  - destruct (decide (k = key)) as [->|Hk]; simpl.
    + by rewrite decide_True.
    + rewrite decide_False by done. by rewrite IH.
Qed.

Lemma iconDerived_setProp_label v label :
  iconDerived v → iconDerived (setProp "label" label v).
Proof. unfold iconDerived. by rewrite !getProp_setProp_ne. Qed.

Lemma valueText_keyValue k : valueText (keyValue k) = keyText k.
Proof. by destruct k. Qed.

Lemma iconDerived_tokenAccountEntry ta info balance label :
  mi_logoURI info = Some (iconUrl (Some (ta_mint ta))) →
  iconDerived (tokenAccountEntry ta info balance label).
Proof. intros Hlogo _. simpl. rewrite Hlogo. done. Qed.

Lemma iconDerived_mintAccountEntry mintPubkey info label :
  mi_logoURI info = Some (iconUrl mintPubkey) →
  iconDerived (mintAccountEntry mintPubkey info label).
Proof.
  intros Hlogo _. simpl. rewrite Hlogo. simpl. unfold iconUrl.
  by rewrite valueText_keyValue.
Qed.

(** *** The scan of a chunk *)

Lemma scanAccount_members chunk j info acc :
  let acc' := scanAccount atob bs58_encode chunk j info acc in
  (∀ ta, ta ∈ tokenAccounts acc' →
     ta ∈ tokenAccounts acc
     ∨ ∃ i, info = Some i ∧ ta_pubkey ta = chunk !! j
            ∧ classify (info_owner i) (base64ToBytes atob (info_data i).1)
              = TokenHolding)
  ∧ (∀ k, k ∈ mintAccounts acc' →
     k ∈ mintAccounts acc
     ∨ ∃ i, info = Some i ∧ k = chunk !! j
            ∧ classify (info_owner i) (base64ToBytes atob (info_data i).1)
              = MintRecord).
Proof.
  unfold scanAccount, classify. destruct info as [i|]; [|by auto].
  case_decide as Ho; [|by auto].
  destruct (classifyBuffer _ _) eqn:Hc; simpl; [| |by auto].
  - split; [|by auto]. intros ta [Hin|Hin%list_elem_of_singleton]%elem_of_app;
      [by left|]. right. exists i. subst ta. by rewrite decide_True.
  - split; [by auto|]. intros k [Hin|Hin%list_elem_of_singleton]%elem_of_app;
      [by left|]. right. exists i. subst k. by rewrite decide_True.
Qed.

Lemma scanFrom_members chunk chunkInfos :
  ∀ j acc,
    let acc' := scanFrom atob bs58_encode chunk j chunkInfos acc in
    (∀ ta, ta ∈ tokenAccounts acc' →
       ta ∈ tokenAccounts acc
       ∨ ∃ i info, chunkInfos !! i = Some (Some info)
                   ∧ ta_pubkey ta = chunk !! (j + i)%nat
                   ∧ classify (info_owner info)
                       (base64ToBytes atob (info_data info).1) = TokenHolding)
    ∧ (∀ k, k ∈ mintAccounts acc' →
       k ∈ mintAccounts acc
       ∨ ∃ i info, chunkInfos !! i = Some (Some info)
                   ∧ k = chunk !! (j + i)%nat
                   ∧ classify (info_owner info)
                       (base64ToBytes atob (info_data info).1) = MintRecord).
Proof.
  induction chunkInfos as [|info rest IH]; intros j acc; simpl; [by auto|].
  destruct (IH (S j) (scanAccount atob bs58_encode chunk j info acc))
    as [IHt IHm].
  destruct (scanAccount_members chunk j info acc) as [Ht Hm].
  split.
  - intros ta Hin. destruct (IHt ta Hin) as [Hacc|(i & inf & Hi & Hk & Hc)].
    + destruct (Ht ta Hacc) as [?|(inf & -> & Hk & Hc)]; [by left|].
      right. exists 0%nat, inf. by rewrite Nat.add_0_r.
    + right. exists (S i), inf. by rewrite Nat.add_succ_r.
  - intros k Hin. destruct (IHm k Hin) as [Hacc|(i & inf & Hi & Hk & Hc)].
    + destruct (Hm k Hacc) as [?|(inf & -> & Hk & Hc)]; [by left|].
      right. exists 0%nat, inf. by rewrite Nat.add_0_r.
    + right. exists (S i), inf. by rewrite Nat.add_succ_r.
Qed.

Lemma scanChunk_tokenAccounts chunk chunkInfos ta :
  ta ∈ tokenAccounts (scanChunk atob bs58_encode chunk chunkInfos) →
  scanned atob chunk chunkInfos (ta_pubkey ta) TokenHolding.
Proof.
  intros Hin. destruct (scanFrom_members chunk chunkInfos 0
    {| tokenAccounts := []; mintAccounts := []; uniqueMints := [] |}) as [Ht _].
  destruct (Ht ta Hin) as [Hnil|(i & info & ? & ? & ?)].
  - by apply elem_of_nil in Hnil.
  - by exists i, info.
Qed.

Lemma scanChunk_mintAccounts chunk chunkInfos k :
  k ∈ mintAccounts (scanChunk atob bs58_encode chunk chunkInfos) →
  scanned atob chunk chunkInfos k MintRecord.
Proof.
  intros Hin. destruct (scanFrom_members chunk chunkInfos 0
    {| tokenAccounts := []; mintAccounts := []; uniqueMints := [] |}) as [_ Hm].
  destruct (Hm k Hin) as [Hnil|(i & info & ? & ? & ?)].
  - by apply elem_of_nil in Hnil.
  - by exists i, info.
Qed.


(** *** One chunk of the builder *)

Lemma callFetchAccountInfo_result chunk (env : Env) :
  (callFetchAccountInfo fetchAccountInfo chunk env).1
  = (fetchAccountInfo chunk (world env)).1.
Proof.
  unfold callFetchAccountInfo. by destruct (fetchAccountInfo chunk (world env)).
Qed.

Section WithLabels.
Variable getLabel : option (JsKey → World → option string * World).

Lemma enrichTokenAccount_run mintInfoMap ta m (env : Env) :
  ∃ label,
    (enrichTokenAccount getLabel mintInfoMap ta m env).1
    = <[ta_pubkey ta :=
          tokenAccountEntry ta (resolveInfo mintInfoMap (Some (ta_mint ta)))
            (formatBalance (ta_amount ta)
               (mi_decimals (resolveInfo mintInfoMap (Some (ta_mint ta)))))
            label]> m.
Proof.
  unfold enrichTokenAccount, mbind, mret, Eff_ret. rewrite bind_run.
  by eexists.
Qed.

Lemma enrichMintAccount_run mintInfoMap mintPubkey m (env : Env) :
  ∃ label,
    (enrichMintAccount getLabel mintInfoMap mintPubkey m env).1
    = <[mintPubkey :=
          mintAccountEntry mintPubkey (resolveInfo mintInfoMap mintPubkey) label]> m.
Proof.
  unfold enrichMintAccount, mbind, mret, Eff_ret. rewrite bind_run.
  by eexists.
Qed.

Lemma resolveInfo_logo mintsList (env : Env) mint :
  mi_logoURI (resolveInfo (fetchMetadata fetch mintsList env).1 mint)
  = Some (iconUrl mint).
Proof.
  unfold resolveInfo.
  destruct (_ !! mint) as [info|] eqn:Hm; simpl; [|done].
  by apply fetchMetadata_logo in Hm.
Qed.

(** Whatever is kept by every insertion of a token entry or a mint
    entry for an account found by the scan is kept by the chunk. *)
Lemma processChunk_entries (I : gmap JsKey Value → Prop) chunk m (env : Env) :
  let chunkInfos := chunkInfosOf chunk (fetchAccountInfo chunk (world env)).1 in
  let scan := scanChunk atob bs58_encode chunk chunkInfos in
  (∀ m ta info label,
     I m → ta ∈ tokenAccounts scan →
     mi_logoURI info = Some (iconUrl (Some (ta_mint ta))) →
     I (<[ta_pubkey ta :=
            tokenAccountEntry ta info
              (formatBalance (ta_amount ta) (mi_decimals info)) label]> m)) →
  (∀ m k info label,
     I m → k ∈ mintAccounts scan → mi_logoURI info = Some (iconUrl k) →
     I (<[k := mintAccountEntry k info label]> m)) →
  I m →
  I (processChunk atob bs58_encode fetchAccountInfo fetch getLabel chunk m env).1.
Proof.
  intros chunkInfos scan Htok Hmint Hm.
  unfold processChunk, mbind. rewrite bind_run.
  rewrite callFetchAccountInfo_result. fold chunkInfos. fold scan.
  case_decide as Hu; [done|].
  rewrite !bind_run.
  match goal with
  | |- context [fetchMetadata fetch (uniqueMints scan) ?e] => set (env1 := e)
  end.
  apply forEach_invariant.
  - intros k m' env' Hk Hm'.
    destruct (enrichMintAccount_run
                (fetchMetadata fetch (uniqueMints scan) env1).1 k m' env')
      as [label ->].
    apply Hmint; [done|done|]. apply resolveInfo_logo.
  - apply forEach_invariant; [|done].
    intros ta m' env' Hta Hm'.
    destruct (enrichTokenAccount_run
                (fetchMetadata fetch (uniqueMints scan) env1).1 ta m' env')
      as [label ->].
    apply Htok; [done|done|]. apply resolveInfo_logo.
Qed.
End WithLabels.


(** *** The loop over chunks and the closing loop *)

Section WholeBuilder.
Variable getLabel : option (JsKey → World → option string * World).

Lemma chunkLoop_invariant (I : gmap JsKey Value → Prop) chunks :
  (∀ chunk w,
     chunk ∈ chunks →
     keepsEntries atob bs58_encode I chunk
       (chunkInfosOf chunk (fetchAccountInfo chunk w).1)) →
  ∀ m (env : Env),
    I m →
    I (forEach (processChunk atob bs58_encode fetchAccountInfo fetch getLabel)
         chunks m env).1.
Proof.
  intros Hkeeps. apply forEach_invariant.
  intros chunk m env Hchunk Hm.
  destruct (Hkeeps chunk (world env) Hchunk) as [Htok Hmint].
  by apply processChunk_entries.
Qed.

Lemma labelPubkey_result g pubkey m (env : Env) :
  (labelPubkey g pubkey m env).1
  = labelEffect pubkey (g (Some pubkey) (world env)).1 m
    ∨ (labelPubkey g pubkey m env).1 = m
      ∧ ∃ existing, m !! Some pubkey = Some existing ∧ truthy existing = false.
Proof.
  unfold labelPubkey, labelEffect.
  destruct (m !! Some pubkey) as [existing|] eqn:Hm.
  - destruct (truthy existing) eqn:Ht.
    + left. unfold mbind, mret, Eff_ret. rewrite bind_run.
      unfold callGetLabel. by destruct (g (Some pubkey) (world env)).
    + right. eauto.
  - left. unfold mbind, mret, Eff_ret. rewrite bind_run.
    unfold callGetLabel. by destruct (g (Some pubkey) (world env)).
Qed.

(** The builder is the loop over chunks followed, when a label
    lookup is given, by the closing loop. *)
Lemma fetchEnrichmentMap_result pubkeys (env : Env) :
  pubkeys ≠ [] →
  let chunked :=
    forEach (processChunk atob bs58_encode fetchAccountInfo fetch getLabel)
      (chunkBy 100 pubkeys) ∅ env in
  (fetchEnrichmentMap atob bs58_encode fetchAccountInfo fetch getLabel
     pubkeys env).1
  = match getLabel with
    | Some g => (forEach (labelPubkey g) pubkeys chunked.1 chunked.2).1
    | None => chunked.1
    end.
Proof.
  intros Hne. unfold fetchEnrichmentMap.
  rewrite decide_False by (by destruct pubkeys).
  unfold mbind. rewrite bind_run. by destruct getLabel.
Qed.

(** An invariant that holds of the empty map, is kept by the entries
    of every chunk and by the closing loop, holds of the result. *)
Lemma fetchEnrichmentMap_invariant (I : gmap JsKey Value → Prop) pubkeys
    (env : Env) :
  I ∅ →
  (∀ chunk w,
     chunk ∈ chunkBy 100 pubkeys →
     keepsEntries atob bs58_encode I chunk
       (chunkInfosOf chunk (fetchAccountInfo chunk w).1)) →
  (∀ m pubkey label,
     pubkey ∈ pubkeys → I m → I (labelEffect pubkey label m)) →
  I (fetchEnrichmentMap atob bs58_encode fetchAccountInfo fetch getLabel
       pubkeys env).1.
Proof.
  intros Hempty Hchunks Hlabel.
  destruct pubkeys as [|p ps] eqn:Hp; [done|]. rewrite <- Hp in *.
  rewrite fetchEnrichmentMap_result by (by rewrite Hp).
  pose proof (chunkLoop_invariant I (chunkBy 100 pubkeys) Hchunks ∅ env Hempty)
    as Hloop.
  destruct getLabel as [g|]; [|done].
  apply forEach_invariant; [|done].
  intros pubkey m env' Hin Hm.
  destruct (labelPubkey_result g pubkey m env') as [->|[-> _]]; [|done].
  by apply Hlabel.
Qed.
End WholeBuilder.


(** *** Icons, symbols and decimals *)

Section Annotations.
Variable getLabel : option (JsKey → World → option string * World).

Lemma labelEffect_Forall (P : Value → Prop) pubkey label m :
  (∀ l, P (labeledEntry pubkey l)) →
  (∀ v, P v → P (setProp "label" (optStr label) v)) →
  map_Forall (λ _, P) m → map_Forall (λ _, P) (labelEffect pubkey label m).
Proof.
  intros Hlab Hset Hm. unfold labelEffect.
  destruct (m !! Some pubkey) as [existing|] eqn:He.
  - destruct (truthy existing && truthyStr label); [|done].
    apply map_Forall_insert_2; [|done]. apply Hset. by apply (Hm _ _ He).
  - destruct (truthyStr label); [|done].
    by apply map_Forall_insert_2.
Qed.

Lemma fetchEnrichmentMap_icons pubkeys (env : Env) :
  map_Forall (λ _, iconDerived)
    (fetchEnrichmentMap atob bs58_encode fetchAccountInfo fetch getLabel
       pubkeys env).1.
Proof.
  apply (fetchEnrichmentMap_invariant getLabel (map_Forall (λ _, iconDerived))).
  - apply map_Forall_empty.
  - intros chunk w _. split.
    + intros m ta info label Hm _ Hlogo. apply map_Forall_insert_2; [|done].
      by apply iconDerived_tokenAccountEntry.
    + intros m k info label Hm _ Hlogo. apply map_Forall_insert_2; [|done].
      by apply iconDerived_mintAccountEntry.
  - intros m pubkey label _. apply labelEffect_Forall.
    + intros l. unfold iconDerived. simpl. discriminate.
    + intros v. apply iconDerived_setProp_label.
Qed.

End Annotations.


(** *** Labels *)

Lemma isObject_truthy v : isObject v → truthy v = true.
Proof. by intros [props ->]. Qed.

Lemma chunkLoop_objects getLabel chunks (env : Env) :
  map_Forall (λ _, isObject)
    (forEach (processChunk atob bs58_encode fetchAccountInfo fetch getLabel)
       chunks ∅ env).1.
Proof.
  apply (chunkLoop_invariant getLabel (map_Forall (λ _, isObject)));
    [|apply map_Forall_empty].
  intros chunk w _. split.
  - intros m ta info label Hm _ _. apply map_Forall_insert_2; [|done]. by eexists.
  - intros m k info label Hm _ _. apply map_Forall_insert_2; [|done]. by eexists.
Qed.

Lemma chunkLoop_tokens getLabel chunks (env : Env) :
  map_Forall (λ _ v, getProp "__type" v = VStr "token")
    (forEach (processChunk atob bs58_encode fetchAccountInfo fetch getLabel)
       chunks ∅ env).1.
Proof.
  apply (chunkLoop_invariant getLabel
           (map_Forall (λ _ v, getProp "__type" v = VStr "token")));
    [|apply map_Forall_empty].
  intros chunk w _. split.
  - intros m ta info label Hm _ _. by apply map_Forall_insert_2.
  - intros m k info label Hm _ _. by apply map_Forall_insert_2.
Qed.

Lemma labelEffect_other pubkey label m k :
  k ≠ Some pubkey → labelEffect pubkey label m !! k = m !! k.
Proof.
  intros Hne. unfold labelEffect.
  destruct (m !! Some pubkey) as [existing|].
  - destruct (truthy existing && truthyStr label); [|done].
    by rewrite lookup_insert_ne.
  - destruct (truthyStr label); [|done]. by rewrite lookup_insert_ne.
Qed.

Lemma labelPubkey_other g p m (env : Env) k :
  k ≠ Some p → (labelPubkey g p m env).1 !! k = m !! k.
Proof.
  intros Hne. destruct (labelPubkey_result g p m env) as [->|[-> _]]; [|done].
  by apply labelEffect_other.
Qed.

Lemma labelTarget_stable a l before :
  setProp "label" (VStr l) (labelTarget a l before) = labelTarget a l before.
Proof. destruct before; simpl; [apply setProp_idemp|done]. Qed.

Lemma labelTarget_object a l before :
  from_option isObject True before → isObject (labelTarget a l before).
Proof.
  destruct before as [v|]; simpl; [|by eexists].
  intros [props ->]. by eexists.
Qed.

Section LabelLoop.
Variable g : JsKey → World → option string * World.
Variables a l : string.
Variable before : option Value.
Hypothesis Hg : ∀ w, (g (Some a) w).1 = Some l.
Hypothesis Hl : l ≠ EmptyString.
Hypothesis Hobj : from_option isObject True before.

Lemma labelPubkey_at m (env : Env) :
  m !! Some a = before ∨ m !! Some a = Some (labelTarget a l before) →
  (labelPubkey g a m env).1 !! Some a = Some (labelTarget a l before).
Proof.
  intros Hm.
  assert (Htl : truthyStr (Some l) = true).
  { simpl. by rewrite bool_decide_eq_false_2. }
  assert (Htruthy : ∀ e, m !! Some a = Some e → truthy e = true).
  { intros e He. apply isObject_truthy. destruct Hm as [Hm|Hm].
    - rewrite Hm in He. pose proof Hobj as Ho. rewrite He in Ho. exact Ho.
    - rewrite Hm in He. injection He as <-. by apply labelTarget_object. }
  destruct (labelPubkey_result g a m env) as [->|(_ & e & He & Hf)].
  - unfold labelEffect. rewrite Hg, Htl.
    destruct (m !! Some a) as [e|] eqn:He.
    + rewrite (Htruthy e eq_refl). simpl. rewrite lookup_insert_eq.
      destruct Hm as [<-|[= ->]]; [done|]. by rewrite labelTarget_stable.
    + rewrite lookup_insert_eq. by destruct Hm as [<-|?].
  - rewrite (Htruthy e He) in Hf. done.
Qed.

Lemma labelLoop_stable pubkeys m (env : Env) :
  m !! Some a = Some (labelTarget a l before) →
  (forEach (labelPubkey g) pubkeys m env).1 !! Some a
  = Some (labelTarget a l before).
Proof.
  revert m env.
  apply (forEach_invariant (λ m, m !! Some a = Some (labelTarget a l before))).
  intros p m env _ Hm.
  destruct (decide (p = a)) as [->|Hne].
  - apply labelPubkey_at. by right.
  - rewrite labelPubkey_other by congruence. done.
Qed.

Lemma labelLoop_target pubkeys m (env : Env) :
  a ∈ pubkeys → m !! Some a = before →
  (forEach (labelPubkey g) pubkeys m env).1 !! Some a
  = Some (labelTarget a l before).
Proof.
  revert m env. induction pubkeys as [|p ps IH]; intros m env Hin Hm.
  - by apply elem_of_nil in Hin.
  - rewrite forEach_cons. destruct (decide (p = a)) as [->|Hne].
    + apply labelLoop_stable. apply labelPubkey_at. by left.
    + apply IH.
      * apply elem_of_cons in Hin as [?|?]; [congruence|done].
      * rewrite labelPubkey_other by congruence. done.
Qed.
End LabelLoop.

(** *** Blobs that do not decode *)

Lemma base64ToBytes_failed base64 :
  atob base64 = None → base64ToBytes atob base64 = [].
Proof. unfold base64ToBytes. by intros ->. Qed.

Lemma classify_empty owner : classify owner [] = Unclassified.
Proof.
  unfold classify, classifyBuffer. simpl. by repeat case_decide.
Qed.

Lemma chunkInfosOf_lookup chunk r i info :
  chunkInfosOf chunk r !! i = Some (Some info) →
  ∃ infos, r = Some infos ∧ infos !! i = Some (Some info).
Proof.
  destruct r as [infos|]; simpl; [by eauto|].
  intros [? _]%lookup_replicate. done.
Qed.

(** C9.  A blob whose payload does not decode is classified as
    Unclassified whatever its owner.  When every blob that the
    account-info service may return for an address fails to decode,
    the address has no token or mint entry after the chunks, and in
    the result it is either absent or holds a labeled entry.  The
    builder returns its map in every case. *)
Theorem undecodable_blob_unclassified
    (getLabel : option (JsKey → World → option string * World))
    (pubkeys : list string) (env : Env) (a : string) :
  (∀ chunk w infos j info,
     (fetchAccountInfo chunk w).1 = Some infos →
     chunk !! j = Some a → infos !! j = Some (Some info) →
     atob (info_data info).1 = None) →
  let chunked :=
    (forEach (processChunk atob bs58_encode fetchAccountInfo fetch getLabel)
       (chunkBy 100 pubkeys) ∅ env).1 in
  let result :=
    (fetchEnrichmentMap atob bs58_encode fetchAccountInfo fetch getLabel
       pubkeys env).1 in
  (∀ info, atob (info_data info).1 = None →
     classify (info_owner info) (base64ToBytes atob (info_data info).1)
     = Unclassified)
  ∧ chunked !! Some a = None
  ∧ (result !! Some a = None
     ∨ ∃ label, result !! Some a = Some (labeledEntry a label)).
Proof.
  intros Hbad chunked result.
  assert (Hclass : ∀ info, atob (info_data info).1 = None →
            classify (info_owner info) (base64ToBytes atob (info_data info).1)
            = Unclassified).
  { intros info Hnone. rewrite base64ToBytes_failed by done. apply classify_empty. }
  assert (Hscan : ∀ chunk w kind,
            scanned atob chunk (chunkInfosOf chunk (fetchAccountInfo chunk w).1)
              (Some a) kind → kind = Unclassified).
  { intros chunk w kind (i & info & Hi & Hk & Hc).
    apply chunkInfosOf_lookup in Hi as (infos & Hr & Hi).
    rewrite <- Hc. apply Hclass. by apply (Hbad chunk w infos i info). }
  assert (Hchunked : chunked !! Some a = None).
  { apply (chunkLoop_invariant getLabel (λ m, m !! Some a = None));
      [|apply lookup_empty].
    intros chunk w _. split.
    - intros m ta info label Hm Hta _.
      apply scanChunk_tokenAccounts in Hta.
      rewrite lookup_insert_ne; [done|]. intros Heq. rewrite Heq in Hta.
      by apply Hscan in Hta.
    - intros m k info label Hm Hk _.
      apply scanChunk_mintAccounts in Hk.
      rewrite lookup_insert_ne; [done|]. intros ->. by apply Hscan in Hk. }
  split; [done|]. split; [done|].
  destruct (decide (pubkeys = [])) as [Hnil|Hne].
  { left. unfold result. by rewrite Hnil. }
  unfold result. rewrite fetchEnrichmentMap_result by done.
  fold chunked. destruct getLabel as [g|]; [|by left].
  apply (forEach_invariant
           (λ m, m !! Some a = None
                 ∨ ∃ label, m !! Some a = Some (labeledEntry a label)));
    [|by left].
  intros q m env' _ Hm.
  destruct (decide (q = a)) as [->|Hqa].
  - destruct (labelPubkey_result g a m env') as [->|[-> _]]; [|done].
    unfold labelEffect.
    destruct Hm as [Hm|[label Hm]]; rewrite Hm.
    + destruct (truthyStr _); [|by left]. right. eexists. apply lookup_insert_eq.
    + destruct (g (Some a) (world env')).1 as [s|]; simpl; [|by eauto].
      destruct (negb _); [|by eauto].
      right. exists s. by rewrite lookup_insert_eq.
  - rewrite labelPubkey_other by congruence. done.
Qed.

(** *** The keys of the enrichment map *)

Lemma scanned_key chunk chunkInfos k kind :
  scanned atob chunk chunkInfos k kind →
  (k = None ∧ (length chunk < length chunkInfos)%nat)
  ∨ ∃ a, k = Some a ∧ a ∈ chunk.
Proof.
  intros (i & info & Hi & -> & _).
  destruct (chunk !! i) as [a|] eqn:Ha.
  - right. exists a. split; [done|]. by apply list_elem_of_lookup_2 with i.
  - left. split; [done|]. apply lookup_ge_None in Ha.
    apply lookup_lt_Some in Hi. lia.
Qed.

Lemma chunkInfosOf_aligned chunk w :
  alignedService fetchAccountInfo →
  (length (chunkInfosOf chunk (fetchAccountInfo chunk w).1) ≤ length chunk)%nat.
Proof.
  intros Haligned. destruct (fetchAccountInfo chunk w).1 as [infos|] eqn:Hr; simpl.
  - by apply (Haligned chunk w).
  - by rewrite length_replicate.
Qed.

Lemma fetchEnrichmentMap_keys
    (getLabel : option (JsKey → World → option string * World))
    (P : JsKey → Prop) (pubkeys : list string) (env : Env) :
  (∀ a, a ∈ pubkeys → P (Some a)) →
  (∀ chunk w kind k,
     chunk ∈ chunkBy 100 pubkeys →
     scanned atob chunk (chunkInfosOf chunk (fetchAccountInfo chunk w).1) k kind →
     P k) →
  ∀ k,
    is_Some ((fetchEnrichmentMap atob bs58_encode fetchAccountInfo fetch getLabel
                pubkeys env).1 !! k) →
    P k.
Proof.
  intros Hin Hscan.
  apply (fetchEnrichmentMap_invariant getLabel (λ m, ∀ k, is_Some (m !! k) → P k)).
  - intros k. rewrite lookup_empty. by intros [? ?].
  - intros chunk w Hchunk. split.
    + intros m ta info label Hm Hta _ k.
      destruct (decide (ta_pubkey ta = k)) as [<-|Hne].
      * intros _. apply scanChunk_tokenAccounts in Hta. by eapply Hscan.
      * rewrite lookup_insert_ne by done. apply Hm.
    + intros m k' info label Hm Hk' _ k.
      destruct (decide (k' = k)) as [<-|Hne].
      * intros _. apply scanChunk_mintAccounts in Hk'. by eapply Hscan.
      * rewrite lookup_insert_ne by done. apply Hm.
  - intros m pubkey label Hpub Hm k.
    destruct (decide (k = Some pubkey)) as [->|Hne].
    + intros _. by apply Hin.
    + rewrite labelEffect_other by done. apply Hm.
Qed.

(** C10 (as amended).  An empty set of addresses gives an empty map.
    Every key of the returned map is an input address or [undefined];
    when the account-info service answers with at most one entry per
    address asked for, every key is an input address. *)
Theorem enrichment_keys
    (getLabel : option (JsKey → World → option string * World))
    (pubkeys : list string) (env : Env) :
  let result :=
    (fetchEnrichmentMap atob bs58_encode fetchAccountInfo fetch getLabel
       pubkeys env).1 in
  (pubkeys = [] → result = ∅)
  ∧ (∀ k, is_Some (result !! k) → k = None ∨ ∃ a, k = Some a ∧ a ∈ pubkeys)
  ∧ (alignedService fetchAccountInfo →
     ∀ k, is_Some (result !! k) → ∃ a, k = Some a ∧ a ∈ pubkeys).
Proof.
  intros result. split; [by intros ->|]. split.
  - apply (fetchEnrichmentMap_keys getLabel
             (λ k, k = None ∨ ∃ a, k = Some a ∧ a ∈ pubkeys)).
    + intros a Ha. right. eauto.
    + intros chunk w kind k Hchunk Hk.
      destruct (scanned_key _ _ _ _ Hk) as [[-> _]|(a & -> & Ha)]; [by left|].
      right. exists a. split; [done|]. apply (chunkBy_elem 100 pubkeys chunk); [lia|done|done].
  - intros Haligned.
    apply (fetchEnrichmentMap_keys getLabel (λ k, ∃ a, k = Some a ∧ a ∈ pubkeys)).
    + intros a Ha. eauto.
    + intros chunk w kind k Hchunk Hk.
      destruct (scanned_key _ _ _ _ Hk) as [[_ Hlen]|(a & -> & Ha)].
      * pose proof (chunkInfosOf_aligned chunk w Haligned). lia.
      * exists a. split; [done|]. apply (chunkBy_elem 100 pubkeys chunk); [lia|done|done].
Qed.

(** *** The map handed to the injector *)

(** Every entry of the map that the builder returns is an enriched
    object carrying the address it is stored under, which is what the
    round trip of inject and strip relies on. *)
Lemma fetchEnrichmentMap_carriesOwnKey
    (getLabel : option (JsKey → World → option string * World))
    (pubkeys : list string) (env : Env) :
  carriesOwnKey
    (fetchEnrichmentMap atob bs58_encode fetchAccountInfo fetch getLabel
       pubkeys env).1.
Proof.
  apply (fetchEnrichmentMap_invariant getLabel carriesOwnKey).
  - intros k v. by rewrite lookup_empty.
  - intros chunk w _. split.
    + intros m ta info label Hm _ _ k v.
      destruct (decide (ta_pubkey ta = Some k)) as [Heq|Hne].
      * rewrite Heq, lookup_insert_eq. intros [= <-].
        eexists. split; [done|]. simpl. by rewrite Heq.
      * rewrite lookup_insert_ne by done. apply Hm.
    + intros m k' info label Hm _ _ k v.
      destruct (decide (k' = Some k)) as [->|Hne].
      * rewrite lookup_insert_eq. intros [= <-]. by eexists.
      * rewrite lookup_insert_ne by done. apply Hm.
  - intros m pubkey label _ Hm k v. unfold labelEffect.
    destruct (m !! Some pubkey) as [existing|] eqn:He.
    + destruct (truthy existing && truthyStr label); [|apply Hm].
      destruct (decide (pubkey = k)) as [->|Hne].
      * rewrite lookup_insert_eq. intros [= <-].
        destruct (Hm _ _ He) as (props & -> & Hen & Hpk).
        eexists. split; [done|].
        by rewrite !lookupProp_assignProp_ne.
      * rewrite lookup_insert_ne by congruence. apply Hm.
    + destruct (truthyStr label); [|apply Hm].
      destruct (decide (pubkey = k)) as [->|Hne].
      * rewrite lookup_insert_eq. intros [= <-]. by eexists.
      * rewrite lookup_insert_ne by congruence. apply Hm.
Qed.

End BuilderFacts.

(** ** Round trip on the maps the builder returns *)

(** The injector is fed the map of the builder: for a decoded tree
    without annotation-shaped objects and without strings of the
    wrapped form, strip after inject gives the tree back, whatever the
    collaborators answered. *)
Lemma strip_inject_built_map {World : Type}
    (atob : string → option string) (bs58_encode : list byte → string)
    (fetchAccountInfo : list string → World → option (list (option AccountInfo)) * World)
    (fetch : string → World → FetchResult * World)
    (getLabel : option (JsKey → World → option string * World))
    (pubkeys : list string) (env : Env) (data : Value) :
  let map :=
    (fetchEnrichmentMap atob bs58_encode fetchAccountInfo fetch getLabel
       pubkeys env).1 in
  annotationFree data = true → legacyFree map data = true →
  stripEnrichment (injectEnrichment data map) = data.
Proof.
  intros map Hfree Hlegacy.
  rewrite strip_inject_resolve; [by apply mapStrings_legacyFree| |done].
  apply fetchEnrichmentMap_carriesOwnKey.
Qed.

(** ** The properties on the sample world *)

(** The tree with the holder's address as [owner] is enriched with the
    balance 0.25 and stripped back to itself. *)
Example sampleRun_end_to_end :
  getProp "balance"
    (getProp "owner"
       (injectEnrichment (VObj [("owner", VStr holderAddress)]) sampleRun.1))
  = VStr "0.25"
  ∧ stripEnrichment
      (injectEnrichment (VObj [("owner", VStr holderAddress)]) sampleRun.1)
    = VObj [("owner", VStr holderAddress)].
Proof. by vm_compute. Qed.

(** An entry stored under a key other than its own [pubkey] is not
    restored by strip: the condition on the map cannot be dropped. *)
Example strip_inject_miskeyed :
  stripEnrichment
    (injectEnrichment (VStr holderAddress)
       {[ Some holderAddress := labeledEntry wsolMint "Treasury" ]})
  = VStr wsolMint.
Proof. by vm_compute. Qed.


Lemma token_account_fields_sample :
  scanAccount sampleAtob sampleBs58 [holderAddress] 0 (Some holdingInfo) emptyScan
  = {| tokenAccounts :=
         [{| ta_pubkey := Some holderAddress;
             ta_mint := wsolMint;
             ta_amount := 250000000 |}];
       mintAccounts := [];
       uniqueMints := [Some wsolMint] |}.
Proof.
  destruct (token_account_fields sampleAtob sampleBs58 [holderAddress] 0
              holdingInfo emptyScan) as (Hscan & _ & _).
  - by vm_compute.
  - rewrite Hscan. by vm_compute.
Defined.


(** C7 fails as stated: the response has an entry for the mint, with an
    empty symbol, and the entry built for the mint has the symbol
    Unknown. *)
Lemma token_symbol_not_from_payload :
  (meta_symbol <$> responseMeta (blankSymbolFetch (metadataUrl [Some wsolMint]) ()).1
                   (Some wsolMint))
  = Some (Some EmptyString)
  ∧ getProp "symbol" <$> blankSymbolRun.1 !! Some wsolMint = Some (VStr "Unknown")
  ∧ getProp "symbol" <$> blankSymbolRun.1 !! Some wsolMint ≠ Some (VStr EmptyString).
Proof. split; [by vm_compute|]. split; [by vm_compute|]. vm_compute. discriminate. Qed.

(** C8 fails as stated: the lookup answers the address with a label,
    the empty string, the address has no token or mint entry, and the
    result has no entry for the address. *)
Lemma blank_label_not_recorded :
  (blankGetLabel (Some treasuryAddress) ()).1 = Some EmptyString
  ∧ treasuryAddress ∈ [treasuryAddress]
  ∧ blankLabelRun.1 !! Some treasuryAddress = None.
Proof. split; [done|]. split; [by left|]. by vm_compute. Qed.

Lemma sample_blob_undecodable chunk w infos j info :
  (sampleFetchAccountInfo chunk w).1 = Some infos →
  chunk !! j = Some brokenAddress → infos !! j = Some (Some info) →
  sampleAtob (info_data info).1 = None.
Proof.
  intros [= <-] Hj. rewrite list_lookup_fmap, Hj. simpl.
  intros [= <-]. by vm_compute.
Qed.

Lemma undecodable_blob_unclassified_sample :
  sampleRun.1 !! Some brokenAddress = None
  ∨ ∃ label, sampleRun.1 !! Some brokenAddress = Some (labeledEntry brokenAddress label).
Proof.
  apply (undecodable_blob_unclassified sampleAtob sampleBs58 sampleFetchAccountInfo
           sampleFetch (Some sampleGetLabel) samplePubkeys sampleEnv brokenAddress).
  apply sample_blob_undecodable.
Defined.

Lemma sampleFetchAccountInfo_aligned : alignedService sampleFetchAccountInfo.
Proof. intros chunk w infos [= <-]. by rewrite length_fmap. Qed.

Lemma enrichment_keys_sample :
  is_Some (sampleRun.1 !! Some holderAddress)
  ∧ ∃ a, Some holderAddress = Some a ∧ a ∈ samplePubkeys.
Proof.
  assert (Hsome : is_Some (sampleRun.1 !! Some holderAddress)).
  { apply (bool_decide_unpack _). by vm_compute. }
  split; [done|].
  destruct (enrichment_keys sampleAtob sampleBs58 sampleFetchAccountInfo sampleFetch
              (Some sampleGetLabel) samplePubkeys sampleEnv) as (_ & _ & Hkeys).
  exact (Hkeys sampleFetchAccountInfo_aligned (Some holderAddress) Hsome).
Defined.

(** C10 fails as stated: when the account-info service answers with an
    entry more than it was asked for, the map has the key [undefined],
    which is no input address. *)
Lemma undefined_key_in_map :
  is_Some (overlongRun.1 !! None)
  ∧ ¬ (∀ k, is_Some (overlongRun.1 !! k) → ∃ a, k = Some a ∧ a ∈ [holderAddress]).
Proof.
  assert (Hsome : is_Some (overlongRun.1 !! None)).
  { apply (bool_decide_unpack _). by vm_compute. }
  split; [done|]. intros Hall.
  destruct (Hall None Hsome) as (a & Ha & _). discriminate.
Qed.

(** * Further properties of the code *)

(** ** extractPubkeys *)

Lemma addToSet_spec x acc :
  NoDup acc → NoDup (addToSet x acc) ∧ ∀ s, s ∈ addToSet x acc ↔ s ∈ acc ∨ s = x.
Proof.
  intros Hnd. unfold addToSet. case_decide as Hin.
  - split; [done|]. intros s. split; [by left|]. by intros [?| ->].
  - split.
    + apply NoDup_app. split; [done|]. split; [|apply NoDup_singleton].
      intros s Hs ->%list_elem_of_singleton. done.
    + intros s. rewrite elem_of_app, list_elem_of_singleton. done.
Qed.

Lemma fold_collects {A} (f : A → list string → list string)
    (leaves : A → list string) (items : list A) :
  Forall (collects f leaves) items →
  ∀ acc, NoDup acc →
    NoDup (fold_left (λ a x, f x a) items acc)
    ∧ ∀ s, s ∈ fold_left (λ a x, f x a) items acc
           ↔ s ∈ acc ∨ (s ∈ concat (List.map leaves items)
                        ∧ BASE58_REGEX_test s = true).
Proof.
  induction 1 as [|x l Hx _ IH]; intros acc Hnd; simpl.
  - split; [done|]. intros s. rewrite elem_of_nil. tauto.
  - destruct (Hx acc Hnd) as [Hnd' Hin'].
    destruct (IH (f x acc) Hnd') as [Hnd'' Hin''].
    split; [done|]. intros s. rewrite Hin'', Hin', elem_of_app. tauto.
Qed.

Lemma traverse_collects data : collects traverse stringLeaves data.
Proof.
  induction data as [| | | |s|items IH|props IH] using Value_tree_ind;
    intros acc Hnd; simpl.
  1-4: split; [done|]; intros s; rewrite elem_of_nil; tauto.
  - destruct (BASE58_REGEX_test s) eqn:Ht.
    + destruct (addToSet_spec s acc Hnd) as [Hnd' Hin].
      split; [done|]. intros x. rewrite Hin, list_elem_of_singleton.
      split; [intros [?| ->]; auto|intros [?|[-> _]]; auto].
    + split; [done|]. intros x. rewrite list_elem_of_singleton.
      split; [by left|]. intros [?|[-> ?]]; [done|congruence].
  - by apply (fold_collects traverse stringLeaves).
  - apply (fold_collects (λ kv, traverse kv.2) (λ kv, stringLeaves kv.2)); [|done].
    exact IH.
Qed.

Lemma BASE58_REGEX_test_shape s :
  BASE58_REGEX_test s = true →
  (32 ≤ String.length s ≤ 44)%nat ∧ allBase58 s = true.
Proof.
  unfold BASE58_REGEX_test. rewrite !andb_true_iff, !Nat.leb_le. tauto.
Qed.

Lemma extractPubkeys_elem data s :
  s ∈ extractPubkeys data ↔ s ∈ stringLeaves data ∧ BASE58_REGEX_test s = true.
Proof.
  unfold extractPubkeys.
  destruct (traverse_collects data [] (NoDup_nil_2)) as [_ Hin].
  rewrite Hin, elem_of_nil. tauto.
Qed.

(** X1.  The set that [extractPubkeys] returns holds exactly the string
    leaves of the tree that have the shape of an address: 32 to 44
    characters of the base-58 alphabet.  Each is held once; numbers,
    booleans, null and the names of properties are never collected. *)
Theorem extractPubkeys_spec (data : Value) :
  NoDup (extractPubkeys data)
  ∧ (∀ s, s ∈ extractPubkeys data
          ↔ s ∈ stringLeaves data ∧ BASE58_REGEX_test s = true)
  ∧ (∀ s, s ∈ extractPubkeys data →
          (32 ≤ String.length s ≤ 44)%nat ∧ allBase58 s = true).
Proof.
  split; [|split].
  - apply (traverse_collects data [] (NoDup_nil_2)).
  - apply extractPubkeys_elem.
  - intros s [_ Ht]%extractPubkeys_elem. by apply BASE58_REGEX_test_shape.
Qed.

(** ** What inject and strip leave alone *)

Lemma stringLeaves_item items item s :
  item ∈ items → s ∈ stringLeaves item → s ∈ stringLeaves (VArr items).
Proof.
  intros Hitem Hs. simpl. apply elem_of_concat. exists (stringLeaves item).
  split; [|done]. apply list_elem_of_In, List.in_map, list_elem_of_In. done.
Qed.

Lemma stringLeaves_prop props kv s :
  kv ∈ props → s ∈ stringLeaves kv.2 → s ∈ stringLeaves (VObj props).
Proof.
  intros Hkv Hs. simpl. apply elem_of_concat. exists (stringLeaves kv.2).
  split; [|done].
  apply list_elem_of_In, (List.in_map (λ kv, stringLeaves kv.2)), list_elem_of_In.
  done.
Qed.

Lemma map_id_on {A} (f : A → A) (l : list A) :
  (∀ x, x ∈ l → f x = x) → List.map f l = l.
Proof.
  induction l as [|x l IH]; intros Hf; simpl; [done|].
  rewrite Hf by by left. rewrite IH; [done|]. intros y Hy. apply Hf. by right.
Qed.

Lemma captureToClose_Some s inner :
  captureToClose s = Some inner → s = inner +:+ ")".
Proof.
  revert inner. induction s as [|c s IH]; intros inner; simpl; [done|].
  destruct s as [|d s].
  - case_bool_decide as Hc; [|done]. intros [= <-]. by subst c.
  - destruct (isLineTerminator c); [done|].
    destruct (captureToClose (String d s)) as [i|]; simpl; [|done].
    intros [= <-]. change (String c i +:+ ")") with (String c (i +:+ ")")).
    f_equal. by apply IH.
Qed.

Lemma matchWrapped_Some s inner :
  matchWrapped s = Some inner → ∃ prefix, s = prefix +:+ "(" +:+ inner +:+ ")".
Proof.
  induction s as [|c s IH]; simpl; [done|].
  case_bool_decide as Hc.
  - destruct (captureToClose s) as [i|] eqn:Hi.
    + intros [= <-]. exists EmptyString. simpl. subst c.
      by rewrite (captureToClose_Some s i Hi).
    + intros [prefix ->]%IH. by exists (String c prefix).
  - intros [prefix ->]%IH. by exists (String c prefix).
Qed.

Lemma endsWithClose_closed s : endsWithClose (s +:+ ")") = true.
Proof.
  induction s as [|c s IH]; [done|].
  change (String c s +:+ ")") with (String c (s +:+ ")")).
  destruct s as [|d s]; [done|]. exact IH.
Qed.

Lemma endsWithClose_app prefix inner :
  endsWithClose (prefix +:+ "(" +:+ inner +:+ ")") = true.
Proof.
  induction prefix as [|c p IH].
  - change (endsWithClose (String "(" inner +:+ ")") = true).
    apply endsWithClose_closed.
  - change (String c p +:+ "(" +:+ inner +:+ ")")
      with (String c (p +:+ "(" +:+ inner +:+ ")")).
    destruct p as [|d p]; exact IH.
Qed.

Lemma matchWrapped_endsWithClose s :
  endsWithClose s = false → matchWrapped s = None.
Proof.
  intros Hs. destruct (matchWrapped s) as [inner|] eqn:Hm; [|done].
  apply matchWrapped_Some in Hm as [prefix ->].
  by rewrite endsWithClose_app in Hs.
Qed.

Lemma injectString_untouched map s :
  map !! Some s = None → endsWithClose s = false → injectString s map = VStr s.
Proof.
  intros Hs Hc. unfold injectString. by rewrite Hs, matchWrapped_endsWithClose.
Qed.

Lemma injectEnrichment_untouched map data :
  (∀ s, s ∈ stringLeaves data → map !! Some s = None ∧ endsWithClose s = false) →
  injectEnrichment data map = data.
Proof.
  induction data as [| | | |s|items IH|props IH] using Value_tree_ind;
    intros Hleaves; simpl; try done.
  - destruct (Hleaves s) as [Hs Hc]; [by left|]. by apply injectString_untouched.
  - f_equal. apply map_id_on. intros item Hitem.
    rewrite Forall_forall in IH. apply IH; [done|].
    intros s Hs. apply Hleaves. by apply stringLeaves_item with item.
  - f_equal. apply map_id_on. intros [k v] Hkv. simpl. f_equal.
    rewrite Forall_forall in IH. apply (IH (k, v) Hkv).
    intros s Hs. apply Hleaves. by apply stringLeaves_prop with (k, v).
Qed.

Lemma injectEnrichment_empty data : injectEnrichment data ∅ = data.
Proof.
  induction data as [| | | |s|items IH|props IH] using Value_tree_ind;
    simpl; try done.
  - unfold injectString. rewrite lookup_empty.
    destruct (matchWrapped s); by rewrite ?lookup_empty.
  - f_equal. apply map_id_on. by apply Forall_forall.
  - f_equal. apply map_id_on. rewrite Forall_forall in IH.
    intros [k v] Hkv. simpl. f_equal. by apply (IH (k, v)).
Qed.

Lemma stripEnrichment_annotationFree data :
  annotationFree data = true → stripEnrichment data = data.
Proof.
  induction data as [| | | |s|items IH|props IH] using Value_tree_ind;
    simpl; intros Hfree; try done.
  - f_equal. rewrite <- (List.map_id items) at 2.
    by apply map_agree_guarded with annotationFree.
  - apply andb_prop in Hfree as [Hne Hfree]. apply negb_true_iff in Hne.
    rewrite Hne. f_equal. rewrite <- (List.map_id props) at 2.
    apply map_agree_guarded with (λ kv, annotationFree kv.2); [|done].
    eapply Forall_impl; [exact IH|]. simpl. intros [k v] Hv Hg. f_equal. auto.
Qed.

(** X2.  Inject replaces a string only when it is a key of the map, or
    ends in a parenthesised key of the map.  A tree none of whose
    string leaves is a key or ends in a closing parenthesis comes back
    unchanged, and so does every tree under the empty map. *)
Theorem injectEnrichment_replaces_only (map : gmap JsKey Value) (data : Value) :
  (∀ s, injectEnrichment (VStr s) map ≠ VStr s →
        is_Some (map !! Some s)
        ∨ ∃ prefix inner, s = prefix +:+ "(" +:+ inner +:+ ")"
                          ∧ is_Some (map !! Some inner))
  ∧ ((∀ s, s ∈ stringLeaves data →
           map !! Some s = None ∧ endsWithClose s = false) →
     injectEnrichment data map = data)
  ∧ injectEnrichment data ∅ = data.
Proof.
  split; [|split; [apply injectEnrichment_untouched|apply injectEnrichment_empty]].
  intros s Hs. simpl in Hs. unfold injectString in Hs.
  destruct (map !! Some s) as [a|] eqn:Ha; [left; eauto|].
  destruct (matchWrapped s) as [inner|] eqn:Hm; [|done].
  destruct (map !! Some inner) as [a|] eqn:Hi; [|done].
  right. apply matchWrapped_Some in Hm as [prefix ->]. eauto.
Qed.


Lemma stripEnrichment_inject_annotationFree map data :
  carriesOwnKey map → annotationFree data = true →
  (∀ s, s ∈ stringLeaves data → endsWithClose s = false) →
  stripEnrichment (injectEnrichment data map) = data.
Proof.
  intros Hwf Hfree Hclose. rewrite strip_inject_resolve by done.
  clear Hfree.
  induction data as [| | | |s|items IH|props IH] using Value_tree_ind;
    simpl; try done.
  - unfold resolveLeaf. destruct (map !! Some s); [done|].
    rewrite matchWrapped_endsWithClose; [done|]. apply Hclose. by left.
  - f_equal. apply map_id_on. intros item Hitem.
    rewrite Forall_forall in IH. apply IH; [done|].
    intros s Hs. apply Hclose. by apply stringLeaves_item with item.
  - f_equal. apply map_id_on. intros [k v] Hkv. simpl. f_equal.
    rewrite Forall_forall in IH. apply (IH (k, v) Hkv).
    intros s Hs. apply Hclose. by apply stringLeaves_prop with (k, v).
Qed.

(** ** The enrichment step of the hook *)

Section PipelineFacts.
Context {World : Type}.
Variable atob : string → option string.
Variable bs58_encode : list byte → string.
Variable fetchAccountInfo :
  list string → World → option (list (option AccountInfo)) * World.
Variable fetch : string → World → FetchResult * World.
Variable getLabel : option (JsKey → World → option string * World).

Lemma enrichRaw_result raw (env : Env) :
  let enrichMap :=
    (fetchEnrichmentMap atob bs58_encode fetchAccountInfo fetch getLabel
       (extractPubkeys raw) env).1 in
  (enrichRaw atob bs58_encode fetchAccountInfo fetch getLabel raw env).1
  = (enrichMap, injectEnrichment raw enrichMap).
Proof.
  unfold enrichRaw, mbind, mret. unfold Eff_bind, Eff_ret.
  by destruct (fetchEnrichmentMap _ _ _ _ _ _ env).
Qed.

(** X3.  In the enrichment step of the hook, when the account-info
    service answers with at most one entry per address, every key of
    the map kept in the state is a string leaf of the decoded tree that
    has the shape of an address; the map holds no [undefined] key and
    no mint address that the tree does not show. *)
Theorem enrichRaw_keys (raw : Value) (env : Env) (k : JsKey) :
  alignedService fetchAccountInfo →
  is_Some ((enrichRaw atob bs58_encode fetchAccountInfo fetch getLabel raw env).1.1
             !! k) →
  ∃ a, k = Some a ∧ a ∈ stringLeaves raw
       ∧ (32 ≤ String.length a ≤ 44)%nat ∧ allBase58 a = true.
Proof.
  intros Haligned. rewrite enrichRaw_result. simpl.
  assert (Hleaf : ∀ a, a ∈ extractPubkeys raw →
            ∃ a', Some a = Some a' ∧ a' ∈ stringLeaves raw
                  ∧ (32 ≤ String.length a' ≤ 44)%nat ∧ allBase58 a' = true).
  { intros a [Ha Hshape]%extractPubkeys_elem. exists a.
    split; [done|]. split; [done|]. by apply BASE58_REGEX_test_shape. }
  apply (fetchEnrichmentMap_keys atob bs58_encode fetchAccountInfo fetch getLabel
           (λ k, ∃ a, k = Some a ∧ a ∈ stringLeaves raw
                      ∧ (32 ≤ String.length a ≤ 44)%nat ∧ allBase58 a = true));
    [done|].
  intros chunk w kind k' Hchunk Hscan.
  destruct (scanned_key atob chunk _ k' kind Hscan) as [[_ Hlen]|(a & -> & Ha)].
  - pose proof (chunkInfosOf_aligned fetchAccountInfo chunk w Haligned). lia.
  - apply Hleaf. by apply (chunkBy_elem 100 _ chunk); [lia| |].
Qed.

(** X4.  The tree that the hook shows can always be turned back into
    the decoded tree: when the decoded tree holds no enriched object and
    none of its strings ends in a closing parenthesis, stripping the
    enriched tree gives the decoded tree, whatever the services
    answered.  The same holds for a historic snapshot injected with the
    map kept from the live fetch. *)
Theorem enrichRaw_strip (raw historic : Value) (env : Env) :
  let result :=
    (enrichRaw atob bs58_encode fetchAccountInfo fetch getLabel raw env).1 in
  (annotationFree raw = true →
   (∀ s, s ∈ stringLeaves raw → endsWithClose s = false) →
   stripEnrichment result.2 = raw)
  ∧ (annotationFree historic = true →
     (∀ s, s ∈ stringLeaves historic → endsWithClose s = false) →
     stripEnrichment (injectEnrichment historic result.1) = historic).
Proof.
  intros result. unfold result. rewrite enrichRaw_result. simpl.
  split; intros Hfree Hclose;
    (apply stripEnrichment_inject_annotationFree; [|done|done]);
    apply fetchEnrichmentMap_carriesOwnKey.
Qed.
End PipelineFacts.


Lemma injectEnrichment_replaces_only_sample :
  injectEnrichment (VArr [VStr "plain"; VNum 5]) sampleMap
  = VArr [VStr "plain"; VNum 5].
Proof.
  destruct (injectEnrichment_replaces_only sampleMap (VArr [VStr "plain"; VNum 5]))
    as (_ & Hsame & _).
  apply Hsame. intros s Hs.
  apply list_elem_of_In in Hs. simpl in Hs. destruct Hs as [<-|[]].
  split; by vm_compute.
Defined.

Lemma enrichRaw_keys_sample :
  ∃ a, Some holderAddress = Some a ∧ a ∈ stringLeaves sampleRaw
       ∧ (32 ≤ String.length a ≤ 44)%nat ∧ allBase58 a = true.
Proof.
  apply (enrichRaw_keys sampleAtob sampleBs58 sampleFetchAccountInfo sampleFetch
           (Some sampleGetLabel) sampleRaw sampleEnv (Some holderAddress)).
  - apply sampleFetchAccountInfo_aligned.
  - apply (bool_decide_unpack _). by vm_compute.
Defined.

Lemma enrichRaw_strip_sample :
  stripEnrichment sampleEnrichRaw.1.2 = sampleRaw
  ∧ stripEnrichment (injectEnrichment sampleHistoric sampleEnrichRaw.1.1)
    = sampleHistoric.
Proof.
  destruct (enrichRaw_strip sampleAtob sampleBs58 sampleFetchAccountInfo sampleFetch
              (Some sampleGetLabel) sampleRaw sampleHistoric sampleEnv)
    as [Hraw Hhistoric].
  split.
  - apply Hraw; [by vm_compute|].
    intros s Hs. apply list_elem_of_In in Hs. simpl in Hs.
    destruct Hs as [<-|[<-|[<-|[<-|[<-|[]]]]]]; by vm_compute.
  - apply Hhistoric; [by vm_compute|].
    intros s Hs. apply list_elem_of_In in Hs. simpl in Hs.
    destruct Hs as [<-|[<-|[<-|[]]]]; by vm_compute.
Defined.

(** ** The calls that the builder makes *)

Section CallFacts.
Context {World : Type}.
Variable atob : string → option string.
Variable bs58_encode : list byte → string.
Variable fetchAccountInfo :
  list string → World → option (list (option AccountInfo)) * World.
Variable fetch : string → World → FetchResult * World.
Variable getLabel : option (JsKey → World → option string * World).
Variable P : Event → Prop.

Lemma addsOnly_ret {A} (x : A) : addsOnly (World := World) P (Eff_ret A x).
Proof. intros env. exists []. by rewrite app_nil_r. Qed.

Lemma addsOnly_bind {A B} (m : @Eff World A) (f : A → @Eff World B) :
  addsOnly P m → (∀ x, addsOnly P (f x)) → addsOnly P (Eff_bind A B f m).
Proof.
  intros Hm Hf env. rewrite bind_run.
  destruct (Hm env) as (ext1 & Ht1 & HP1).
  destruct (Hf (m env).1 (m env).2) as (ext2 & Ht2 & HP2).
  exists (ext1 ++ ext2). rewrite Ht2, Ht1, (assoc_L (++)).
  split; [done|]. by apply Forall_app.
Qed.

Lemma addsOnly_forEach {A S} (body : A → S → @Eff World S) l :
  (∀ x s, x ∈ l → addsOnly P (body x s)) → ∀ s, addsOnly P (forEach body l s).
Proof.
  induction l as [|x l IH]; intros Hbody s.
  - apply addsOnly_ret.
  - apply addsOnly_bind.
    + apply Hbody. by left.
    + intros s'. apply IH. intros y s'' Hy. apply Hbody. by right.
Qed.

Lemma addsOnly_callFetch url :
  (∀ url r, P (EvFetch url r)) → addsOnly P (callFetch fetch url).
Proof.
  intros Hf env. unfold callFetch. destruct (fetch url (world env)) as [r w].
  exists [EvFetch url r]. split; [done|]. by apply Forall_singleton.
Qed.

Lemma addsOnly_callGetLabel g pubkey :
  (∀ k r, P (EvLabel k r)) → addsOnly (World := World) P (callGetLabel g pubkey).
Proof.
  intros Hl env. unfold callGetLabel. destruct (g pubkey (world env)) as [r w].
  exists [EvLabel pubkey r]. split; [done|]. by apply Forall_singleton.
Qed.

Lemma addsOnly_fetchMetadata mintsList :
  (∀ url r, P (EvFetch url r)) → addsOnly P (fetchMetadata fetch mintsList).
Proof.
  intros Hf. unfold fetchMetadata. apply addsOnly_forEach.
  intros apiChunk m _. unfold fetchBatch. apply addsOnly_bind.
  - by apply addsOnly_callFetch.
  - intros res. apply addsOnly_ret.
Qed.

Lemma addsOnly_labelOf pubkey :
  (is_Some getLabel → ∀ k r, P (EvLabel k r)) →
  addsOnly (World := World) P (labelOf getLabel pubkey).
Proof.
  intros Hl. unfold labelOf. destruct getLabel as [g|].
  - apply addsOnly_callGetLabel. by apply Hl.
  - apply addsOnly_ret.
Qed.

Lemma addsOnly_labelPubkey g pubkey m :
  (∀ k r, P (EvLabel k r)) → addsOnly (World := World) P (labelPubkey g pubkey m).
Proof.
  intros Hl. unfold labelPubkey. destruct (m !! Some pubkey) as [existing|].
  - destruct (truthy existing); [|apply addsOnly_ret].
    apply addsOnly_bind; [by apply addsOnly_callGetLabel|].
    intros label. apply addsOnly_ret.
  - apply addsOnly_bind; [by apply addsOnly_callGetLabel|].
    intros label. apply addsOnly_ret.
Qed.

(** What follows the account-info request in the body of the loop over
    chunks. *)
Lemma addsOnly_chunk_rest chunk r m :
  (∀ url r, P (EvFetch url r)) →
  (is_Some getLabel → ∀ k r, P (EvLabel k r)) →
  let scan := scanChunk atob bs58_encode chunk (chunkInfosOf chunk r) in
  addsOnly P
    (if decide (length (uniqueMints scan) = 0%nat) then Eff_ret _ m
     else
       Eff_bind _ _
         (λ mintInfoMap,
            Eff_bind _ _
              (λ m', forEach (enrichMintAccount getLabel mintInfoMap)
                       (mintAccounts scan) m')
              (forEach (enrichTokenAccount getLabel mintInfoMap)
                 (tokenAccounts scan) m))
         (fetchMetadata fetch (uniqueMints scan))).
Proof.
  intros Hf Hl scan. case_decide; [apply addsOnly_ret|].
  apply addsOnly_bind; [by apply addsOnly_fetchMetadata|].
  intros mintInfoMap. apply addsOnly_bind.
  - apply addsOnly_forEach. intros ta m' _. unfold enrichTokenAccount.
    apply addsOnly_bind; [by apply addsOnly_labelOf|].
    intros label. apply addsOnly_ret.
  - intros m'. apply addsOnly_forEach. intros k m'' _. unfold enrichMintAccount.
    apply addsOnly_bind; [by apply addsOnly_labelOf|].
    intros label. apply addsOnly_ret.
Qed.

Lemma processChunk_trace chunk m (env : Env) :
  (∀ url r, P (EvFetch url r)) →
  (is_Some getLabel → ∀ k r, P (EvLabel k r)) →
  ∃ ext,
    trace (processChunk atob bs58_encode fetchAccountInfo fetch getLabel
             chunk m env).2
    = trace env ++ EvAccountInfo chunk (fetchAccountInfo chunk (world env)).1 :: ext
    ∧ Forall P ext.
Proof.
  intros Hf Hl. unfold processChunk, mbind. rewrite bind_run.
  set (env1 := (callFetchAccountInfo fetchAccountInfo chunk env).2).
  set (r := (callFetchAccountInfo fetchAccountInfo chunk env).1).
  assert (Hr : r = (fetchAccountInfo chunk (world env)).1)
    by apply callFetchAccountInfo_result.
  assert (Ht : trace env1 = trace env ++ [EvAccountInfo chunk r]).
  { unfold env1, r, callFetchAccountInfo.
    by destruct (fetchAccountInfo chunk (world env)). }
  destruct (addsOnly_chunk_rest chunk r m Hf Hl env1) as (ext & Hext & HP).
  exists ext. split; [|done].
  unfold mret in *. rewrite Hext, Ht, <- Hr, <- (assoc_L (++)). done.
Qed.
End CallFacts.

Lemma omap_none {A B} (f : A → option B) (l : list A) :
  Forall (λ x, f x = None) l → omap f l = [].
Proof.
  induction 1 as [|x l Hx _ IH]; [done|]. simpl. by rewrite Hx.
Qed.

Section CallSequence.
Context {World : Type}.
Variable atob : string → option string.
Variable bs58_encode : list byte → string.
Variable fetchAccountInfo :
  list string → World → option (list (option AccountInfo)) * World.
Variable fetch : string → World → FetchResult * World.
Variable getLabel : option (JsKey → World → option string * World).

Lemma chunkLoop_accountInfoCalls chunks m (env : Env) :
  accountInfoCalls
    (trace (forEach (processChunk atob bs58_encode fetchAccountInfo fetch getLabel)
              chunks m env).2)
  = accountInfoCalls (trace env) ++ chunks.
Proof.
  revert m env. induction chunks as [|chunk chunks IH]; intros m env.
  - by rewrite app_nil_r.
  - rewrite forEach_cons, IH.
    destruct (processChunk_trace atob bs58_encode fetchAccountInfo fetch getLabel
                (λ e, match e with EvAccountInfo c _ => Some c | _ => None end = None)
                chunk m env) as (ext & -> & Hext); [done|done|].
    change (EvAccountInfo chunk ?r :: ext) with ([EvAccountInfo chunk r] ++ ext).
    unfold accountInfoCalls. rewrite !omap_app, (omap_none _ ext Hext).
    simpl. by rewrite <- (assoc_L (++)).
Qed.

(** X5.  The builder asks the account-info service for every address of
    its input exactly once: the requests it makes are the slices of
    the input of 100 addresses each, the last one shorter, in the order
    of the input, whatever the services answer and whether or not a
    label lookup is given.  No request is empty and none is repeated
    after a failure. *)
Theorem fetchEnrichmentMap_accountInfoCalls (pubkeys : list string) (env : Env) :
  let after :=
    (fetchEnrichmentMap atob bs58_encode fetchAccountInfo fetch getLabel
       pubkeys env).2 in
  accountInfoCalls (trace after)
  = accountInfoCalls (trace env) ++ chunkBy 100 pubkeys
  ∧ concat (chunkBy 100 pubkeys) = pubkeys
  ∧ Forall (λ chunk, 0 < length chunk ≤ 100)%nat (chunkBy 100 pubkeys).
Proof.
  intros after. split; [|split; [apply chunkBy_concat; lia|apply chunkBy_bounds; lia]].
  unfold after, fetchEnrichmentMap. case_decide as Hlen.
  - destruct pubkeys; [|done]. simpl. by rewrite app_nil_r.
  - unfold mbind. rewrite bind_run.
    set (chunked := forEach _ (chunkBy 100 pubkeys) ∅ env).
    assert (Hchunked : accountInfoCalls (trace chunked.2)
                       = accountInfoCalls (trace env) ++ chunkBy 100 pubkeys)
      by apply chunkLoop_accountInfoCalls.
    destruct getLabel as [g|]; [|done].
    destruct (addsOnly_forEach
                (λ e, match e with EvAccountInfo c _ => Some c | _ => None end = None)
                (labelPubkey g) pubkeys
                (λ x s _, addsOnly_labelPubkey _ g x s (λ _ _, eq_refl))
                chunked.1 chunked.2) as (ext & -> & Hext).
    unfold accountInfoCalls in *. rewrite omap_app, (omap_none _ ext Hext).
    by rewrite app_nil_r.
Qed.

Lemma scanFrom_nulls chunk chunkInfos :
  Forall (λ info, info = None) chunkInfos →
  ∀ j acc, scanFrom atob bs58_encode chunk j chunkInfos acc = acc.
Proof.
  induction 1 as [|info rest -> _ IH]; intros j acc; [done|]. simpl. apply IH.
Qed.

Lemma processChunk_nulls chunk m (env : Env) :
  Forall (λ info, info = None)
    (chunkInfosOf chunk (fetchAccountInfo chunk (world env)).1) →
  let after :=
    processChunk atob bs58_encode fetchAccountInfo fetch getLabel chunk m env in
  after.1 = m ∧ fetchCalls (trace after.2) = fetchCalls (trace env)
  ∧ labelCalls (trace after.2) = labelCalls (trace env).
Proof.
  intros Hnull after. unfold after, processChunk, mbind. rewrite bind_run.
  rewrite callFetchAccountInfo_result.
  unfold scanChunk. rewrite scanFrom_nulls by done. simpl.
  unfold callFetchAccountInfo. destruct (fetchAccountInfo chunk (world env)) as [r w].
  simpl. unfold fetchCalls, labelCalls. rewrite !omap_app. simpl.
  by rewrite !app_nil_r.
Qed.

Lemma chunkLoop_nulls chunks :
  (∀ chunk w, chunk ∈ chunks →
     Forall (λ info, info = None) (chunkInfosOf chunk (fetchAccountInfo chunk w).1)) →
  ∀ m (env : Env),
    let after :=
      forEach (processChunk atob bs58_encode fetchAccountInfo fetch getLabel)
        chunks m env in
    after.1 = m ∧ fetchCalls (trace after.2) = fetchCalls (trace env)
    ∧ labelCalls (trace after.2) = labelCalls (trace env).
Proof.
  induction chunks as [|chunk chunks IH]; intros Hnull m env; [done|].
  cbv zeta. rewrite forEach_cons.
  destruct (processChunk_nulls chunk m env) as (Hm & Hf & Hl).
  { apply Hnull. by left. }
  destruct (IH (λ c w Hc, Hnull c w (list_elem_of_further _ _ _ Hc))
              (processChunk atob bs58_encode fetchAccountInfo fetch getLabel
                 chunk m env).1
              (processChunk atob bs58_encode fetchAccountInfo fetch getLabel
                 chunk m env).2) as (Hm' & Hf' & Hl').
  simpl in *. rewrite Hm', Hf', Hl'. done.
Qed.

(** X6.  When every account-info request is rejected or answers null
    for every address, the builder makes no metadata request.  Without
    a label lookup it returns the empty map; with one, every entry of
    the map is a labeled entry whose key is an address of the input. *)
Theorem fetchEnrichmentMap_no_accounts (pubkeys : list string) (env : Env) :
  (∀ chunk w, chunk ∈ chunkBy 100 pubkeys →
     Forall (λ info, info = None) (chunkInfosOf chunk (fetchAccountInfo chunk w).1)) →
  let result :=
    fetchEnrichmentMap atob bs58_encode fetchAccountInfo fetch getLabel
      pubkeys env in
  fetchCalls (trace result.2) = fetchCalls (trace env)
  ∧ (getLabel = None → result.1 = ∅)
  ∧ ∀ k v, result.1 !! k = Some v →
      ∃ a label, k = Some a ∧ a ∈ pubkeys ∧ label ≠ EmptyString
                 ∧ v = labeledEntry a label.
Proof.
  intros Hnull result. unfold result, fetchEnrichmentMap. case_decide as Hlen.
  { split; [done|]. split; [done|]. intros k v. simpl. by rewrite lookup_empty. }
  unfold mbind. rewrite bind_run.
  destruct (chunkLoop_nulls (chunkBy 100 pubkeys) Hnull ∅ env) as (Hm & Hf & _).
  simpl in Hm, Hf. rewrite Hm.
  set (env1 := (forEach _ (chunkBy 100 pubkeys) ∅ env).2) in *.
  destruct getLabel as [g|].
  - split; [|split; [done|]].
    + destruct (addsOnly_forEach
                  (λ e, match e with EvFetch u _ => Some u | _ => None end = None)
                  (labelPubkey g) pubkeys
                  (λ x s _, addsOnly_labelPubkey _ g x s (λ _ _, eq_refl))
                  ∅ env1) as (ext & -> & Hext).
      unfold fetchCalls in *. rewrite omap_app, (omap_none _ ext Hext).
      by rewrite app_nil_r.
    + apply (forEach_invariant
               (λ m : gmap JsKey Value, ∀ k v, m !! k = Some v →
                  ∃ a label, k = Some a ∧ a ∈ pubkeys ∧ label ≠ EmptyString
                             ∧ v = labeledEntry a label)).
      * intros p m env' Hp Hinv k v.
        destruct (labelPubkey_result g p m env') as [->|[-> _]]; [|apply Hinv].
        unfold labelEffect.
        destruct (m !! Some p) as [existing|] eqn:He.
        -- destruct (Hinv _ _ He) as (a & label & [= <-] & _ & Hne & ->).
           simpl. destruct (truthyStr _) eqn:Ht; [|apply Hinv].
           destruct (decide (k = Some p)) as [->|Hk].
           ++ rewrite lookup_insert_eq. intros [= <-].
              destruct (g (Some p) (world env')).1 as [l|]; [|done].
              exists p, l. split; [done|]. split; [done|].
              split; [|done]. intros ->. done.
           ++ rewrite lookup_insert_ne by done. apply Hinv.
        -- destruct (truthyStr _) eqn:Ht; [|apply Hinv].
           destruct (decide (k = Some p)) as [->|Hk].
           ++ rewrite lookup_insert_eq. intros [= <-].
              destruct (g (Some p) (world env')).1 as [l|]; [|done].
              exists p, l. split; [done|]. split; [done|].
              split; [|done]. intros ->. done.
           ++ rewrite lookup_insert_ne by done. apply Hinv.
      * intros k v. by rewrite lookup_empty.
  - split; [done|]. split; [done|]. intros k v. simpl. by rewrite lookup_empty.
Qed.

(** X7.  Without a label lookup the builder makes no label call, and
    every entry of the map is a token entry whose label is undefined. *)
Theorem fetchEnrichmentMap_without_labels (pubkeys : list string) (env : Env) :
  let result :=
    fetchEnrichmentMap atob bs58_encode fetchAccountInfo fetch None pubkeys env in
  labelCalls (trace result.2) = labelCalls (trace env)
  ∧ ∀ k v, result.1 !! k = Some v →
      getProp "__type" v = VStr "token" ∧ getProp "label" v = VUndefined
      ∧ getProp "pubkey" v = keyValue k.
Proof.
  intros result. unfold result, fetchEnrichmentMap. case_decide as Hlen.
  { split; [done|]. intros k v. simpl. by rewrite lookup_empty. }
  unfold mbind. rewrite bind_run. split.
  - destruct (addsOnly_forEach
                (λ e, match e with EvLabel p _ => Some p | _ => None end = None)
                (processChunk atob bs58_encode fetchAccountInfo fetch None)
                (chunkBy 100 pubkeys)) with (s := (∅ : gmap JsKey Value)) (env := env)
      as (ext & Hext & Hnone).
    + intros chunk m _ env'.
      destruct (processChunk_trace atob bs58_encode fetchAccountInfo fetch None
                  (λ e, match e with EvLabel p _ => Some p | _ => None end = None)
                  chunk m env') as (ext & Hext & Hnone); [done|by intros [? ?]|].
      eexists. split; [exact Hext|]. by apply Forall_cons.
    + simpl. rewrite Hext. unfold labelCalls. rewrite omap_app, (omap_none _ ext Hnone).
      by rewrite app_nil_r.
  - simpl.
    set (I := λ m : gmap JsKey Value, ∀ k v, m !! k = Some v →
                getProp "__type" v = VStr "token" ∧ getProp "label" v = VUndefined
                ∧ getProp "pubkey" v = keyValue k).
    apply (forEach_invariant I); [|intros k v; by rewrite lookup_empty].
    intros chunk m env' _ Hm.
    unfold processChunk, mbind. rewrite bind_run.
    case_decide as Hu; [done|].
    rewrite !bind_run.
    apply (forEach_invariant I).
    + intros mint m' env'' _ Hm' k v.
      change ((enrichMintAccount None ?mim mint m' env'').1)
        with (<[mint := mintAccountEntry mint (resolveInfo mim mint) None]> m').
      destruct (decide (mint = k)) as [<-|Hne];
        [|rewrite lookup_insert_ne by done; apply Hm'].
      rewrite lookup_insert_eq. by intros [= <-].
    + apply (forEach_invariant I); [|done].
      intros ta m' env'' _ Hm' k v.
      change ((enrichTokenAccount None ?mim ta m' env'').1)
        with (<[ta_pubkey ta :=
                  tokenAccountEntry ta (resolveInfo mim (Some (ta_mint ta)))
                    (finalAmt (formatAmount (ta_amount ta)
                       (mi_decimals (resolveInfo mim (Some (ta_mint ta)))))) None]> m').
      destruct (decide (ta_pubkey ta = k)) as [<-|Hne];
        [|rewrite lookup_insert_ne by done; apply Hm'].
      rewrite lookup_insert_eq. by intros [= <-].
Qed.
End CallSequence.

Lemma fetchEnrichmentMap_no_accounts_sample :
  fetchCalls (trace failingRun.2) = []
  ∧ ∀ k v, failingRun.1 !! k = Some v →
      ∃ a label, k = Some a ∧ a ∈ samplePubkeys ∧ label ≠ EmptyString
                 ∧ v = labeledEntry a label.
Proof.
  destruct (fetchEnrichmentMap_no_accounts sampleAtob sampleBs58
              failingFetchAccountInfo sampleFetch (Some sampleGetLabel)
              samplePubkeys sampleEnv) as (Hcalls & _ & Hentries).
  - intros chunk w _. simpl. by apply Forall_replicate.
  - split; [exact Hcalls|exact Hentries].
Defined.

(** ** The scan of a chunk *)

Lemma setAdd_spec x s :
  NoDup s → NoDup (setAdd x s) ∧ ∀ k, k ∈ setAdd x s ↔ k ∈ s ∨ k = x.
Proof.
  intros Hnd. unfold setAdd. case_decide as Hx.
  - split; [done|]. intros k. split; [by left|]. by intros [?| ->].
  - split.
    + apply NoDup_app. split; [done|]. split; [|apply NoDup_singleton].
      intros k Hk ->%list_elem_of_singleton. done.
    + intros k. by rewrite elem_of_app, list_elem_of_singleton.
Qed.

Section ScanFacts.
Variable atob : string → option string.
Variable bs58_encode : list byte → string.

Lemma scanAccount_mints chunk j info acc :
  mintsCollected acc →
  let acc' := scanAccount atob bs58_encode chunk j info acc in
  mintsCollected acc'
  ∧ (length (tokenAccounts acc') + length (mintAccounts acc')
     ≤ S (length (tokenAccounts acc) + length (mintAccounts acc)))%nat.
Proof.
  intros (Hnd & Hmem & Hlen) acc'. unfold acc', scanAccount.
  destruct info as [info|]; [|split; [done|lia]].
  case_decide as Ho; [|split; [done|lia]].
  destruct (classifyBuffer _ _); simpl; [| |split; [done|lia]].
  - set (mint := bs58_encode _).
    destruct (setAdd_spec (Some mint) (uniqueMints acc) Hnd) as [Hnd' Hmem'].
    split; [|rewrite length_app; simpl; lia].
    split; [done|]. simpl. split.
    + intros k. rewrite Hmem', Hmem. split.
      * intros [[(ta & Hta & ->)|Hk]| ->].
        -- left. exists ta. split; [|done]. apply elem_of_app. by left.
        -- by right.
        -- left. eexists. split; [apply elem_of_app; right; by left|done].
      * intros [(ta & [Hta| ->%list_elem_of_singleton]%elem_of_app & ->)|Hk].
        -- left. left. eauto.
        -- by right.
        -- left. by right.
    + unfold setAdd. case_decide; rewrite ?length_app; simpl; lia.
  - destruct (setAdd_spec (chunk !! j) (uniqueMints acc) Hnd) as [Hnd' Hmem'].
    split; [|rewrite length_app; simpl; lia].
    split; [done|]. simpl. split.
    + intros k. rewrite Hmem', Hmem, elem_of_app, list_elem_of_singleton. tauto.
    + unfold setAdd. case_decide; rewrite ?length_app; simpl; lia.
Qed.

Lemma scanFrom_mints chunk chunkInfos :
  ∀ j acc,
    mintsCollected acc →
    let acc' := scanFrom atob bs58_encode chunk j chunkInfos acc in
    mintsCollected acc'
    ∧ (length (tokenAccounts acc') + length (mintAccounts acc')
       ≤ length chunkInfos + (length (tokenAccounts acc) + length (mintAccounts acc)))%nat.
Proof.
  induction chunkInfos as [|info rest IH]; intros j acc Hacc; simpl; [split; [done|lia]|].
  destruct (scanAccount_mints chunk j info acc Hacc) as [Hinv Hlen].
  destruct (IH (S j) _ Hinv) as [Hinv' Hlen']. split; [done|]. simpl in *. lia.
Qed.

(** X8.  The set of mints for which a chunk asks metadata holds, once
    each, exactly the mints of the token accounts that the scan found
    and the addresses of the mint accounts it found.  The scan files
    at most one account per entry of the answer. *)
Theorem scanChunk_uniqueMints (chunk : list string)
    (chunkInfos : list (option AccountInfo)) :
  let scan := scanChunk atob bs58_encode chunk chunkInfos in
  NoDup (uniqueMints scan)
  ∧ (∀ k, k ∈ uniqueMints scan ↔
          (∃ ta, ta ∈ tokenAccounts scan ∧ k = Some (ta_mint ta))
          ∨ k ∈ mintAccounts scan)
  ∧ (length (uniqueMints scan)
     ≤ length (tokenAccounts scan) + length (mintAccounts scan))%nat
  ∧ (length (tokenAccounts scan) + length (mintAccounts scan)
     ≤ length chunkInfos)%nat.
Proof.
  intros scan.
  destruct (scanFrom_mints chunk chunkInfos 0
              {| tokenAccounts := []; mintAccounts := []; uniqueMints := [] |})
    as [(Hnd & Hmem & Hlen) Hbound].
  - split; [apply NoDup_nil_2|]. split; [|simpl; lia].
    intros k. simpl. split; [by intros ?%elem_of_nil|].
    intros [(ta & ?%elem_of_nil & _)|?%elem_of_nil]; done.
  - cbv zeta in Hbound. cbn [tokenAccounts mintAccounts length] in Hbound.
    rewrite Nat.add_0_r in Hbound.
    split; [exact Hnd|]. split; [exact Hmem|]. split; [exact Hlen|exact Hbound].
Qed.
End ScanFacts.

(** ** The amount text loses nothing *)

Lemma append_cons c (a b : string) : String c a +:+ b = String c (a +:+ b).
Proof. reflexivity. Qed.

Lemma stripTrailingZeros_refill s :
  stripTrailingZeros s
    +:+ repeatChar (String.length s - String.length (stripTrailingZeros s)) "0"
  = s.
Proof.
  induction s as [|c rest IH]; [done|].
  cbn [stripTrailingZeros].
  destruct (bool_decide (c = "0"%char) && bool_decide (stripTrailingZeros rest = EmptyString))
    eqn:Hc.
  - apply andb_prop in Hc as [Hc Hr].
    apply bool_decide_eq_true in Hc as ->. apply bool_decide_eq_true in Hr.
    rewrite Hr in IH. rewrite Nat.sub_0_r in IH.
    change (String "0" (repeatChar (String.length rest) "0") = String "0" rest).
    f_equal. exact IH.
  - rewrite append_cons. cbn [String.length Nat.sub]. by rewrite IH.
Qed.

Lemma parseDecimal_leading_zeros n s :
  parseDecimal 0 (repeatChar n "0" +:+ s) = parseDecimal 0 s.
Proof. induction n as [|n IH]; [done|]. exact IH. Qed.

Lemma parseDecimal_zeros n : parseDecimal 0 (repeatChar n "0") = 0%N.
Proof. induction n as [|n IH]; [done|]. exact IH. Qed.

Lemma allDigits_repeat_zero n : allDigits (repeatChar n "0") = true.
Proof. induction n; [done|]. exact IHn. Qed.

Lemma allDigits_app a b :
  allDigits a = true → allDigits b = true → allDigits (a +:+ b) = true.
Proof.
  induction a as [|c a IH]; [done|]. rewrite append_cons. cbn [allDigits].
  intros [Hc Ha]%andb_prop Hb. rewrite Hc. by apply IH.
Qed.

Lemma allDigits_stripTrailingZeros s :
  allDigits s = true → allDigits (stripTrailingZeros s) = true.
Proof.
  induction s as [|c s IH]; [done|]. cbn. intros [Hc Hs]%andb_prop.
  destruct (_ && _); [done|]. cbn. rewrite Hc. by apply IH.
Qed.

Lemma removeCommas_digits s : allDigits s = true → removeCommas s = s.
Proof.
  induction s as [|c s IH]; [done|]. cbn. intros [Hc Hs]%andb_prop.
  rewrite bool_decide_eq_false_2 by (by intros ->). by rewrite IH.
Qed.

Lemma removeCommas_app a b :
  removeCommas (a +:+ b) = removeCommas a +:+ removeCommas b.
Proof.
  induction a as [|c a IH]; [done|]. rewrite append_cons. cbn [removeCommas].
  destruct (bool_decide _); [done|]. by rewrite append_cons, IH.
Qed.

Lemma removeCommas_groupThousands s :
  allDigits s = true → removeCommas (groupThousands s) = s.
Proof.
  induction s as [|c s IH]; [done|]. cbn [allDigits]. intros [Hc Hs]%andb_prop.
  rewrite groupThousands_cons. cbn [removeCommas].
  rewrite bool_decide_eq_false_2 by (by intros ->). f_equal.
  destruct (commaBefore _); [|by apply IH]. cbn [removeCommas].
  rewrite bool_decide_eq_true_2 by done. by apply IH.
Qed.

Lemma paddedFraction_facts amount decimals :
  decimals ≠ 0%nat →
  let padded :=
    padStart decimals "0" (BN_toString (amount mod 10 ^ N.of_nat decimals)%N) in
  String.length padded = decimals
  ∧ allDigits padded = true
  ∧ parseDecimal 0 padded = (amount mod 10 ^ N.of_nat decimals)%N.
Proof.
  intros Hd padded. split; [by apply padded_fraction_length|]. split.
  - apply allDigits_app; [apply allDigits_repeat_zero|apply BN_toString_allDigits].
  - unfold padded, padStart.
    by rewrite parseDecimal_leading_zeros, parseDecimal_BN_toString.
Qed.

Lemma readAmount_formatAmount amount decimals :
  readAmount decimals (formatAmount amount decimals) = amount.
Proof.
  unfold formatAmount. case_decide as Hd.
  - subst decimals. unfold readAmount.
    rewrite indexOfChar_digits by apply BN_toString_allDigits.
    rewrite parseDecimal_BN_toString. simpl. lia.
  - cbv zeta.
    destruct (paddedFraction_facts amount decimals Hd) as (Hlen & Hdigits & Hval).
    set (padded := padStart decimals "0" _) in *.
    pose proof (stripTrailingZeros_refill padded) as Hrefill.
    rewrite Hlen in Hrefill.
    pose proof (N.div_mod amount (10 ^ N.of_nat decimals)
                  ltac:(apply N.pow_nonzero; lia)) as Hdiv.
    case_decide as Hfrac.
    + unfold readAmount.
      rewrite indexOfChar_dot by apply BN_toString_allDigits.
      rewrite substring_prefix, substring_after.
      rewrite Hrefill, Hval, parseDecimal_BN_toString. lia.
    + assert (stripTrailingZeros padded = EmptyString) as Hempty.
      { destruct (stripTrailingZeros padded); [done|]. simpl in Hfrac. lia. }
      rewrite Hempty in Hrefill. cbn in Hrefill. rewrite Nat.sub_0_r in Hrefill.
      assert (parseDecimal 0 padded = 0%N) as Hzero.
      { rewrite <- Hrefill. apply (parseDecimal_zeros decimals). }
      unfold readAmount.
      rewrite indexOfChar_digits by apply BN_toString_allDigits.
      rewrite parseDecimal_BN_toString. lia.
Qed.

Lemma removeCommas_formatBalance amount decimals :
  removeCommas (formatBalance amount decimals) = formatAmount amount decimals.
Proof.
  unfold formatBalance, formatAmount. case_decide as Hd.
  - rewrite finalAmt_digits by apply BN_toString_allDigits.
    apply removeCommas_groupThousands, BN_toString_allDigits.
  - cbv zeta.
    destruct (paddedFraction_facts amount decimals Hd) as (_ & Hdigits & _).
    set (padded := padStart decimals "0" _) in *.
    apply allDigits_stripTrailingZeros in Hdigits.
    case_decide as Hfrac.
    + rewrite finalAmt_fraction;
        [|apply BN_toString_allDigits
         |by destruct (stripTrailingZeros padded); [simpl in Hfrac; lia|]].
      rewrite !removeCommas_app.
      rewrite removeCommas_groupThousands by apply BN_toString_allDigits.
      by rewrite (removeCommas_digits (stripTrailingZeros padded)).
    + rewrite finalAmt_digits by apply BN_toString_allDigits.
      apply removeCommas_groupThousands, BN_toString_allDigits.
Qed.

(** X9.  The amount text loses nothing.  At a given number of
    decimals, two amounts with the same text from [formatAmount] are
    the same amount, although trailing zeros of the fraction are
    dropped; the balance text of a token entry is that text with commas
    put in and nothing else changed, so it determines the amount as
    well. *)
Theorem formatAmount_lossless (decimals : nat) (a b : N) :
  (formatAmount a decimals = formatAmount b decimals → a = b)
  ∧ removeCommas (formatBalance a decimals) = formatAmount a decimals
  ∧ (formatBalance a decimals = formatBalance b decimals → a = b).
Proof.
  assert (Hinj : ∀ x y, formatAmount x decimals = formatAmount y decimals → x = y).
  { intros x y Heq. rewrite <- (readAmount_formatAmount x decimals).
    rewrite <- (readAmount_formatAmount y decimals). by rewrite Heq. }
  split; [apply Hinj|]. split; [apply removeCommas_formatBalance|].
  intros Heq. apply Hinj.
  rewrite <- !removeCommas_formatBalance. by rewrite Heq.
Qed.

(** ** The viewer *)

Lemma entry_is_badge safeStringify map k a :
  carriesOwnKey map → map !! Some k = Some a →
  enrichedPubkeyDataType_is a = true
  ∧ handleCopy safeStringify a = VStr k
  ∧ stripEnrichment a = VStr k.
Proof.
  intros Hwf Hk. destruct (Hwf k a Hk) as (props & -> & He & Hp).
  unfold enrichedPubkeyDataType_is, handleCopy. simpl.
  unfold isEnrichedProps. rewrite He, Hp. simpl.
  rewrite ?bool_decide_eq_true_2 by eauto. done.
Qed.

(** X10.  What the viewer makes of a string leaf after injection with
    a map from the builder: either the string is shown as it was, or it
    is shown as a badge, and then copying the badge gives an address,
    the one that strip would restore: the string itself, or the
    address in parentheses at its end. *)
Theorem injected_leaf_is_badge {World : Type}
    (atob : string → option string) (bs58_encode : list byte → string)
    (fetchAccountInfo : list string → World → option (list (option AccountInfo)) * World)
    (fetch : string → World → FetchResult * World)
    (getLabel : option (JsKey → World → option string * World))
    (pubkeys : list string) (env : Env)
    (safeStringify : Value → string) (s : string) :
  let map :=
    (fetchEnrichmentMap atob bs58_encode fetchAccountInfo fetch getLabel
       pubkeys env).1 in
  let shown := injectEnrichment (VStr s) map in
  (shown = VStr s
   ∧ enrichedPubkeyDataType_is shown = false
   ∧ handleCopy safeStringify shown = VStr (safeStringify (VStr s)))
  ∨ ∃ k, (k = s ∨ matchWrapped s = Some k)
      ∧ map !! Some k = Some shown
      ∧ enrichedPubkeyDataType_is shown = true
      ∧ handleCopy safeStringify shown = VStr k
      ∧ stripEnrichment shown = VStr k.
Proof.
  intros map shown.
  assert (Hwf : carriesOwnKey map) by apply fetchEnrichmentMap_carriesOwnKey.
  unfold shown. simpl. unfold injectString.
  destruct (map !! Some s) as [a|] eqn:Hs.
  - right. exists s. split; [by left|]. split; [done|].
    by apply entry_is_badge with map.
  - destruct (matchWrapped s) as [inner|] eqn:Hm.
    + destruct (map !! Some inner) as [a|] eqn:Hi.
      * right. exists inner. split; [by right|]. split; [done|].
        by apply entry_is_badge with map.
      * left. split; [done|]. split; [by destruct s|].
        unfold handleCopy. by destruct s.
    + left. split; [done|]. split; [by destruct s|].
      unfold handleCopy. by destruct s.
Qed.

(** ** Pages of the account list *)

Lemma jsSlice_nonneg {A} (l : list A) (start stop : nat) :
  jsSlice l (Z.of_nat start) (Z.of_nat stop)
  = take (stop - start) (drop start l).
Proof.
  unfold jsSlice, sliceIndex. rewrite !decide_False by lia. rewrite !Nat2Z.id.
  destruct (decide (length l ≤ start)%nat) as [Hge|Hlt].
  - rewrite !drop_ge by lia. by rewrite !take_nil.
  - rewrite (Nat.min_l start) by lia.
    destruct (decide (stop ≤ length l)%nat) as [Hle|Hgt].
    + by rewrite (Nat.min_l stop) by lia.
    + rewrite (Nat.min_r stop) by lia.
      rewrite !take_ge; [done| |]; rewrite length_drop; lia.
Qed.

Lemma paginatedAccounts_take {A} (sortedAccounts : list A) (n : nat) :
  paginatedAccounts sortedAccounts (Z.of_nat n + 1)
  = take 50 (drop (n * 50) sortedAccounts).
Proof.
  unfold paginatedAccounts, ITEMS_PER_PAGE. cbv zeta.
  replace ((Z.of_nat n + 1 - 1) * 50) with (Z.of_nat (n * 50)) by lia.
  replace (Z.of_nat (n * 50) + 50) with (Z.of_nat (n * 50 + 50)) by lia.
  rewrite jsSlice_nonneg. f_equal. lia.
Qed.

Lemma concat_pages {A} (l : list A) (k : nat) :
  concat ((λ i, take 50 (drop (i * 50) l)) <$> seq 0 k) = take (k * 50) l.
Proof.
  induction k as [|k IH]; [by rewrite take_0|].
  rewrite seq_S, fmap_app, concat_app, IH. simpl. rewrite app_nil_r.
  rewrite take_take_drop. f_equal. lia.
Qed.

Lemma totalPages_bounds {A} (sortedAccounts : list A) :
  let len := Z.of_nat (length sortedAccounts) in
  let pages := totalPages sortedAccounts in
  1 <= pages ∧ len <= pages * 50
  ∧ ((pages - 1) * 50 < len ∨ (len = 0 ∧ pages = 1)).
Proof.
  intros len pages. unfold pages, totalPages, ceilDiv, ITEMS_PER_PAGE. fold len.
  pose proof (Z.div_mod (- len) 50 ltac:(done)) as Hdiv.
  pose proof (Z.mod_pos_bound (- len) 50 ltac:(done)) as Hmod.
  assert (0 <= len) by (unfold len; lia).
  case_decide; lia.
Qed.

(** X11.  The pages of the account list cut the sorted list into
    consecutive runs of 50: there is always at least one page; the
    pages from 1 to the last, one after the other, give the list back,
    so each account is on exactly one page; every page but the last is
    full, the last page of a list that is not empty is not empty, and a
    page past the last shows nothing.  A page change that is accepted
    lands on one of the pages. *)
Theorem pages_partition {A : Type} (sortedAccounts : list A) :
  let pages := totalPages sortedAccounts in
  1 <= pages
  ∧ concat ((λ i, paginatedAccounts sortedAccounts (Z.of_nat i + 1))
              <$> seq 0 (Z.to_nat pages))
    = sortedAccounts
  ∧ (∀ page, 1 <= page < pages →
       length (paginatedAccounts sortedAccounts page) = 50%nat)
  ∧ ((0 < length (paginatedAccounts sortedAccounts pages) ≤ 50)%nat
     ∨ sortedAccounts = [])
  ∧ (∀ page, pages < page → paginatedAccounts sortedAccounts page = [])
  ∧ (∀ page current, 1 <= current <= pages →
       1 <= handlePageChange pages page current <= pages).
Proof.
  intros pages.
  destruct (totalPages_bounds sortedAccounts) as (Hone & Hupper & Hlower).
  fold pages in Hone, Hupper, Hlower.
  assert (Hpage : ∀ page, 1 <= page →
            paginatedAccounts sortedAccounts page
            = take 50 (drop (Z.to_nat (page - 1) * 50) sortedAccounts)).
  { intros page Hp. rewrite <- paginatedAccounts_take. f_equal. lia. }
  split; [done|]. split; [|split; [|split; [|split]]].
  - erewrite (list_fmap_ext _ (λ i, take 50 (drop (i * 50) sortedAccounts)));
      [|intros i x _; apply paginatedAccounts_take].
    rewrite concat_pages. apply take_ge. lia.
  - intros page [Hp1 Hp2]. rewrite Hpage by done.
    rewrite length_take, length_drop. lia.
  - destruct sortedAccounts as [|x l] eqn:Hl; [by right|]. left.
    rewrite <- Hl in *. assert (0 < Z.of_nat (length sortedAccounts)) as Hpos
      by (rewrite Hl; simpl; lia).
    rewrite Hpage by done. rewrite length_take, length_drop. lia.
  - intros page Hp. rewrite Hpage by lia.
    rewrite drop_ge; [done|]. lia.
  - intros page current Hc. unfold handlePageChange. case_decide; lia.
Qed.

(** ** The favorites section of a page *)

Lemma findIndex_spec {A} (p : A → bool) (l : list A) :
  match findIndex p l with
  | Some i => Forall (λ x, p x = false) (take i l) ∧ ∃ x, l !! i = Some x ∧ p x = true
  | None => Forall (λ x, p x = false) l
  end.
Proof.
  induction l as [|x l IH]; simpl; [done|].
  destruct (p x) eqn:Hx.
  - split; [done|]. by exists x.
  - destruct (findIndex p l) as [i|]; simpl.
    + destruct IH as [Hall Hat]. split; [by constructor|done].
    + by constructor.
Qed.

Lemma jsSlice_segment {A} (l : list A) (start stop : Z) :
  ∃ n m, jsSlice l start stop = take n (drop m l).
Proof. unfold jsSlice. eauto. Qed.

Lemma favoritesFirst_segment l n m :
  favoritesFirst l → favoritesFirst (take n (drop m l)).
Proof.
  intros Hl i j a b Hij [Ha _]%lookup_take_Some [Hb _]%lookup_take_Some.
  rewrite lookup_drop in Ha, Hb. apply (Hl (m + i)%nat (m + j)%nat); [lia|done|done].
Qed.

Lemma favoritesFirst_none l :
  favoritesFirst l → from_option am_isFavorite false (head l) = false →
  Forall (λ a, am_isFavorite a = false) l.
Proof.
  intros Hl Hhead. destruct l as [|x l]; [done|]. simpl in Hhead.
  apply Forall_lookup. intros i a Ha. destruct i as [|i]; [by injection Ha as <-|].
  apply (Hl 0%nat (S i) x a); [lia|done|done|done].
Qed.

Lemma orderedBy_favoritesFirst toLowerCase localeCompare l :
  orderedBy (compareAccounts toLowerCase localeCompare) l → favoritesFirst l.
Proof.
  intros Hl i j a b Hij Ha Hb Hfav. specialize (Hl i j a b Hij Ha Hb).
  unfold compareAccounts in Hl. rewrite Hfav in Hl. simpl in Hl.
  destruct (am_isFavorite b); [|done]. simpl in Hl. lia.
Qed.

Lemma favoritesSplit_prefix (page : list AccountMeta) (n : nat) :
  (0 < n)%nat →
  favoritesSplit page (Z.of_nat n) = (take n page, drop n page).
Proof.
  intros Hn. unfold favoritesSplit, jsSliceFrom. cbv zeta.
  rewrite bool_decide_eq_true_2 by lia.
  change 0 with (Z.of_nat 0). rewrite !jsSlice_nonneg. rewrite drop_0, Nat.sub_0_r.
  f_equal. apply take_ge. rewrite length_drop. lia.
Qed.

(** X12.  The two sections of a page.  The favorites section and the
    rest, one after the other, are the page; the favorites section
    holds only favorites and ends at the first account that is not
    one.  When the list was ordered by the comparator of the page,
    the rest holds no favorite, on whatever page. *)
Theorem favorites_sections (toLowerCase : string → string)
    (localeCompare : string → string → Z)
    (sortedAccounts : list AccountMeta) (currentPage : Z) :
  let page := paginatedAccounts sortedAccounts currentPage in
  let sections := favoritesSplit page (favoritesEndIndex page) in
  sections.1 ++ sections.2 = page
  ∧ Forall (λ a, am_isFavorite a = true) sections.1
  ∧ from_option am_isFavorite false (head sections.2) = false
  ∧ (orderedBy (compareAccounts toLowerCase localeCompare) sortedAccounts →
     Forall (λ a, am_isFavorite a = false) sections.2).
Proof.
  intros page sections.
  assert (Hfirst : orderedBy (compareAccounts toLowerCase localeCompare) sortedAccounts →
                   favoritesFirst page).
  { intros Hsorted%orderedBy_favoritesFirst.
    destruct (jsSlice_segment sortedAccounts
                ((currentPage - 1) * ITEMS_PER_PAGE)
                ((currentPage - 1) * ITEMS_PER_PAGE + ITEMS_PER_PAGE)) as (n & m & Hseg).
    unfold page, paginatedAccounts. cbv zeta. rewrite Hseg.
    by apply favoritesFirst_segment. }
  assert (Hcore :
    sections.1 ++ sections.2 = page
    ∧ Forall (λ a, am_isFavorite a = true) sections.1
    ∧ from_option am_isFavorite false (head sections.2) = false
    ∧ ∃ n, sections.2 = drop n page).
  { unfold sections, favoritesEndIndex. clearbody page. clear.
    destruct page as [|x page].
    { vm_compute. split; [done|]. split; [constructor|]. split; [done|].
      by exists 0%nat. }
    cbn [length Nat.ltb Nat.leb andb lookup list_lookup from_option].
    destruct (am_isFavorite x) eqn:Hx; cbn [negb].
    - pose proof (findIndex_spec (λ a, negb (am_isFavorite a)) (x :: page)) as Hspec.
      destruct (findIndex _ (x :: page)) as [idx|] eqn:Hidx.
      + destruct Hspec as [Hall (y & Hy & Hny)].
        destruct idx as [|idx]; [simpl in Hy; injection Hy as <-; by rewrite Hx in Hny|].
        rewrite favoritesSplit_prefix by lia. cbn [fst snd].
        split; [apply take_drop|]. split.
        * eapply Forall_impl; [exact Hall|]. simpl. intros a Ha.
          by apply negb_false_iff.
        * split; [|by eexists].
          rewrite <- (take_drop (S idx) (x :: page)) in Hy.
          rewrite lookup_app_r in Hy by (rewrite length_take; lia).
          assert (S idx < length (x :: page))%nat as Hlt.
          { apply lookup_lt_is_Some. rewrite <- (take_drop (S idx) (x :: page)).
            rewrite lookup_app_r by (rewrite length_take; lia). eauto. }
          rewrite length_take, Nat.min_l, Nat.sub_diag in Hy by lia.
          destruct (drop (S idx) (x :: page)) as [|z r]; [done|].
          simpl in *. injection Hy as ->. by apply negb_true_iff.
      + rewrite favoritesSplit_prefix by (simpl; lia). cbn [fst snd].
        split; [apply take_drop|]. split.
        * rewrite take_ge by done. eapply Forall_impl; [exact Hspec|].
          simpl. intros a Ha. by apply negb_false_iff.
        * split; [by rewrite drop_ge by (simpl; lia)|by eexists].
    - unfold favoritesSplit. cbv zeta. rewrite bool_decide_eq_false_2 by lia.
      cbn [fst snd]. split; [done|]. split; [done|]. split; [done|]. by exists 0%nat. }
  destruct Hcore as (Happ & Hfavs & Hhead & n & Hrest).
  split; [done|]. split; [done|]. split; [done|].
  intros Hsorted. apply favoritesFirst_none; [|done].
  rewrite Hrest. rewrite <- (take_ge (drop n page) (length page)).
  - apply favoritesFirst_segment. by apply Hfirst.
  - rewrite length_drop. lia.
Qed.

Lemma favorites_sections_sample :
  Forall (λ a, am_isFavorite a = false)
    (favoritesSplit (paginatedAccounts sampleSortedAccounts 1)
       (favoritesEndIndex (paginatedAccounts sampleSortedAccounts 1))).2.
Proof.
  destruct (favorites_sections (λ s, s) sampleLocaleCompare sampleSortedAccounts 1)
    as (_ & _ & _ & Hrest).
  apply Hrest. intros i j a b Hij Ha Hb.
  destruct i as [|[|[|i]]]; destruct j as [|[|[|j]]]; simpl in Ha, Hb;
    try lia; try discriminate;
    injection Ha as <-; injection Hb as <-; by vm_compute.
Defined.

(** ** From a token account to its entry *)

Lemma NoDup_concat_unique {A} (ls : list (list A)) l1 l2 i j x :
  NoDup (concat ls) → l1 ∈ ls → l2 ∈ ls →
  l1 !! i = Some x → l2 !! j = Some x → l1 = l2 ∧ i = j.
Proof.
  induction ls as [|l ls IH]; intros Hnd H1 H2 Hi Hj.
  - by apply elem_of_nil in H1.
  - simpl in Hnd. apply NoDup_app in Hnd as (Hl & Hdisj & Hrest).
    apply elem_of_cons in H1 as [->|H1]; apply elem_of_cons in H2 as [->|H2].
    + split; [done|]. by apply (NoDup_lookup l i j x).
    + exfalso. apply (Hdisj x); [by apply list_elem_of_lookup_2 with i|].
      apply elem_of_concat. exists l2. split; [done|].
      by apply list_elem_of_lookup_2 with j.
    + exfalso. apply (Hdisj x); [by apply list_elem_of_lookup_2 with j|].
      apply elem_of_concat. exists l1. split; [done|].
      by apply list_elem_of_lookup_2 with i.
    + by apply IH.
Qed.

Section EntryFacts.
Context {World : Type}.
Variable atob : string → option string.
Variable bs58_encode : list byte → string.
Variable fetchAccountInfo :
  list string → World → option (list (option AccountInfo)) * World.
Variable fetch : string → World → FetchResult * World.
Variable getLabel : option (JsKey → World → option string * World).

Lemma forEach_reaches {A S} (I : S → Prop) (body : A → S → @Eff World S) l x :
  x ∈ l →
  (∀ s env, I (body x s env).1) →
  (∀ y s env, y ∈ l → I s → I (body y s env).1) →
  ∀ s env, I (forEach body l s env).1.
Proof.
  intros Hx Hestablish Hkeep.
  apply list_elem_of_split in Hx as (l1 & l2 & ->).
  induction l1 as [|y l1 IH]; intros s env.
  - simpl app. rewrite forEach_cons. apply forEach_invariant; [|apply Hestablish].
    intros z s' env' Hz. apply Hkeep. by right.
  - rewrite <- app_comm_cons, forEach_cons. apply IH.
    intros z s' env' Hz. apply Hkeep. by right.
Qed.

Lemma scanAccount_tokens chunk j info acc ta :
  ta ∈ tokenAccounts (scanAccount atob bs58_encode chunk j info acc)
  ↔ ta ∈ tokenAccounts acc
    ∨ ∃ i, info = Some i
           ∧ classify (info_owner i) (base64ToBytes atob (info_data i).1)
             = TokenHolding
           ∧ ta = tokenAccountAt atob bs58_encode chunk j i.
Proof.
  destruct info as [i|]; simpl.
  2: { split; [by left|]. by intros [?|(i & ? & _)]. }
  unfold classify.
  destruct (decide (info_owner i = TOKEN_PROGRAM_ID
                    ∨ info_owner i = TOKEN_2022_PROGRAM_ID)) as [Ho|Ho].
  2: { split; [by left|]. intros [?|(i' & [= <-] & Hc & _)]; [done|].
       by rewrite decide_False in Hc. }
  destruct (classifyBuffer _ _) eqn:Hc; simpl.
  - rewrite elem_of_app, list_elem_of_singleton. split.
    + intros [?| ->]; [by left|]. right. exists i.
      rewrite decide_True by done. done.
    + intros [?|(i' & [= <-] & _ & ->)]; [by left|by right].
  - split; [by left|]. intros [?|(i' & [= <-] & Hc' & _)]; [done|].
    rewrite decide_True, Hc in Hc' by done. done.
  - split; [by left|]. intros [?|(i' & [= <-] & Hc' & _)]; [done|].
    rewrite decide_True, Hc in Hc' by done. done.
Qed.

Lemma scanFrom_tokens chunk chunkInfos :
  ∀ j acc ta,
    ta ∈ tokenAccounts (scanFrom atob bs58_encode chunk j chunkInfos acc)
    ↔ ta ∈ tokenAccounts acc
      ∨ ∃ i info, chunkInfos !! i = Some (Some info)
          ∧ classify (info_owner info) (base64ToBytes atob (info_data info).1)
            = TokenHolding
          ∧ ta = tokenAccountAt atob bs58_encode chunk (j + i) info.
Proof.
  induction chunkInfos as [|info rest IH]; intros j acc ta; simpl.
  - split; [by left|]. by intros [?|(i & info & ? & _)].
  - rewrite IH, scanAccount_tokens. split.
    + intros [[?|(inf & -> & Hc & ->)]|(i & inf & Hi & Hc & ->)].
      * by left.
      * right. exists 0%nat, inf. by rewrite Nat.add_0_r.
      * right. exists (S i), inf. split; [done|]. split; [done|].
        f_equal. lia.
    + intros [?|(i & inf & Hi & Hc & ->)]; [by left; left|].
      destruct i as [|i]; simpl in Hi.
      * injection Hi as ->. left. right. exists inf. by rewrite Nat.add_0_r.
      * right. exists i, inf. split; [done|]. split; [done|]. f_equal. lia.
Qed.

Lemma scanChunk_tokens chunk chunkInfos ta :
  ta ∈ tokenAccounts (scanChunk atob bs58_encode chunk chunkInfos)
  ↔ ∃ i info, chunkInfos !! i = Some (Some info)
      ∧ classify (info_owner info) (base64ToBytes atob (info_data info).1)
        = TokenHolding
      ∧ ta = tokenAccountAt atob bs58_encode chunk i info.
Proof.
  unfold scanChunk. rewrite scanFrom_tokens. simpl. split.
  - by intros [?%elem_of_nil|?].
  - by right.
Qed.
Lemma scanChunk_mintsCollected chunk chunkInfos :
  mintsCollected (scanChunk atob bs58_encode chunk chunkInfos).
Proof.
  apply (scanFrom_mints atob bs58_encode chunk chunkInfos 0
           {| tokenAccounts := []; mintAccounts := []; uniqueMints := [] |}).
  split; [apply NoDup_nil_2|]. split; [|simpl; lia].
  intros k. simpl. split; [by intros ?%elem_of_nil|].
  intros [(ta & ?%elem_of_nil & _)|?%elem_of_nil]; done.
Qed.

Section OneAccount.
Variable pubkeys : list string.
Variable a : string.
Variable chunk : list string.
Variable j : nat.
Variable info : AccountInfo.
Hypothesis Hnodup : NoDup pubkeys.
Hypothesis Hchunk : chunk ∈ chunkBy 100 pubkeys.
Hypothesis Hat : chunk !! j = Some a.
Hypothesis Hinfo :
  ∀ w, chunkInfosOf chunk (fetchAccountInfo chunk w).1 !! j = Some (Some info).
Hypothesis Hkind :
  classify (info_owner info) (base64ToBytes atob (info_data info).1) = TokenHolding.

Lemma address_position chunk' i :
  chunk' ∈ chunkBy 100 pubkeys → chunk' !! i = Some a → chunk' = chunk ∧ i = j.
Proof.
  intros Hc Hi.
  apply (NoDup_concat_unique (chunkBy 100 pubkeys) chunk' chunk i j a); try done.
  by rewrite chunkBy_concat by lia.
Qed.

Lemma token_entry_holds m info' label :
  let ta := tokenAccountAt atob bs58_encode chunk j info in
  holdsTokenEntry a (ta_mint ta) (ta_amount ta)
    (<[ta_pubkey ta :=
         tokenAccountEntry ta info'
           (formatBalance (ta_amount ta) (mi_decimals info')) label]> m).
Proof.
  intros ta. eexists _, (mi_decimals info').
  assert (ta_pubkey ta = Some a) as Hkey by exact Hat.
  rewrite Hkey, lookup_insert_eq. split; [done|]. simpl. by rewrite Hat.
Qed.

Lemma token_insert_keeps chunk' w m ta' info' label :
  let ta := tokenAccountAt atob bs58_encode chunk j info in
  chunk' ∈ chunkBy 100 pubkeys →
  ta' ∈ tokenAccounts
          (scanChunk atob bs58_encode chunk'
             (chunkInfosOf chunk' (fetchAccountInfo chunk' w).1)) →
  holdsTokenEntry a (ta_mint ta) (ta_amount ta) m →
  holdsTokenEntry a (ta_mint ta) (ta_amount ta)
    (<[ta_pubkey ta' :=
         tokenAccountEntry ta' info'
           (formatBalance (ta_amount ta') (mi_decimals info')) label]> m).
Proof.
  intros ta Hc Hta Hm.
  destruct (decide (ta_pubkey ta' = Some a)) as [Hkey|Hkey].
  - apply scanChunk_tokens in Hta as (i & inf & Hi & _ & ->).
    destruct (address_position chunk' i Hc Hkey) as [-> ->].
    rewrite Hinfo in Hi. injection Hi as <-. apply token_entry_holds.
  - destruct Hm as (v & d & Hv & Hrest). exists v, d.
    by rewrite lookup_insert_ne.
Qed.

Lemma mint_insert_keeps chunk' w m k info' label :
  let ta := tokenAccountAt atob bs58_encode chunk j info in
  chunk' ∈ chunkBy 100 pubkeys →
  k ∈ mintAccounts
        (scanChunk atob bs58_encode chunk'
           (chunkInfosOf chunk' (fetchAccountInfo chunk' w).1)) →
  holdsTokenEntry a (ta_mint ta) (ta_amount ta) m →
  holdsTokenEntry a (ta_mint ta) (ta_amount ta)
    (<[k := mintAccountEntry k info' label]> m).
Proof.
  intros ta Hc Hk Hm.
  destruct (decide (k = Some a)) as [->|Hkey].
  - apply scanChunk_mintAccounts in Hk as (i & inf & Hi & Hkey & Hmint).
    destruct (address_position chunk' i Hc (eq_sym Hkey)) as [-> ->].
    rewrite Hinfo in Hi. injection Hi as <-. by rewrite Hkind in Hmint.
  - destruct Hm as (v & d & Hv & Hrest). exists v, d.
    by rewrite lookup_insert_ne.
Qed.

Lemma processChunk_keeps chunk' m (env : Env) :
  let ta := tokenAccountAt atob bs58_encode chunk j info in
  chunk' ∈ chunkBy 100 pubkeys →
  holdsTokenEntry a (ta_mint ta) (ta_amount ta) m →
  holdsTokenEntry a (ta_mint ta) (ta_amount ta)
    (processChunk atob bs58_encode fetchAccountInfo fetch getLabel chunk' m env).1.
Proof.
  intros ta Hc Hm.
  apply (processChunk_entries atob bs58_encode fetchAccountInfo fetch getLabel
           (holdsTokenEntry a (ta_mint ta) (ta_amount ta))); [| |done].
  - intros m' ta' info' label Hm' Hta' _.
    by apply token_insert_keeps with chunk' (world env).
  - intros m' k info' label Hm' Hk _. by apply mint_insert_keeps with chunk' (world env).
Qed.

Lemma processChunk_establishes m (env : Env) :
  let ta := tokenAccountAt atob bs58_encode chunk j info in
  holdsTokenEntry a (ta_mint ta) (ta_amount ta)
    (processChunk atob bs58_encode fetchAccountInfo fetch getLabel chunk m env).1.
Proof.
  intros ta. unfold processChunk, mbind. rewrite bind_run.
  rewrite callFetchAccountInfo_result.
  set (scan := scanChunk atob bs58_encode chunk
                 (chunkInfosOf chunk (fetchAccountInfo chunk (world env)).1)).
  assert (Hta : ta ∈ tokenAccounts scan).
  { apply scanChunk_tokens. exists j, info. by rewrite Hinfo. }
  destruct (scanChunk_mintsCollected chunk
              (chunkInfosOf chunk (fetchAccountInfo chunk (world env)).1))
    as (_ & Hmints & _). fold scan in Hmints.
  case_decide as Hempty.
  { exfalso. assert (Some (ta_mint ta) ∈ uniqueMints scan) as Hin
      by (apply Hmints; left; eauto).
    destruct (uniqueMints scan); [by apply elem_of_nil in Hin|done]. }
  rewrite !bind_run.
  apply forEach_invariant.
  - intros k m' env' Hk Hm'.
    destruct (enrichMintAccount_run getLabel
                (fetchMetadata fetch (uniqueMints scan)
                   (callFetchAccountInfo fetchAccountInfo chunk env).2).1
                k m' env') as [label ->].
    by apply mint_insert_keeps with chunk (world env).
  - apply (forEach_reaches (holdsTokenEntry a (ta_mint ta) (ta_amount ta))) with ta;
      [done| |].
    + intros m' env'.
      destruct (enrichTokenAccount_run getLabel
                  (fetchMetadata fetch (uniqueMints scan)
                     (callFetchAccountInfo fetchAccountInfo chunk env).2).1
                  ta m' env') as [label ->].
      apply token_entry_holds.
    + intros ta' m' env' Hta' Hm'.
      destruct (enrichTokenAccount_run getLabel
                  (fetchMetadata fetch (uniqueMints scan)
                     (callFetchAccountInfo fetchAccountInfo chunk env).2).1
                  ta' m' env') as [label ->].
      by apply token_insert_keeps with chunk (world env).
Qed.

Lemma labelEffect_keeps pubkey label m :
  let ta := tokenAccountAt atob bs58_encode chunk j info in
  holdsTokenEntry a (ta_mint ta) (ta_amount ta) m →
  holdsTokenEntry a (ta_mint ta) (ta_amount ta) (labelEffect pubkey label m).
Proof.
  intros ta (v & d & Hv & Htype & Hpub & Hmint & Hdec & Hbal).
  destruct (decide (pubkey = a)) as [->|Hne].
  - unfold labelEffect. rewrite Hv.
    destruct (truthy v && truthyStr label); [|by exists v, d].
    exists (setProp "label" (optStr label) v), d. rewrite lookup_insert_eq.
    by rewrite !getProp_setProp_ne.
  - exists v, d. rewrite labelEffect_other by congruence. done.
Qed.

Lemma builder_holds_token_entry (env : Env) :
  let ta := tokenAccountAt atob bs58_encode chunk j info in
  holdsTokenEntry a (ta_mint ta) (ta_amount ta)
    (fetchEnrichmentMap atob bs58_encode fetchAccountInfo fetch getLabel
       pubkeys env).1.
Proof.
  intros ta.
  assert (a ∈ pubkeys) as Hin.
  { apply (chunkBy_elem 100 pubkeys chunk); [lia|done|].
    by apply list_elem_of_lookup_2 with j. }
  rewrite fetchEnrichmentMap_result by (by intros ->; apply elem_of_nil in Hin).
  cbv zeta.
  assert (Hchunks : ∀ env',
            holdsTokenEntry a (ta_mint ta) (ta_amount ta)
              (forEach (processChunk atob bs58_encode fetchAccountInfo fetch getLabel)
                 (chunkBy 100 pubkeys) ∅ env').1).
  { intros env'.
    apply (forEach_reaches (holdsTokenEntry a (ta_mint ta) (ta_amount ta)))
      with chunk; [done| |].
    - apply processChunk_establishes.
    - intros chunk' m env'' Hc Hm. by apply processChunk_keeps. }
  destruct getLabel as [g|]; [|apply Hchunks].
  apply forEach_invariant; [|apply Hchunks].
  intros p m env' _ Hm.
  destruct (labelPubkey_result g p m env') as [->|[-> _]]; [|done].
  by apply labelEffect_keeps.
Qed.
End OneAccount.
End EntryFacts.

(** X13.  From a token account to its entry.  Let the input hold no
    address twice, and let the account-info service answer an address
    of the input, whenever asked, with a blob that classifies as a
    token holding.  Then the returned map holds for the address a token
    entry whose [pubkey] is the address, whose [mint] is the base-58
    text of bytes 0 to 32 of the blob, and whose [balance] is the
    balance text of bytes 64 to 72 read as a little-endian integer, at
    the number of decimals the entry shows.  No later chunk, mint entry
    or label replaces these fields. *)
Theorem token_account_entry {World : Type}
    (atob : string → option string) (bs58_encode : list byte → string)
    (fetchAccountInfo : list string → World → option (list (option AccountInfo)) * World)
    (fetch : string → World → FetchResult * World)
    (getLabel : option (JsKey → World → option string * World))
    (pubkeys : list string) (env : Env)
    (a : string) (chunk : list string) (j : nat) (info : AccountInfo) :
  NoDup pubkeys →
  chunk ∈ chunkBy 100 pubkeys → chunk !! j = Some a →
  (∀ w, chunkInfosOf chunk (fetchAccountInfo chunk w).1 !! j = Some (Some info)) →
  let dataBuf := base64ToBytes atob (info_data info).1 in
  classify (info_owner info) dataBuf = TokenHolding →
  ∃ v decimals,
    (fetchEnrichmentMap atob bs58_encode fetchAccountInfo fetch getLabel
       pubkeys env).1 !! Some a = Some v
    ∧ getProp "__type" v = VStr "token"
    ∧ getProp "pubkey" v = VStr a
    ∧ getProp "mint" v = VStr (bs58_encode (subarray 0 32 dataBuf))
    ∧ getProp "decimals" v = VNum (Z.of_nat decimals)
    ∧ getProp "balance" v
      = VStr (formatBalance (BN_le (subarray 64 72 dataBuf)) decimals).
Proof.
  intros Hnodup Hchunk Hat Hinfo dataBuf Hkind.
  exact (builder_holds_token_entry atob bs58_encode fetchAccountInfo fetch getLabel
           pubkeys a chunk j info Hnodup Hchunk Hat Hinfo Hkind env).
Qed.

(** ** From a mint account to its entry *)

Section MintEntryFacts.
Context {World : Type}.
Variable atob : string → option string.
Variable bs58_encode : list byte → string.
Variable fetchAccountInfo :
  list string → World → option (list (option AccountInfo)) * World.
Variable fetch : string → World → FetchResult * World.
Variable getLabel : option (JsKey → World → option string * World).

Lemma scanAccount_mintAccounts chunk j info acc k :
  k ∈ mintAccounts (scanAccount atob bs58_encode chunk j info acc)
  ↔ k ∈ mintAccounts acc
    ∨ ∃ i, info = Some i
           ∧ classify (info_owner i) (base64ToBytes atob (info_data i).1)
             = MintRecord
           ∧ k = chunk !! j.
Proof.
  destruct info as [i|]; simpl.
  2: { split; [by left|]. by intros [?|(i & ? & _)]. }
  unfold classify.
  destruct (decide (info_owner i = TOKEN_PROGRAM_ID
                    ∨ info_owner i = TOKEN_2022_PROGRAM_ID)) as [Ho|Ho].
  2: { split; [by left|]. intros [?|(i' & [= <-] & Hc & _)]; [done|].
       by rewrite decide_False in Hc. }
  destruct (classifyBuffer _ _) eqn:Hc; simpl.
  - split; [by left|]. intros [?|(i' & [= <-] & Hc' & _)]; [done|].
    rewrite decide_True, Hc in Hc' by done. done.
  - rewrite elem_of_app, list_elem_of_singleton. split.
    + intros [?| ->]; [by left|]. right. exists i.
      rewrite decide_True by done. done.
    + intros [?|(i' & [= <-] & _ & ->)]; [by left|by right].
  - split; [by left|]. intros [?|(i' & [= <-] & Hc' & _)]; [done|].
    rewrite decide_True, Hc in Hc' by done. done.
Qed.

Lemma scanFrom_mintAccounts chunk chunkInfos :
  ∀ j acc k,
    k ∈ mintAccounts (scanFrom atob bs58_encode chunk j chunkInfos acc)
    ↔ k ∈ mintAccounts acc
      ∨ ∃ i info, chunkInfos !! i = Some (Some info)
          ∧ classify (info_owner info) (base64ToBytes atob (info_data info).1)
            = MintRecord
          ∧ k = chunk !! (j + i)%nat.
Proof.
  induction chunkInfos as [|info rest IH]; intros j acc k; simpl.
  - split; [by left|]. by intros [?|(i & info & ? & _)].
  - rewrite IH, scanAccount_mintAccounts. split.
    + intros [[?|(inf & -> & Hc & ->)]|(i & inf & Hi & Hc & ->)].
      * by left.
      * right. exists 0%nat, inf. by rewrite Nat.add_0_r.
      * right. exists (S i), inf. split; [done|]. split; [done|].
        f_equal. lia.
    + intros [?|(i & inf & Hi & Hc & ->)]; [by left; left|].
      destruct i as [|i]; simpl in Hi.
      * injection Hi as ->. left. right. exists inf. by rewrite Nat.add_0_r.
      * right. exists i, inf. split; [done|]. split; [done|]. f_equal. lia.
Qed.

Lemma scanChunk_mintAccounts_found chunk chunkInfos j info :
  chunkInfos !! j = Some (Some info) →
  classify (info_owner info) (base64ToBytes atob (info_data info).1) = MintRecord →
  chunk !! j ∈ mintAccounts (scanChunk atob bs58_encode chunk chunkInfos).
Proof.
  intros Hj Hc. unfold scanChunk. apply scanFrom_mintAccounts. right.
  by exists j, info.
Qed.

Section OneMint.
Variable pubkeys : list string.
Variable a : string.
Variable chunk : list string.
Variable j : nat.
Variable info : AccountInfo.
Hypothesis Hnodup : NoDup pubkeys.
Hypothesis Hchunk : chunk ∈ chunkBy 100 pubkeys.
Hypothesis Hat : chunk !! j = Some a.
Hypothesis Hinfo :
  ∀ w, chunkInfosOf chunk (fetchAccountInfo chunk w).1 !! j = Some (Some info).
Hypothesis Hkind :
  classify (info_owner info) (base64ToBytes atob (info_data info).1) = MintRecord.

Lemma mint_position chunk' i :
  chunk' ∈ chunkBy 100 pubkeys → chunk' !! i = Some a → chunk' = chunk ∧ i = j.
Proof.
  intros Hc Hi.
  apply (NoDup_concat_unique (chunkBy 100 pubkeys) chunk' chunk i j a); try done.
  by rewrite chunkBy_concat by lia.
Qed.

Lemma mint_entry_holds m info' label :
  holdsMintEntry a (<[Some a := mintAccountEntry (Some a) info' label]> m).
Proof. eexists. by rewrite lookup_insert_eq. Qed.

Lemma mintEntry_token_insert chunk' w m ta' info' label :
  chunk' ∈ chunkBy 100 pubkeys →
  ta' ∈ tokenAccounts
          (scanChunk atob bs58_encode chunk'
             (chunkInfosOf chunk' (fetchAccountInfo chunk' w).1)) →
  holdsMintEntry a m →
  holdsMintEntry a
    (<[ta_pubkey ta' :=
         tokenAccountEntry ta' info'
           (formatBalance (ta_amount ta') (mi_decimals info')) label]> m).
Proof.
  intros Hc Hta Hm.
  destruct (decide (ta_pubkey ta' = Some a)) as [Hkey|Hkey].
  - apply scanChunk_tokenAccounts in Hta as (i & inf & Hi & Hk & Htok).
    rewrite Hkey in Hk.
    destruct (mint_position chunk' i Hc (eq_sym Hk)) as [-> ->].
    rewrite Hinfo in Hi. injection Hi as <-. by rewrite Hkind in Htok.
  - destruct Hm as (v & Hv & Hrest). exists v. by rewrite lookup_insert_ne.
Qed.

Lemma mintEntry_mint_insert m k info' label :
  holdsMintEntry a m →
  holdsMintEntry a (<[k := mintAccountEntry k info' label]> m).
Proof.
  intros Hm. destruct (decide (k = Some a)) as [->|Hkey].
  - apply mint_entry_holds.
  - destruct Hm as (v & Hv & Hrest). exists v. by rewrite lookup_insert_ne.
Qed.

Lemma mintEntry_processChunk_keeps chunk' m (env : Env) :
  chunk' ∈ chunkBy 100 pubkeys →
  holdsMintEntry a m →
  holdsMintEntry a
    (processChunk atob bs58_encode fetchAccountInfo fetch getLabel chunk' m env).1.
Proof.
  intros Hc Hm.
  apply (processChunk_entries atob bs58_encode fetchAccountInfo fetch getLabel
           (holdsMintEntry a)); [| |done].
  - intros m' ta' info' label Hm' Hta' _.
    by apply mintEntry_token_insert with chunk' (world env).
  - intros m' k info' label Hm' Hk _. by apply mintEntry_mint_insert.
Qed.

Lemma mintEntry_processChunk_establishes m (env : Env) :
  holdsMintEntry a
    (processChunk atob bs58_encode fetchAccountInfo fetch getLabel chunk m env).1.
Proof.
  unfold processChunk, mbind. rewrite bind_run.
  rewrite callFetchAccountInfo_result.
  set (scan := scanChunk atob bs58_encode chunk
                 (chunkInfosOf chunk (fetchAccountInfo chunk (world env)).1)).
  assert (Hin : Some a ∈ mintAccounts scan).
  { rewrite <- Hat. apply scanChunk_mintAccounts_found with info; [|done].
    by rewrite Hinfo. }
  destruct (scanChunk_mintsCollected atob bs58_encode chunk
              (chunkInfosOf chunk (fetchAccountInfo chunk (world env)).1))
    as (_ & Hmints & _). fold scan in Hmints.
  case_decide as Hempty.
  { exfalso. assert (Some a ∈ uniqueMints scan) as Hu by (apply Hmints; by right).
    destruct (uniqueMints scan); [by apply elem_of_nil in Hu|done]. }
  rewrite !bind_run.
  match goal with
  | |- context [forEach (enrichMintAccount getLabel ?mim) _ ?m0 ?e0] =>
      apply (forEach_reaches (holdsMintEntry a)
               (enrichMintAccount getLabel mim) (mintAccounts scan) (Some a) Hin)
  end.
  - intros m' env'.
    match goal with
    | |- context [enrichMintAccount getLabel ?mim _ _ _] =>
        destruct (enrichMintAccount_run getLabel mim (Some a) m' env') as [label ->]
    end.
    apply mint_entry_holds.
  - intros k m' env' Hk Hm'.
    match goal with
    | |- context [enrichMintAccount getLabel ?mim _ _ _] =>
        destruct (enrichMintAccount_run getLabel mim k m' env') as [label ->]
    end.
    by apply mintEntry_mint_insert.
Qed.

Lemma mintEntry_labelEffect pubkey label m :
  holdsMintEntry a m → holdsMintEntry a (labelEffect pubkey label m).
Proof.
  intros (v & Hv & Htype & Hpub & Hmint & Hbal).
  destruct (decide (pubkey = a)) as [->|Hne].
  - unfold labelEffect. rewrite Hv.
    destruct (truthy v && truthyStr label); [|by exists v].
    exists (setProp "label" (optStr label) v). rewrite lookup_insert_eq.
    by rewrite !getProp_setProp_ne.
  - exists v. rewrite labelEffect_other by congruence. done.
Qed.

Lemma builder_holds_mint_entry (env : Env) :
  holdsMintEntry a
    (fetchEnrichmentMap atob bs58_encode fetchAccountInfo fetch getLabel
       pubkeys env).1.
Proof.
  assert (a ∈ pubkeys) as Hin.
  { apply (chunkBy_elem 100 pubkeys chunk); [lia|done|].
    by apply list_elem_of_lookup_2 with j. }
  rewrite fetchEnrichmentMap_result by (by intros ->; apply elem_of_nil in Hin).
  cbv zeta.
  assert (Hchunks : ∀ env',
            holdsMintEntry a
              (forEach (processChunk atob bs58_encode fetchAccountInfo fetch getLabel)
                 (chunkBy 100 pubkeys) ∅ env').1).
  { intros env'.
    apply (forEach_reaches (holdsMintEntry a)) with chunk; [done| |].
    - apply mintEntry_processChunk_establishes.
    - intros chunk' m env'' Hc Hm. by apply mintEntry_processChunk_keeps. }
  destruct getLabel as [g|]; [|apply Hchunks].
  apply forEach_invariant; [|apply Hchunks].
  intros p m env' _ Hm.
  destruct (labelPubkey_result g p m env') as [->|[-> _]]; [|done].
  by apply mintEntry_labelEffect.
Qed.
End OneMint.
End MintEntryFacts.

(** X14.  From a mint account to its entry.  Let the input hold no
    address twice, and let the account-info service answer an address
    of the input, whenever asked, with a blob that classifies as a mint
    record.  Then the returned map holds for the address a token entry
    whose [pubkey] and [mint] are both the address and that has no
    [balance]. *)
Theorem mint_account_entry {World : Type}
    (atob : string → option string) (bs58_encode : list byte → string)
    (fetchAccountInfo : list string → World → option (list (option AccountInfo)) * World)
    (fetch : string → World → FetchResult * World)
    (getLabel : option (JsKey → World → option string * World))
    (pubkeys : list string) (env : Env)
    (a : string) (chunk : list string) (j : nat) (info : AccountInfo) :
  NoDup pubkeys →
  chunk ∈ chunkBy 100 pubkeys → chunk !! j = Some a →
  (∀ w, chunkInfosOf chunk (fetchAccountInfo chunk w).1 !! j = Some (Some info)) →
  classify (info_owner info) (base64ToBytes atob (info_data info).1) = MintRecord →
  ∃ v,
    (fetchEnrichmentMap atob bs58_encode fetchAccountInfo fetch getLabel
       pubkeys env).1 !! Some a = Some v
    ∧ getProp "__type" v = VStr "token"
    ∧ getProp "pubkey" v = VStr a
    ∧ getProp "mint" v = VStr a
    ∧ getProp "balance" v = VUndefined.
Proof.
  intros Hnodup Hchunk Hat Hinfo Hkind.
  exact (builder_holds_mint_entry atob bs58_encode fetchAccountInfo fetch getLabel
           pubkeys a chunk j info Hnodup Hchunk Hat Hinfo Hkind env).
Qed.

(** ** The entries of the sample run *)

Lemma samplePubkeys_NoDup : NoDup samplePubkeys.
Proof. apply (bool_decide_unpack _). by vm_compute. Qed.

Lemma samplePubkeys_chunk : samplePubkeys ∈ chunkBy 100 samplePubkeys.
Proof. by left. Qed.

Lemma token_account_entry_sample :
  ∃ v decimals,
    sampleRun.1 !! Some holderAddress = Some v
    ∧ getProp "__type" v = VStr "token"
    ∧ getProp "pubkey" v = VStr holderAddress
    ∧ getProp "mint" v
      = VStr (sampleBs58
                (subarray 0 32 (base64ToBytes sampleAtob (info_data holdingInfo).1)))
    ∧ getProp "decimals" v = VNum (Z.of_nat decimals)
    ∧ getProp "balance" v
      = VStr (formatBalance
                (BN_le (subarray 64 72
                          (base64ToBytes sampleAtob (info_data holdingInfo).1)))
                decimals).
Proof.
  apply (token_account_entry sampleAtob sampleBs58 sampleFetchAccountInfo sampleFetch
           (Some sampleGetLabel) samplePubkeys sampleEnv holderAddress
           samplePubkeys 0 holdingInfo).
  - apply samplePubkeys_NoDup.
  - apply samplePubkeys_chunk.
  - reflexivity.
  - intros w. reflexivity.
  - by vm_compute.
Defined.

Lemma mint_account_entry_sample :
  ∃ v,
    sampleRun.1 !! Some wsolMint = Some v
    ∧ getProp "__type" v = VStr "token"
    ∧ getProp "pubkey" v = VStr wsolMint
    ∧ getProp "mint" v = VStr wsolMint
    ∧ getProp "balance" v = VUndefined.
Proof.
  apply (mint_account_entry sampleAtob sampleBs58 sampleFetchAccountInfo sampleFetch
           (Some sampleGetLabel) samplePubkeys sampleEnv wsolMint
           samplePubkeys 1 mintRecordInfo).
  - apply samplePubkeys_NoDup.
  - apply samplePubkeys_chunk.
  - reflexivity.
  - intros w. reflexivity.
  - by vm_compute.
Defined.

(** ** Where a token entry comes from *)

(** X15.  An address has a token entry in the returned map only when
    the account-info service answered it, in its chunk of the input,
    with a blob that classifies as a token holding or as a mint record.
    A null answer, an owner that is not a token program, a length that
    matches neither layout or a payload that does not decode leave the
    address without a token entry: it is absent or holds a labeled
    entry. *)
Theorem token_entry_origin {World : Type}
    (atob : string → option string) (bs58_encode : list byte → string)
    (fetchAccountInfo : list string → World → option (list (option AccountInfo)) * World)
    (fetch : string → World → FetchResult * World)
    (getLabel : option (JsKey → World → option string * World))
    (pubkeys : list string) (env : Env) (a : string) (v : Value) :
  (fetchEnrichmentMap atob bs58_encode fetchAccountInfo fetch getLabel
     pubkeys env).1 !! Some a = Some v →
  (getProp "__type" v = VStr "token"
   ∧ answeredAsToken atob fetchAccountInfo pubkeys a)
  ∨ (∃ label, label ≠ EmptyString ∧ v = labeledEntry a label).
Proof.
  revert v.
  apply (fetchEnrichmentMap_invariant atob bs58_encode fetchAccountInfo fetch getLabel
           (λ m, ∀ v, m !! Some a = Some v →
                   (getProp "__type" v = VStr "token"
                    ∧ answeredAsToken atob fetchAccountInfo pubkeys a)
                   ∨ (∃ label, label ≠ EmptyString ∧ v = labeledEntry a label))).
  - intros v. by rewrite lookup_empty.
  - intros chunk w Hchunk. split.
    + intros m ta info label Hm Hta _ v.
      destruct (decide (ta_pubkey ta = Some a)) as [Hkey|Hkey];
        [|rewrite lookup_insert_ne by done; apply Hm].
      rewrite Hkey, lookup_insert_eq. intros [= <-]. left. split; [done|].
      apply scanChunk_tokenAccounts in Hta as (i & inf & Hi & Hk & Hc).
      exists chunk, w, i, inf. rewrite Hkey in Hk. by auto.
    + intros m k info label Hm Hk _ v.
      destruct (decide (k = Some a)) as [->|Hkey];
        [|rewrite lookup_insert_ne by done; apply Hm].
      rewrite lookup_insert_eq. intros [= <-]. left. split; [done|].
      apply scanChunk_mintAccounts in Hk as (i & inf & Hi & Hk & Hc).
      exists chunk, w, i, inf. by auto.
  - intros m pubkey label _ Hm v.
    destruct (decide (pubkey = a)) as [->|Hne];
      [|rewrite labelEffect_other by congruence; apply Hm].
    unfold labelEffect. destruct (m !! Some a) as [existing|] eqn:He.
    + destruct (truthy existing && truthyStr label) eqn:Ht;
        [|rewrite He; apply Hm].
      rewrite lookup_insert_eq. intros [= <-].
      apply andb_prop in Ht as [_ Ht].
      destruct label as [l|]; [|done]. simpl in Ht. apply negb_true_iff in Ht.
      apply bool_decide_eq_false in Ht.
      destruct (Hm existing eq_refl) as [[Htype Horigin]|(l' & Hl' & ->)].
      * left. split; [|done]. by rewrite getProp_setProp_ne.
      * right. exists l. split; [done|]. simpl. done.
    + destruct (truthyStr label) eqn:Ht; [|by rewrite He].
      rewrite lookup_insert_eq. intros [= <-].
      destruct label as [l|]; [|done]. simpl in Ht. apply negb_true_iff in Ht.
      apply bool_decide_eq_false in Ht. right. by exists l.
Qed.

Lemma token_entry_origin_sample :
  (getProp "__type" (labeledEntry treasuryAddress "Treasury") = VStr "token"
   ∧ answeredAsToken sampleAtob sampleFetchAccountInfo samplePubkeys treasuryAddress)
  ∨ (∃ label, label ≠ EmptyString
       ∧ labeledEntry treasuryAddress "Treasury" = labeledEntry treasuryAddress label).
Proof.
  apply (token_entry_origin sampleAtob sampleBs58 sampleFetchAccountInfo sampleFetch
           (Some sampleGetLabel) samplePubkeys sampleEnv treasuryAddress
           (labeledEntry treasuryAddress "Treasury")).
  by vm_compute.
Defined.

(** ** The sign-in gate *)

Lemma splitChar_head s :
  ∃ piece more,
    splitChar "@" s = piece :: more
    ∧ indexOfChar "@"%char piece = None
    ∧ (more = [] ∧ s = piece
       ∨ ∃ t, s = piece +:+ "@" +:+ t ∧ more = splitChar "@" t).
Proof.
  induction s as [|c s IH]; simpl.
  - exists EmptyString, []. by auto.
  - destruct IH as (piece & more & Hs & Hpiece & Hmore).
    case_bool_decide as Hc.
    + subst c. exists EmptyString, (splitChar "@" s). split; [done|].
      split; [done|]. right. by exists s.
    + rewrite Hs. exists (String c piece), more. split; [done|]. split.
      * simpl. rewrite bool_decide_eq_false_2 by done. by rewrite Hpiece.
      * destruct Hmore as [[-> ->]|(t & -> & ->)]; [by left|]. right. by exists t.
Qed.

Lemma splitChar_cons name t :
  indexOfChar "@"%char name = None →
  splitChar "@" (name +:+ "@" +:+ t) = name :: splitChar "@" t.
Proof.
  induction name as [|c name IH]; [done|]. simpl.
  case_bool_decide as Hc; [done|].
  destruct (indexOfChar "@"%char name) eqn:Hname; [done|]. intros _.
  by rewrite IH.
Qed.

Lemma append_nil_r (s : string) : s +:+ EmptyString = s.
Proof. induction s as [|c s IH]; [done|]. rewrite append_cons. by f_equal. Qed.

Lemma splitChar_whole piece :
  indexOfChar "@"%char piece = None → splitChar "@" piece = [piece].
Proof.
  induction piece as [|c piece IH]; [done|]. simpl.
  case_bool_decide as Hc; [done|].
  destruct (indexOfChar "@"%char piece); [done|]. intros _. by rewrite IH.
Qed.

Lemma splitChar_second s domain :
  splitChar "@" s !! 1%nat = Some domain ↔
  ∃ name rest,
    s = name +:+ "@" +:+ domain +:+ rest
    ∧ indexOfChar "@"%char name = None
    ∧ indexOfChar "@"%char domain = None
    ∧ (rest = EmptyString ∨ ∃ more, rest = "@" +:+ more).
Proof.
  split.
  - destruct (splitChar_head s) as (name & more & -> & Hname & Hmore). simpl.
    destruct Hmore as [[-> _]|(t & -> & ->)]; [done|].
    destruct (splitChar_head t) as (d & more' & -> & Hd & Hmore'). simpl.
    intros [= ->]. exists name.
    destruct Hmore' as [[-> ->]|(t' & -> & ->)].
    + exists EmptyString. by rewrite append_nil_r; auto.
    + exists ("@" +:+ t'). split; [done|]. split; [done|]. split; [done|].
      right. by exists t'.
  - intros (name & rest & -> & Hname & Hd & Hrest).
    rewrite splitChar_cons by done. simpl.
    destruct Hrest as [->|(more & ->)].
    + by rewrite append_nil_r, splitChar_whole.
    + by rewrite splitChar_cons by done.
Qed.

Lemma emailAllowed_spec (email : string) :
  emailAllowed email = true ↔
    email ∈ ALLOWED_EMAILS
    ∨ ∃ name domain rest,
        email = name +:+ "@" +:+ domain +:+ rest
        ∧ indexOfChar "@"%char name = None
        ∧ domain ∈ ALLOWED_DOMAINS
        ∧ (rest = EmptyString ∨ ∃ more, rest = "@" +:+ more).
Proof.
  unfold emailAllowed. cbv zeta.
  rewrite negb_true_iff, andb_false_iff, !negb_false_iff.
  rewrite andb_true_iff, !bool_decide_eq_true. split.
  - intros [[Htruthy Hdomain]|Hemail]; [|by left]. right.
    destruct (splitChar "@" email !! 1%nat) as [domain|] eqn:Hsplit; [|done].
    simpl in Hdomain.
    apply splitChar_second in Hsplit as (name & rest & -> & Hname & _ & Hrest).
    by exists name, domain, rest.
  - intros [Hemail|(name & domain & rest & -> & Hname & Hdomain & Hrest)];
      [by right|]. left.
    assert (indexOfChar "@"%char domain = None ∧ domain ≠ EmptyString) as [Hd Hne].
    { apply list_elem_of_In in Hdomain. simpl in Hdomain.
      destruct Hdomain as [<-|[<-|[]]]; by vm_compute. }
    assert (splitChar "@" (name +:+ "@" +:+ domain +:+ rest) !! 1%nat = Some domain)
      as -> by (apply splitChar_second; by exists name, rest).
    simpl. split; [|done]. by rewrite bool_decide_eq_false_2.
Qed.

(** X16.  The sign-in gate.  With [email] the lower-cased email of the
    user, empty when the user has none, the user passes exactly when
    [email] is one of the listed emails, or the text between its first
    at-sign and the next one, or the end, is one of the two listed
    domains.  What follows a second at-sign is not looked at. *)
Theorem email_gate (toLowerCase : string → string) (userEmail : option string) :
  let email := toLowerCase (default EmptyString userEmail) in
  userAllowed toLowerCase userEmail = true ↔
    email ∈ ALLOWED_EMAILS
    ∨ ∃ name domain rest,
        email = name +:+ "@" +:+ domain +:+ rest
        ∧ indexOfChar "@"%char name = None
        ∧ domain ∈ ALLOWED_DOMAINS
        ∧ (rest = EmptyString ∨ ∃ more, rest = "@" +:+ more).
Proof.
  intros email. unfold userAllowed.
  assert (orString userEmail EmptyString = default EmptyString userEmail) as ->.
  { destruct userEmail as [e|]; [|done]. unfold orString, truthyStr.
    case_bool_decide; simpl; congruence. }
  apply emailAllowed_spec.
Qed.

Example email_gate_second_at :
  emailAllowed "someone@mrgn.group@elsewhere.example" = true.
Proof. by vm_compute. Qed.

(** ** The round trip of inject and strip, by the shape of the leaf *)

Lemma append_assoc (a b c : string) : (a +:+ b) +:+ c = a +:+ b +:+ c.
Proof. induction a as [|x a IH]; [done|]. rewrite !append_cons. by f_equal. Qed.

Lemma noneOf_app p a b :
  noneOf p (a +:+ b) = noneOf p a && noneOf p b.
Proof.
  induction a as [|c a IH]; [done|]. rewrite append_cons. cbn [noneOf].
  by rewrite IH, andb_assoc.
Qed.

Lemma captureToClose_spec s inner :
  captureToClose s = Some inner
  ↔ s = inner +:+ ")" ∧ noneOf isLineTerminator inner = true.
Proof.
  split.
  - revert inner. induction s as [|c s IH]; intros inner; simpl; [done|].
    destruct s as [|d s].
    + case_bool_decide as Hc; [|done]. intros [= <-]. by subst c.
    + destruct (isLineTerminator c) eqn:Hlt; [done|].
      destruct (captureToClose (String d s)) as [i|]; simpl; [|done].
      intros [= <-]. destruct (IH i eq_refl) as [Hs Hi].
      rewrite append_cons, <- Hs. cbn [noneOf]. by rewrite Hlt, Hi.
  - intros [-> Hinner]. induction inner as [|c i IH]; [done|].
    cbn [noneOf] in Hinner. apply andb_prop in Hinner as [Hc Hi].
    apply negb_true_iff in Hc. rewrite append_cons.
    specialize (IH Hi). destruct i as [|d i].
    + simpl. by rewrite Hc.
    + rewrite append_cons in *.
      change (captureToClose (String c (String d (i +:+ ")"))))
        with (if isLineTerminator c then None
              else String c <$> captureToClose (String d (i +:+ ")"))).
      by rewrite Hc, IH.
Qed.

Lemma isLineTerminator_not_paren c :
  isLineTerminator c = true → bool_decide (c = "("%char) = false.
Proof. intros Hc. apply bool_decide_eq_false. by intros ->. Qed.

(** A line terminator that is not the last character bars the capture. *)
Lemma captureToClose_across_line head t :
  endsWith isLineTerminator head = true → t ≠ EmptyString →
  captureToClose (head +:+ t) = None.
Proof.
  intros Hhead Ht. destruct (captureToClose (head +:+ t)) as [inner|] eqn:Hc; [|done].
  exfalso. apply captureToClose_spec in Hc as [Hs Hinner].
  revert inner Hs Hinner. induction head as [|c h IH]; intros inner Hs Hinner; [done|].
  rewrite append_cons in Hs. destruct inner as [|c' inner].
  - injection Hs as _ Hs. destruct h; [by destruct t|done].
  - rewrite append_cons in Hs. injection Hs as <- Hs.
    cbn [noneOf] in Hinner. apply andb_prop in Hinner as [Hc Hinner].
    destruct h as [|d h].
    + simpl in Hhead. by rewrite Hhead in Hc.
    + by apply (IH Hhead inner).
Qed.

Lemma matchWrapped_last_line before inner :
  noneOf isOpenParen before = true → noneOf isLineTerminator inner = true →
  matchWrapped (before +:+ "(" +:+ inner +:+ ")") = Some inner.
Proof.
  intros Hbefore Hinner. induction before as [|c b IH].
  - change (matchWrapped (String "(" (inner +:+ ")")) = Some inner). simpl.
    by rewrite (proj2 (captureToClose_spec (inner +:+ ")") inner)).
  - cbn [noneOf] in Hbefore. apply andb_prop in Hbefore as [Hc Hb].
    apply negb_true_iff in Hc. rewrite append_cons. cbn [matchWrapped].
    unfold isOpenParen in Hc. rewrite Hc. by apply IH.
Qed.

Lemma matchWrapped_skips_lines head t :
  endsWith isLineTerminator head = true → t ≠ EmptyString →
  matchWrapped (head +:+ t) = matchWrapped t.
Proof.
  intros Hhead Ht. induction head as [|c h IH]; [done|].
  rewrite append_cons. cbn [matchWrapped]. destruct h as [|d h].
  - simpl in Hhead. by rewrite isLineTerminator_not_paren.
  - specialize (IH Hhead). rewrite IH.
    rewrite (captureToClose_across_line (String d h) t Hhead Ht).
    by destruct (bool_decide (c = "("%char)).
Qed.

Lemma endsWith_cons p c s :
  s ≠ EmptyString → endsWith p (String c s) = endsWith p s.
Proof. by destruct s. Qed.

(** The pattern of inject, read off the shape of the string. *)
Lemma matchWrapped_wrapsKey s inner :
  matchWrapped s = Some inner ↔ wrapsKey s inner.
Proof.
  split.
  - revert inner. induction s as [|c s IH]; intros inner; [done|].
    cbn [matchWrapped].
    assert (Hrest : matchWrapped s = Some inner →
              (bool_decide (c = "("%char) = true → captureToClose s = None) →
              wrapsKey (String c s) inner).
    { intros Hm Hnone. destruct (IH inner Hm) as (head & before & -> & Hhead & Hb1 & Hb2 & Hi).
      destruct Hhead as [->|Hhead].
      - destruct (isLineTerminator c) eqn:Hlt.
        + exists (String c EmptyString), before. by auto 10.
        + destruct (bool_decide (c = "("%char)) eqn:Hp.
          * exfalso. specialize (Hnone eq_refl).
            change (EmptyString +:+ before +:+ "(" +:+ inner +:+ ")")
              with (before +:+ "(" +:+ inner +:+ ")") in Hnone.
            rewrite <- (append_assoc before "(" (inner +:+ ")")) in Hnone.
            rewrite <- (append_assoc (before +:+ "(") inner ")") in Hnone.
            rewrite (proj2 (captureToClose_spec _ ((before +:+ "(") +:+ inner)))
              in Hnone; [done|].
            split; [done|]. rewrite !noneOf_app, Hb1, Hi. done.
          * exists EmptyString, (String c before). split; [done|].
            split; [by left|]. cbn [noneOf]. unfold isOpenParen at 1.
            by rewrite Hlt, Hp, Hb1, Hb2.
      - exists (String c head), before. split; [done|]. split; [|done].
        right. rewrite endsWith_cons; [done|]. by destruct head. }
    case_bool_decide as Hc.
    + destruct (captureToClose s) as [i|] eqn:Hcap.
      * intros [= <-]. apply captureToClose_spec in Hcap as [-> Hi].
        subst c. exists EmptyString, EmptyString. by auto 10.
      * intros Hm. by apply Hrest.
    + intros Hm. by apply Hrest.
  - intros (head & before & -> & Hhead & Hb1 & Hb2 & Hi).
    destruct Hhead as [->|Hhead].
    + by apply matchWrapped_last_line.
    + rewrite matchWrapped_skips_lines; [by apply matchWrapped_last_line|done|].
      by destruct before.
Qed.

Lemma mapStrings_id_on f data :
  (∀ s, s ∈ stringLeaves data → f s = s) → mapStrings f data = data.
Proof.
  induction data as [| | | |s|items IH|props IH] using Value_tree_ind;
    intros Hleaves; simpl; try done.
  - rewrite Hleaves; [done|]. by left.
  - f_equal. apply map_id_on. intros item Hitem.
    rewrite Forall_forall in IH. apply IH; [done|].
    intros s Hs. apply Hleaves. by apply stringLeaves_item with item.
  - f_equal. apply map_id_on. intros [k v] Hkv. simpl. f_equal.
    rewrite Forall_forall in IH. apply (IH (k, v) Hkv).
    intros s Hs. apply Hleaves. by apply stringLeaves_prop with (k, v).
Qed.

Lemma resolveLeaf_unwrapped map s :
  map !! Some s = None →
  (∀ inner, wrapsKey s inner → map !! Some inner = None) →
  resolveLeaf map s = s.
Proof.
  intros Hs Hnone. unfold resolveLeaf. rewrite Hs.
  destruct (matchWrapped s) as [inner|] eqn:Hm; [|done].
  apply matchWrapped_wrapsKey in Hm. rewrite decide_False; [done|].
  rewrite (Hnone inner Hm). by intros [? ?].
Qed.

(** C1 (as amended).  For a map whose entries carry their own key and a
    tree without annotation-shaped objects, strip after inject keeps
    the shape of the tree and everything that is not a string, and
    puts in the place of each string leaf a string that depends on the
    leaf alone: a leaf that is a key of the map comes back as itself; a
    leaf that is not a key, ends in a closing parenthesis, and has a
    key of the map between that parenthesis and the first opening
    parenthesis of its last line, comes back as that key; every other
    leaf comes back as itself.  When no leaf that is not a key has a
    key in that place, the tree is reproduced exactly. *)
Theorem strip_inject_round_trip (map : gmap JsKey Value) (data : Value) :
  carriesOwnKey map → annotationFree data = true →
  ∃ restore : string → string,
    stripEnrichment (injectEnrichment data map) = mapStrings restore data
    ∧ (∀ s, is_Some (map !! Some s) → restore s = s)
    ∧ (∀ s inner, map !! Some s = None → wrapsKey s inner →
         is_Some (map !! Some inner) → restore s = inner)
    ∧ (∀ s, map !! Some s = None →
         (∀ inner, wrapsKey s inner → map !! Some inner = None) → restore s = s)
    ∧ ((∀ s inner, s ∈ stringLeaves data → map !! Some s = None →
          wrapsKey s inner → map !! Some inner = None) →
       stripEnrichment (injectEnrichment data map) = data).
Proof.
  intros Hwf Hfree. exists (resolveLeaf map).
  split; [by apply strip_inject_resolve|].
  split; [|split; [|split]].
  - intros s [a Ha]. unfold resolveLeaf. by rewrite Ha.
  - intros s inner Hs Hw Hi. apply matchWrapped_wrapsKey in Hw.
    unfold resolveLeaf. rewrite Hs, Hw. by rewrite decide_True.
  - apply resolveLeaf_unwrapped.
  - intros Hleaves. rewrite strip_inject_resolve by done.
    apply mapStrings_id_on. intros s Hs.
    destruct (map !! Some s) as [a|] eqn:Ha.
    + unfold resolveLeaf. by rewrite Ha.
    + apply resolveLeaf_unwrapped; [done|]. intros inner. by apply Hleaves.
Qed.

Lemma strip_inject_round_trip_sample :
  stripEnrichment (injectEnrichment sampleTree sampleMap) = sampleTree.
Proof.
  destruct (strip_inject_round_trip sampleMap sampleTree)
    as (restore & _ & _ & _ & _ & Hsame).
  - apply sampleMap_carriesOwnKey.
  - by vm_compute.
  - apply Hsame. intros s inner Hs Hkey Hwraps.
    apply matchWrapped_wrapsKey in Hwraps.
    apply list_elem_of_In in Hs. simpl in Hs.
    destruct Hs as [<-|[<-|[]]]; by vm_compute in Hwraps.
Defined.

(** The capture starts at the first opening parenthesis of the last
    line: a key in a later pair of parentheses is not found. *)
Example round_trip_inner_parentheses :
  stripEnrichment
    (injectEnrichment
       (VArr [VStr "a (b) (So11111111111111111111111111111111111111112)";
              VStr "((So11111111111111111111111111111111111111112)"])
       sampleMap)
  = VArr [VStr "a (b) (So11111111111111111111111111111111111111112)";
          VStr "((So11111111111111111111111111111111111111112)"].
Proof. by vm_compute. Qed.

(** ** The metadata fetch against the answers of the endpoint *)

Section MetadataAnswers.
Context {World : Type}.
Variable fetch : string → World → FetchResult * World.

Lemma fetchAnswers_cons url rest (w : World) :
  fetchAnswers fetch (url :: rest) w
  = ((fetch url w).1 :: (fetchAnswers fetch rest (fetch url w).2).1,
     (fetchAnswers fetch rest (fetch url w).2).2).
Proof.
  simpl. destruct (fetch url w) as [r w']. simpl.
  by destruct (fetchAnswers fetch rest w').
Qed.

Lemma fetchAnswers_length urls (w : World) :
  length (fetchAnswers fetch urls w).1 = length urls.
Proof.
  revert w. induction urls as [|url rest IH]; intros w; [done|].
  rewrite fetchAnswers_cons. simpl. by rewrite IH.
Qed.

(** Every answer in the list is what the endpoint answered to the
    request at its place, in some world. *)
Lemma fetchAnswers_lookup urls (w : World) i res :
  (fetchAnswers fetch urls w).1 !! i = Some res →
  ∃ url w', urls !! i = Some url ∧ res = (fetch url w').1.
Proof.
  revert w i. induction urls as [|url rest IH]; intros w i; [done|].
  rewrite fetchAnswers_cons. destruct i as [|i]; simpl.
  - intros [= <-]. by exists url, w.
  - apply IH.
Qed.

Lemma fetchBatch_world apiChunk mintInfoMap (env : Env) :
  world (fetchBatch fetch apiChunk mintInfoMap env).2
  = (fetch (metadataUrl apiChunk) (world env)).2.
Proof.
  unfold fetchBatch, mbind, mret, Eff_ret, callFetch. rewrite bind_run.
  by destruct (fetch (metadataUrl apiChunk) (world env)).
Qed.

Lemma forEach_fetchBatch_answers apiChunks mintInfoMap (env : Env) :
  let answers := fetchAnswers fetch (metadataUrl <$> apiChunks) (world env) in
  let result := forEach (fetchBatch fetch) apiChunks mintInfoMap env in
  trace result.2
  = trace env ++ zip_with (λ c r, EvFetch (metadataUrl c) r) apiChunks answers.1
  ∧ world result.2 = answers.2
  ∧ result.1
    = foldl (λ acc cr, applyResponse cr.1 cr.2 acc) mintInfoMap
        (zip apiChunks answers.1).
Proof.
  revert mintInfoMap env.
  induction apiChunks as [|c l IH]; intros m env; cbv zeta.
  - simpl. by rewrite app_nil_r.
  - rewrite forEach_cons, fmap_cons, fetchAnswers_cons.
    destruct (fetchBatch_run fetch c m env) as [Hval Htr].
    pose proof (fetchBatch_world c m env) as Hw.
    destruct (IH (fetchBatch fetch c m env).1 (fetchBatch fetch c m env).2)
      as (Htr' & Hw' & Hval').
    rewrite Hw in Htr', Hw', Hval'. cbn [fst snd].
    split; [|split].
    + rewrite Htr', Htr. simpl. by rewrite <- app_assoc.
    + done.
    + rewrite Hval', Hval. done.
Qed.

Lemma fetchMetadata_answers mintsList (env : Env) :
  NoDup mintsList →
  let apiChunks := chunkBy 50 mintsList in
  let answers := fetchAnswers fetch (metadataUrl <$> apiChunks) (world env) in
  let result := fetchMetadata fetch mintsList env in
  length answers.1 = length apiChunks
  ∧ trace result.2
    = trace env ++ zip_with (λ c r, EvFetch (metadataUrl c) r) apiChunks answers.1
  ∧ world result.2 = answers.2
  ∧ ∀ i apiChunk res mint,
      apiChunks !! i = Some apiChunk → answers.1 !! i = Some res →
      mint ∈ apiChunk →
      result.1 !! mint = metaInfo mint <$> responseMeta res mint.
Proof.
  intros Hnd apiChunks answers result.
  assert (Hlen : length answers.1 = length apiChunks).
  { unfold answers. by rewrite fetchAnswers_length, length_fmap. }
  destruct (forEach_fetchBatch_answers apiChunks ∅ env) as (Htr & Hw & Hval).
  split; [done|]. split; [done|]. split; [done|].
  intros i c r k Hc Hr Hk. unfold result, fetchMetadata. fold apiChunks.
  rewrite Hval.
  apply foldl_applyResponse_lookup with i c; try done.
  unfold apiChunks. by rewrite chunkBy_concat by lia.
Qed.

End MetadataAnswers.


(** ** The closing pass over the labels *)

Section ClosingPass.
Context {World : Type}.
Variable atob : string → option string.
Variable bs58_encode : list byte → string.
Variable fetchAccountInfo :
  list string → World → option (list (option AccountInfo)) * World.
Variable fetch : string → World → FetchResult * World.
Variable g : JsKey → World → option string * World.

Lemma forEach_app {A S} (body : A → S → @Eff World S) l1 l2 s (env : Env) :
  forEach body (l1 ++ l2) s env
  = forEach body l2 (forEach body l1 s env).1 (forEach body l1 s env).2.
Proof.
  revert s env. induction l1 as [|x l1 IH]; intros s env; [done|].
  rewrite <- app_comm_cons, !forEach_cons. apply IH.
Qed.

Lemma labelLoop_other l m (env : Env) a :
  a ∉ l → (forEach (labelPubkey g) l m env).1 !! Some a = m !! Some a.
Proof.
  intros Ha.
  apply (forEach_invariant (λ m', m' !! Some a = m !! Some a)); [|done].
  intros p m' env' Hp Hm'. rewrite labelPubkey_other; [done|].
  intros [= ->]. done.
Qed.

Lemma labelPubkey_lookup a m (env : Env) :
  (∀ e, m !! Some a = Some e → isObject e) →
  (labelPubkey g a m env).1 !! Some a
  = match (g (Some a) (world env)).1 with
    | Some l =>
        if decide (l = EmptyString) then m !! Some a
        else match m !! Some a with
             | None => Some (labeledEntry a l)
             | Some existing => Some (setProp "label" (VStr l) existing)
             end
    | None => m !! Some a
    end.
Proof.
  intros Hobj.
  destruct (labelPubkey_result g a m env) as [->|(_ & e & He & Hf)].
  - unfold labelEffect. destruct (g (Some a) (world env)).1 as [l|]; simpl.
    + destruct (decide (l = EmptyString)) as [->|Hl].
      * simpl. destruct (m !! Some a) as [e|] eqn:He; [|done].
        by rewrite andb_false_r.
      * rewrite bool_decide_eq_false_2 by done. simpl.
        destruct (m !! Some a) as [e|] eqn:He.
        -- rewrite (isObject_truthy e) by by apply Hobj.
           simpl. by rewrite lookup_insert_eq.
        -- by rewrite lookup_insert_eq.
    + destruct (m !! Some a) as [e|] eqn:He; [|done]. by rewrite andb_false_r.
  - rewrite (isObject_truthy e) in Hf by by apply Hobj. done.
Qed.

(** C8 (as amended).  The closing pass acts on what the label lookup
    answers for an address at the moment it asks, that is after the
    chunks and after the lookups for the addresses that precede it in
    the input.  If the answer is a non-empty label: when the address
    has no token or mint entry after the chunks, the result holds for
    it a labeled entry with exactly that address and label; when it
    has one (an entry of type token), the result holds that same entry
    with [label] set to the label, whatever label the entry was created
    with, every other field as it was.  If the answer is undefined or
    the empty string, the result holds for the address exactly what
    the chunks left: no labeled entry is created, and an entry is kept
    with the label it was created with. *)
Theorem label_pass (before after : list string) (a : string) (env : Env) :
  let pubkeys := before ++ a :: after in
  NoDup pubkeys →
  let chunked :=
    forEach (processChunk atob bs58_encode fetchAccountInfo fetch (Some g))
      (chunkBy 100 pubkeys) ∅ env in
  let atCall := forEach (labelPubkey g) before chunked.1 chunked.2 in
  let answer := (g (Some a) (world atCall.2)).1 in
  let result :=
    (fetchEnrichmentMap atob bs58_encode fetchAccountInfo fetch (Some g)
       pubkeys env).1 in
  (answer = None ∨ answer = Some EmptyString →
   result !! Some a = chunked.1 !! Some a)
  ∧ (∀ l, answer = Some l → l ≠ EmptyString →
     match chunked.1 !! Some a with
     | None =>
         result !! Some a = Some (labeledEntry a l)
         ∧ getProp "pubkey" (labeledEntry a l) = VStr a
         ∧ getProp "label" (labeledEntry a l) = VStr l
     | Some existing =>
         getProp "__type" existing = VStr "token"
         ∧ result !! Some a = Some (setProp "label" (VStr l) existing)
         ∧ getProp "label" (setProp "label" (VStr l) existing) = VStr l
         ∧ ∀ key, key ≠ "label" →
             getProp key (setProp "label" (VStr l) existing) = getProp key existing
     end).
Proof.
  intros pubkeys Hnodup chunked atCall answer result.
  apply NoDup_app in Hnodup as (_ & Hbefore & Hafter).
  apply NoDup_cons in Hafter as [Hafter _].
  assert (Hnotbefore : a ∉ before).
  { intros Hin. apply (Hbefore a Hin). by left. }
  assert (Hat : atCall.1 !! Some a = chunked.1 !! Some a)
    by by apply labelLoop_other.
  assert (Hobj : ∀ e, atCall.1 !! Some a = Some e → isObject e).
  { intros e He. rewrite Hat in He.
    by apply (chunkLoop_objects atob bs58_encode fetchAccountInfo fetch (Some g)
                (chunkBy 100 pubkeys) env (Some a) e He). }
  assert (Hres : result !! Some a
                 = (labelPubkey g a atCall.1 atCall.2).1 !! Some a).
  { unfold result. rewrite fetchEnrichmentMap_result by (by destruct before).
    cbv zeta. fold chunked.
    change (forEach (labelPubkey g) pubkeys)
      with (forEach (labelPubkey g) (before ++ a :: after)).
    rewrite forEach_app. fold atCall.
    rewrite forEach_cons. by apply labelLoop_other. }
  rewrite Hres, (labelPubkey_lookup a atCall.1 atCall.2 Hobj). fold answer.
  rewrite Hat. split.
  - intros [->| ->]; [done|]. by rewrite decide_True.
  - intros l -> Hl. rewrite decide_False by done.
    destruct (chunked.1 !! Some a) as [e|] eqn:He; [|done].
    split; [by apply (chunkLoop_tokens atob bs58_encode fetchAccountInfo fetch (Some g)
                        (chunkBy 100 pubkeys) env (Some a) e He)|].
    split; [done|]. split.
    + destruct (chunkLoop_objects atob bs58_encode fetchAccountInfo fetch (Some g)
                  (chunkBy 100 pubkeys) env (Some a) e He) as [props ->].
      apply getProp_setProp_eq.
    + intros key Hkey. by apply getProp_setProp_ne.
Qed.
End ClosingPass.

Lemma label_pass_sample :
  getProp "label" <$> relabelRun.1 !! Some holderAddress = Some (VStr "late").
Proof.
  destruct (label_pass sampleAtob sampleBs58 countingFetchAccountInfo countingFetch
              countingGetLabel [] [] holderAddress {| world := 0%nat; trace := [] |})
    as [_ Hlabel].
  - apply NoDup_singleton.
  - specialize (Hlabel "late" ltac:(by vm_compute) ltac:(discriminate)).
    cbv zeta in Hlabel.
    match type of Hlabel with
    | match ?entry with _ => _ end => destruct entry as [existing|] eqn:Hexisting
    end; [|by vm_compute in Hexisting].
    destruct Hlabel as (_ & Hresult & Hlate & _).
    etrans; [apply (f_equal (fmap (getProp "label"))); exact Hresult|].
    simpl. f_equal. exact Hlate.
Defined.

(** The label that a token entry is created with is the answer of the
    lookup at that moment, also when it is the empty string; the
    closing pass then leaves the entry alone. *)
Example blank_label_on_token_entry :
  getProp "label" <$> blankLabelTokenRun.1 !! Some holderAddress
  = Some (VStr EmptyString).
Proof. by vm_compute. Qed.

Example label_at_creation_replaced :
  getProp "label" <$>
    (forEach (processChunk sampleAtob sampleBs58 countingFetchAccountInfo countingFetch
                (Some countingGetLabel))
       (chunkBy 100 [holderAddress]) ∅ {| world := 0%nat; trace := [] |}).1
      !! Some holderAddress
  = Some (VStr "early").
Proof. by vm_compute. Qed.

(** ** The metadata of an annotation, from the answers of the endpoint *)

Section AnnotationFacts.
Context {World : Type}.
Variable atob : string → option string.
Variable bs58_encode : list byte → string.
Variable fetchAccountInfo :
  list string → World → option (list (option AccountInfo)) * World.
Variable fetch : string → World → FetchResult * World.
Variable getLabel : option (JsKey → World → option string * World).

Section OneAnnotation.
Variable pubkeys : list string.
Variable a : string.
Variable chunk : list string.
Variable j : nat.
Variable info : AccountInfo.
Variable mint : string.
Variable om : option TokenMeta.
Hypothesis Hnodup : NoDup pubkeys.
Hypothesis Hchunk : chunk ∈ chunkBy 100 pubkeys.
Hypothesis Hat : chunk !! j = Some a.
Hypothesis Hinfo :
  ∀ w, chunkInfosOf chunk (fetchAccountInfo chunk w).1 !! j = Some (Some info).
Hypothesis Hmeta :
  ∀ apiChunk w, Some mint ∈ apiChunk →
    responseMeta (fetch (metadataUrl apiChunk) w).1 (Some mint) = om.

Lemma annotation_position chunk' i :
  chunk' ∈ chunkBy 100 pubkeys → chunk' !! i = Some a → chunk' = chunk ∧ i = j.
Proof.
  intros Hc Hi.
  apply (NoDup_concat_unique (chunkBy 100 pubkeys) chunk' chunk i j a); try done.
  by rewrite chunkBy_concat by lia.
Qed.

(** The mint resolves to what the endpoint has for it. *)
Lemma resolveInfo_expected mintsList (env : Env) :
  NoDup mintsList → Some mint ∈ mintsList →
  resolveInfo (fetchMetadata fetch mintsList env).1 (Some mint)
  = expectedInfo mint om.
Proof.
  intros Hnd Hin.
  destruct (fetchMetadata_answers fetch mintsList env Hnd) as (Hlen & _ & _ & Hval).
  rewrite <- (chunkBy_concat 50 mintsList) in Hin by lia.
  apply elem_of_concat in Hin as (apiChunk & Hc & Hin).
  apply list_elem_of_lookup in Hc as [i Hi].
  destruct (lookup_lt_is_Some_2
              (fetchAnswers fetch (metadataUrl <$> chunkBy 50 mintsList) (world env)).1 i)
    as [res Hres].
  { rewrite Hlen. by apply lookup_lt_Some with apiChunk. }
  destruct (fetchAnswers_lookup fetch _ _ _ _ Hres) as (url & w' & Hurl & ->).
  rewrite list_lookup_fmap, Hi in Hurl. injection Hurl as <-.
  unfold resolveInfo. rewrite (Hval i apiChunk _ (Some mint) Hi Hres Hin).
  rewrite (Hmeta apiChunk w' Hin). by destruct om.
Qed.

Lemma annotation_insert_other m k v :
  k ≠ Some a →
  holdsAnnotation a mint (expectedInfo mint om) m →
  holdsAnnotation a mint (expectedInfo mint om) (<[k := v]> m).
Proof.
  intros Hk (e & He & Hrest). exists e. by rewrite lookup_insert_ne.
Qed.

Lemma annotation_other_chunk chunk' m (env : Env) :
  chunk' ∈ chunkBy 100 pubkeys → chunk' ≠ chunk →
  holdsAnnotation a mint (expectedInfo mint om) m →
  holdsAnnotation a mint (expectedInfo mint om)
    (processChunk atob bs58_encode fetchAccountInfo fetch getLabel chunk' m env).1.
Proof.
  intros Hc Hne Hm.
  apply (processChunk_entries atob bs58_encode fetchAccountInfo fetch getLabel
           (holdsAnnotation a mint (expectedInfo mint om))); [| |done].
  - intros m' ta' info' label Hm' Hta' _. apply annotation_insert_other; [|done].
    intros Hkey. apply scanChunk_tokenAccounts in Hta' as (i & inf & _ & Hk & _).
    rewrite Hkey in Hk. by destruct (annotation_position chunk' i Hc (eq_sym Hk)).
  - intros m' k info' label Hm' Hk _. apply annotation_insert_other; [|done].
    intros ->. apply scanChunk_mintAccounts in Hk as (i & inf & _ & Hk & _).
    by destruct (annotation_position chunk' i Hc (eq_sym Hk)).
Qed.

Lemma annotation_labelEffect pubkey label m :
  holdsAnnotation a mint (expectedInfo mint om) m →
  holdsAnnotation a mint (expectedInfo mint om) (labelEffect pubkey label m).
Proof.
  intros (v & Hv & Htype & Hmint & Hsym & Hdec & Hname & Hlogo).
  destruct (decide (pubkey = a)) as [->|Hne].
  - unfold labelEffect. rewrite Hv.
    destruct (truthy v && truthyStr label); [|by exists v].
    exists (setProp "label" (optStr label) v). rewrite lookup_insert_eq.
    by rewrite !getProp_setProp_ne.
  - exists v. rewrite labelEffect_other by congruence. done.
Qed.

(** In the chunk of the address, a blob that classifies as a token
    holding gives the entry the metadata of the mint in the blob. *)
Lemma annotation_token_chunk m (env : Env) :
  classify (info_owner info) (base64ToBytes atob (info_data info).1) = TokenHolding →
  mint = bs58_encode (subarray 0 32 (base64ToBytes atob (info_data info).1)) →
  holdsAnnotation a mint (expectedInfo mint om)
    (processChunk atob bs58_encode fetchAccountInfo fetch getLabel chunk m env).1.
Proof.
  intros Hkind Hmint.
  set (ta := tokenAccountAt atob bs58_encode chunk j info).
  assert (Hta_mint : ta_mint ta = mint) by by rewrite Hmint.
  assert (Hta_key : ta_pubkey ta = Some a) by exact Hat.
  unfold processChunk, mbind. rewrite bind_run.
  rewrite callFetchAccountInfo_result.
  set (scan := scanChunk atob bs58_encode chunk
                 (chunkInfosOf chunk (fetchAccountInfo chunk (world env)).1)).
  assert (Hta : ta ∈ tokenAccounts scan).
  { apply scanChunk_tokens. exists j, info. by rewrite Hinfo. }
  destruct (scanChunk_mintsCollected atob bs58_encode chunk
              (chunkInfosOf chunk (fetchAccountInfo chunk (world env)).1))
    as (Hnd & Hmints & _). fold scan in Hnd, Hmints.
  assert (Hin : Some mint ∈ uniqueMints scan).
  { apply Hmints. left. exists ta. by rewrite Hta_mint. }
  case_decide as Hempty.
  { exfalso. destruct (uniqueMints scan); [by apply elem_of_nil in Hin|done]. }
  rewrite !bind_run.
  set (env1 := (callFetchAccountInfo fetchAccountInfo chunk env).2).
  pose proof (resolveInfo_expected (uniqueMints scan) env1 Hnd Hin) as Hresolve.
  assert (Hentry : ∀ m' label,
            holdsAnnotation a mint (expectedInfo mint om)
              (<[ta_pubkey ta :=
                   tokenAccountEntry ta
                     (resolveInfo (fetchMetadata fetch (uniqueMints scan) env1).1
                        (Some (ta_mint ta)))
                     (formatBalance (ta_amount ta)
                        (mi_decimals
                           (resolveInfo (fetchMetadata fetch (uniqueMints scan) env1).1
                              (Some (ta_mint ta))))) label]> m')).
  { intros m' label. clear Hta. clearbody ta. rewrite Hta_mint, Hresolve. eexists.
    rewrite Hta_key, lookup_insert_eq. split; [done|]. simpl.
    by rewrite Hta_mint. }
  apply forEach_invariant.
  - intros k m' env' Hk Hm'.
    destruct (enrichMintAccount_run getLabel
                (fetchMetadata fetch (uniqueMints scan) env1).1 k m' env')
      as [label ->].
    apply annotation_insert_other; [|done]. intros ->.
    apply scanChunk_mintAccounts in Hk as (i & inf & Hi & Hk & Hc).
    destruct (annotation_position chunk i Hchunk (eq_sym Hk)) as [_ ->].
    rewrite Hinfo in Hi. injection Hi as <-. by rewrite Hkind in Hc.
  - apply (forEach_reaches (holdsAnnotation a mint (expectedInfo mint om))) with ta;
      [done| |].
    + intros m' env'.
      destruct (enrichTokenAccount_run getLabel
                  (fetchMetadata fetch (uniqueMints scan) env1).1 ta m' env')
        as [label ->].
      apply Hentry.
    + intros ta' m' env' Hta' Hm'.
      destruct (enrichTokenAccount_run getLabel
                  (fetchMetadata fetch (uniqueMints scan) env1).1 ta' m' env')
        as [label ->].
      destruct (decide (ta_pubkey ta' = Some a)) as [Hkey|Hkey];
        [|by apply annotation_insert_other].
      apply scanChunk_tokens in Hta' as (i & inf & Hi & _ & ->).
      destruct (annotation_position chunk i Hchunk Hkey) as [_ ->].
      rewrite Hinfo in Hi. injection Hi as <-. apply Hentry.
Qed.

(** In the chunk of the address, a blob that classifies as a mint
    record gives the entry the metadata of the address itself. *)
Lemma annotation_mint_chunk m (env : Env) :
  classify (info_owner info) (base64ToBytes atob (info_data info).1) = MintRecord →
  mint = a →
  holdsAnnotation a mint (expectedInfo mint om)
    (processChunk atob bs58_encode fetchAccountInfo fetch getLabel chunk m env).1.
Proof.
  intros Hkind Hmint.
  unfold processChunk, mbind. rewrite bind_run.
  rewrite callFetchAccountInfo_result.
  set (scan := scanChunk atob bs58_encode chunk
                 (chunkInfosOf chunk (fetchAccountInfo chunk (world env)).1)).
  assert (Hfound : Some a ∈ mintAccounts scan).
  { rewrite <- Hat. apply scanChunk_mintAccounts_found with info; [|done].
    by rewrite Hinfo. }
  destruct (scanChunk_mintsCollected atob bs58_encode chunk
              (chunkInfosOf chunk (fetchAccountInfo chunk (world env)).1))
    as (Hnd & Hmints & _). fold scan in Hnd, Hmints.
  assert (Hin : Some mint ∈ uniqueMints scan).
  { rewrite Hmint. apply Hmints. by right. }
  case_decide as Hempty.
  { exfalso. destruct (uniqueMints scan); [by apply elem_of_nil in Hin|done]. }
  rewrite !bind_run.
  set (env1 := (callFetchAccountInfo fetchAccountInfo chunk env).2).
  pose proof (resolveInfo_expected (uniqueMints scan) env1 Hnd Hin) as Hresolve.
  assert (Hentry : ∀ m' label,
            holdsAnnotation a mint (expectedInfo mint om)
              (<[Some a :=
                   mintAccountEntry (Some a)
                     (resolveInfo (fetchMetadata fetch (uniqueMints scan) env1).1
                        (Some a)) label]> m')).
  { intros m' label. rewrite <- Hmint, Hresolve. eexists.
    rewrite lookup_insert_eq. split; [done|]. done. }
  match goal with
  | |- context [forEach (enrichMintAccount getLabel ?mim) _ ?m0 ?e0] =>
      apply (forEach_reaches (holdsAnnotation a mint (expectedInfo mint om))
               (enrichMintAccount getLabel mim) (mintAccounts scan) (Some a) Hfound)
  end.
  - intros m' env'.
    destruct (enrichMintAccount_run getLabel
                (fetchMetadata fetch (uniqueMints scan) env1).1 (Some a) m' env')
      as [label ->].
    apply Hentry.
  - intros k m' env' Hk Hm'.
    destruct (enrichMintAccount_run getLabel
                (fetchMetadata fetch (uniqueMints scan) env1).1 k m' env')
      as [label ->].
    destruct (decide (k = Some a)) as [->|Hkey]; [apply Hentry|].
    by apply annotation_insert_other.
Qed.

Lemma annotation_built (env : Env) :
  (∀ m env', holdsAnnotation a mint (expectedInfo mint om)
     (processChunk atob bs58_encode fetchAccountInfo fetch getLabel chunk m env').1) →
  holdsAnnotation a mint (expectedInfo mint om)
    (fetchEnrichmentMap atob bs58_encode fetchAccountInfo fetch getLabel
       pubkeys env).1.
Proof.
  intros Hown.
  assert (a ∈ pubkeys) as Hin.
  { apply (chunkBy_elem 100 pubkeys chunk); [lia|done|].
    by apply list_elem_of_lookup_2 with j. }
  rewrite fetchEnrichmentMap_result by (by intros ->; apply elem_of_nil in Hin).
  cbv zeta.
  assert (Hchunks : ∀ env',
            holdsAnnotation a mint (expectedInfo mint om)
              (forEach (processChunk atob bs58_encode fetchAccountInfo fetch getLabel)
                 (chunkBy 100 pubkeys) ∅ env').1).
  { intros env'.
    apply (forEach_reaches (holdsAnnotation a mint (expectedInfo mint om)))
      with chunk; [done|apply Hown|].
    intros chunk' m env'' Hc Hm.
    destruct (decide (chunk' = chunk)) as [->|Hne]; [apply Hown|].
    by apply annotation_other_chunk. }
  destruct getLabel as [g|]; [|apply Hchunks].
  apply forEach_invariant; [|apply Hchunks].
  intros p m env' _ Hm.
  destruct (labelPubkey_result g p m env') as [->|[-> _]]; [|done].
  by apply annotation_labelEffect.
Qed.
End OneAnnotation.

(** C7 (as amended).  The icon of every token entry of the returned
    map is the icon base followed by the mint of the entry and [.png],
    whatever the metadata endpoint answers.  Let the input hold no
    address twice, let the account-info service answer an address of
    the input, whenever asked, with a blob that classifies as a token
    holding or as a mint record, and let [mint] be the mint read from
    the holding, or the address itself for a mint record.  If the
    endpoint, whenever a request names the mint, has no entry for it
    (the request is rejected, answered without success, or the answer
    lacks the mint), the entry of the address in the returned map shows
    the symbol Unknown, zero decimals and no name.  If it has an entry
    for it, the entry of the address shows the name and the decimals
    of that entry (zero when it gives none), and its symbol when that
    is a non-empty string, Unknown otherwise. *)
Theorem token_annotation_metadata :
  (∀ pubkeys (env : Env) k v,
     (fetchEnrichmentMap atob bs58_encode fetchAccountInfo fetch getLabel
        pubkeys env).1 !! k = Some v →
     iconDerived v)
  ∧ (∀ pubkeys (env : Env) a chunk j info om,
       NoDup pubkeys →
       chunk ∈ chunkBy 100 pubkeys → chunk !! j = Some a →
       (∀ w, chunkInfosOf chunk (fetchAccountInfo chunk w).1 !! j
             = Some (Some info)) →
       let dataBuf := base64ToBytes atob (info_data info).1 in
       let kind := classify (info_owner info) dataBuf in
       let mint :=
         match kind with
         | TokenHolding => bs58_encode (subarray 0 32 dataBuf)
         | _ => a
         end in
       kind ≠ Unclassified →
       (∀ apiChunk w, Some mint ∈ apiChunk →
          responseMeta (fetch (metadataUrl apiChunk) w).1 (Some mint) = om) →
       ∃ v,
         (fetchEnrichmentMap atob bs58_encode fetchAccountInfo fetch getLabel
            pubkeys env).1 !! Some a = Some v
         ∧ getProp "__type" v = VStr "token"
         ∧ getProp "mint" v = VStr mint
         ∧ getProp "logoURI" v
           = VStr (SUPABASE_TOKEN_ICON_URL +:+ "/" +:+ mint +:+ ".png")
         ∧ match om with
           | None =>
               getProp "symbol" v = VStr "Unknown"
               ∧ getProp "decimals" v = VNum 0
               ∧ getProp "name" v = VUndefined
           | Some meta =>
               getProp "symbol" v
               = VStr match meta_symbol meta with
                      | Some s => if decide (s = EmptyString) then "Unknown" else s
                      | None => "Unknown"
                      end
               ∧ getProp "decimals" v
                 = VNum (Z.of_nat (default 0%nat (meta_decimals meta)))
               ∧ getProp "name" v
                 = match meta_name meta with
                   | Some name => VStr name
                   | None => VUndefined
                   end
           end).
Proof.
  split.
  - intros pubkeys env k v Hk.
    by apply (fetchEnrichmentMap_icons atob bs58_encode fetchAccountInfo fetch
                getLabel pubkeys env k v).
  - intros pubkeys env a chunk j info om Hnodup Hchunk Hat Hinfo dataBuf kind mint
      Hkind Hmeta.
    assert (Hholds : holdsAnnotation a mint (expectedInfo mint om)
              (fetchEnrichmentMap atob bs58_encode fetchAccountInfo fetch getLabel
                 pubkeys env).1).
    { apply (annotation_built pubkeys a chunk j mint om Hnodup Hchunk Hat).
      intros m env'. unfold mint, kind in *.
      destruct (classify (info_owner info) dataBuf) eqn:Hc; [| |done].
      - by apply (annotation_token_chunk pubkeys a chunk j info _ om).
      - by apply (annotation_mint_chunk a chunk j info _ om). }
    destruct Hholds as (v & Hv & Htype & Hmint & Hsym & Hdec & Hname & Hlogo).
    exists v. split; [done|]. split; [done|]. split; [done|].
    split; [rewrite Hlogo; by destruct om|].
    rewrite Hsym, Hdec, Hname. destruct om as [meta|]; simpl; [|done].
    split; [|split; [done|by destruct (meta_name meta)]].
    unfold orString. destruct (meta_symbol meta) as [s|]; simpl; [|done].
    by case_decide; case_bool_decide.
Qed.
End AnnotationFacts.

Lemma token_annotation_metadata_sample :
  ∃ v,
    sampleRun.1 !! Some holderAddress = Some v
    ∧ getProp "__type" v = VStr "token"
    ∧ getProp "mint" v = VStr wsolMint
    ∧ getProp "logoURI" v
      = VStr (SUPABASE_TOKEN_ICON_URL +:+ "/" +:+ wsolMint +:+ ".png")
    ∧ getProp "symbol" v = VStr "SOL"
    ∧ getProp "decimals" v = VNum 9
    ∧ getProp "name" v = VStr "Wrapped SOL".
Proof.
  destruct (token_annotation_metadata sampleAtob sampleBs58 sampleFetchAccountInfo
              sampleFetch (Some sampleGetLabel)) as [_ Hentry].
  exact (Hentry samplePubkeys sampleEnv holderAddress samplePubkeys 0%nat holdingInfo
           (Some {| meta_symbol := Some "SOL"; meta_decimals := Some 9%nat;
                    meta_name := Some "Wrapped SOL" |})
           samplePubkeys_NoDup samplePubkeys_chunk eq_refl (λ w, eq_refl)
           ltac:(by vm_compute)
           ltac:(intros apiChunk w _; by vm_compute)).
Defined.
